(** * mcp-google-map: route optimisation and text search services

    A shallow embedding of [RoutesService] and [TextSearchService] and the
    properties of their result shapes, error paths and parsing helpers.

    Modelling conventions.
    - A JavaScript [number] is an IEEE binary64.  The coordinates of a
      place and the corners of its viewport, which the code subtracts and
      compares with [0.05], are primitive floats.  A duration is read from
      its text as the double nearest to the numeral ([to_double]: round to
      nearest, ties to even, overflow to [Infinity]), rounded by
      [Math.round] and summed in double arithmetic; being whole and never
      negative from there on, it is kept as the integer it holds ([jsnum]).
      The coordinates of a route point, which the code only passes along,
      are exact rationals [Q]; what it counts with (metres, HTTP status,
      indices) is an integer [Z] or [nat].
    - An optional property ([x?: T], or a value that may be [null]) is an
      [option]; [a || b] and [a ?? b] are written out with the truthiness
      of the type at hand (the empty string and [0] are falsy for [||]).
    - [async] functions are computations in a small trace-and-exception
      monad: the trace records each network call and each log line, the
      result is a thrown value or a returned one. *)

From Stdlib Require Import String Ascii List ZArith QArith Lia Lqa Bool.
From Stdlib Require Import DecimalString DecimalPos Floats.
Import ListNotations.

Local Open Scope string_scope.
Local Open Scope Z_scope.

(* ------------------------------------------------------------------ *)
(** ** JavaScript primitives used by the two services *)

Module Js.

(** *** Numbers *)

(** A double that is not negative: [m * 2^e] with [0 <= m], [Infinity] or
    [NaN].  This is what [parseFloat] gives on a run of digits and dots. *)
Inductive double : Type :=
| Finite (m e : Z)
| Infinite
| NotANumber.

(** [2^k], and 1 for a negative [k]. *)
Definition pow2 (k : Z) : Z := 2 ^ Z.max k 0.

(** The largest [e] with [2^e <= n/d], for positive [n] and [d]. *)
Definition ilog2_ratio (n d : Z) : Z :=
  let e := Z.log2 n - Z.log2 d in
  if d * pow2 e <=? n * pow2 (- e) then e else e - 1.

(** [a/b] rounded to the nearest integer, a tie going to the even one. *)
Definition round_div (a b : Z) : Z :=
  let q := a / b in
  let r := a mod b in
  if (b <? 2 * r) || ((b =? 2 * r) && Z.odd q) then q + 1 else q.

(** The double nearest to the fraction [n/d] ([0 <= n], [0 < d]): 53
    significant bits, the exponent of the last bit no smaller than -1074
    (below that the subnormal numbers lose bits), a tie going to the even
    mantissa, and [Infinity] from 2^1024 on. *)
Definition to_double (n d : Z) : double :=
  if n <=? 0 then Finite 0 0
  else
    let x := Z.max (ilog2_ratio n d - 52) (-1074) in
    let m := round_div (n * pow2 (- x)) (d * pow2 x) in
    if 2 ^ 1024 <=? m * pow2 x then Infinite else Finite m x.

(** [floor(m * 2^e + 1/2)] *)
Definition nearest_integer (m e : Z) : Z :=
  if 0 <=? e then m * 2 ^ e else (m + 2 ^ (- e - 1)) / 2 ^ (- e).

(** A whole number held by a double, an infinity, or [NaN]: the result of
    [Math.round] and of sums of such results. *)
Inductive jsnum : Type :=
| JNum (z : Z)
| JInfinity (negative : bool)
| JNaN.

(** [Math.round]: the nearest integer, ties towards plus infinity. *)
Definition Math_round (x : double) : jsnum :=
  match x with
  | Finite m e => JNum (nearest_integer m e)
  | Infinite => JInfinity false
  | NotANumber => JNaN
  end.

(** The number that the integer [z] is as a double: [z] itself up to 2^53
    in magnitude, the nearest double beyond. *)
Definition number_of_Z (z : Z) : jsnum :=
  match Math_round (to_double (Z.abs z) 1) with
  | JNum x => JNum (Z.sgn z * x)
  | JInfinity _ => JInfinity (z <? 0)
  | JNaN => JNaN
  end.

(** [a + b]: the exact sum, rounded to a double. *)
Definition jsnum_add (a b : jsnum) : jsnum :=
  match a, b with
  | JNum x, JNum y => number_of_Z (x + y)
  | JInfinity s, JNum _ | JNum _, JInfinity s => JInfinity s
  | JInfinity s, JInfinity t => if Bool.eqb s t then JInfinity s else JNaN
  | _, _ => JNaN
  end.

(** [s || d] for an optional string: [undefined], [null] and the empty string are falsy. *)
Definition or_string (s : option string) (d : string) : string :=
  match s with
  | Some (String c r) => String c r
  | _ => d
  end.

(** [n || d] for an optional number: [undefined], [null] and [0] are falsy. *)
Definition or_number (n : option Z) (d : Z) : Z :=
  match n with
  | Some 0 => d
  | Some z => z
  | None => d
  end.

(** [n ?? d]: only [undefined] and [null] are replaced. *)
Definition nullish {A : Type} (n : option A) (d : A) : A :=
  match n with
  | Some a => a
  | None => d
  end.

(** [`${n}`] for an integer below 2^53 in magnitude (an index, a count, a
    status code): its decimal digits. *)
Definition string_of_Z (z : Z) : string :=
  NilZero.string_of_int (Z.to_int z).

Definition string_of_nat (n : nat) : string :=
  string_of_Z (Z.of_nat n).

Fixpoint strip_zeros (s : string) : string :=
  match s with
  | String "0" r => strip_zeros r
  | _ => s
  end.

Fixpoint rev_string (s acc : string) : string :=
  match s with
  | EmptyString => acc
  | String c r => rev_string r (String c acc)
  end.

(** The decimal with the fewest significant digits that reads back as the
    whole double [x], the nearest to [x] among those: [k] significant digits
    are tried for [k], [k + 1], ... *)
Fixpoint shortest (x digits : Z) (fuel : nat) (k : Z) : Z :=
  match fuel with
  | O => x
  | S fuel' =>
      let unit := 10 ^ Z.max 0 (digits - k) in
      let lo := x / unit * unit in
      let hi := lo + unit in
      let ok v := match number_of_Z v with JNum y => y =? x | _ => false end in
      match ok lo, ok hi with
      | true, true =>
          if x - lo <? hi - x then lo
          else if hi - x <? x - lo then hi
          else if Z.even (x / unit) then lo else hi
      | true, false => lo
      | false, true => hi
      | false, false => shortest x digits fuel' (k + 1)
      end
  end.

(** [`${x}`] for a whole double [x] of 2^53 or more: the shortest digits,
    filled up with zeros below 10^21 and in exponent notation from there. *)
Definition large_text (x : Z) : string :=
  let digits := Z.of_nat (String.length (string_of_Z x)) in
  let text := string_of_Z (shortest x digits 17 1) in
  let n := Z.of_nat (String.length text) in
  if n <=? 21 then text
  else
    match rev_string (strip_zeros (rev_string text EmptyString)) EmptyString with
    | String c EmptyString => String c ("e+" ++ string_of_Z (n - 1))
    | String c r => String c ("." ++ r ++ "e+" ++ string_of_Z (n - 1))
    | EmptyString => EmptyString
    end.

(** [`${n}`] for a number that arrived as an integer literal of any size:
    below 2^53 in magnitude its decimal digits, beyond that the text of the
    double it became. *)
Definition number_text (z : Z) : string :=
  if Z.abs z <? 2 ^ 53 then string_of_Z z
  else
    match number_of_Z z with
    | JNum x => (if x <? 0 then "-" else EmptyString) ++ large_text (Z.abs x)
    | JInfinity true => "-Infinity"
    | JInfinity false => "Infinity"
    | JNaN => "NaN"
    end.

(** [s.startsWith(p)] *)
Definition startsWith (s p : string) : bool := String.prefix p s.

Fixpoint drop (n : nat) (s : string) : string :=
  match n, s with
  | O, _ => s
  | S n', String _ r => drop n' r
  | S _, EmptyString => EmptyString
  end.

(** [s.includes(t)]: [t] occurs in [s] at some position. *)
Fixpoint includes (s t : string) : bool :=
  String.prefix t s ||
  match s with
  | EmptyString => false
  | String _ r => includes r t
  end.

(** [s.replace(pat, rep)] with a string pattern: the first occurrence only. *)
Fixpoint replace (s pat rep : string) : string :=
  if String.prefix pat s then rep ++ drop (String.length pat) s
  else match s with
       | EmptyString => EmptyString
       | String c r => String c (replace r pat rep)
       end.

(** [arr[i]] for a numeric index: [undefined] outside the array. *)
Definition index {A : Type} (arr : list A) (i : Z) : option A :=
  if i <? 0 then None else nth_error arr (Z.to_nat i).

(** [arr.map((_, idx) => idx)] *)
Definition indices {A : Type} (arr : list A) : list Z :=
  map Z.of_nat (seq 0 (length arr)).

(** *** The regular expression [/([0-9.]+)s/] *)

Definition is_digit (c : ascii) : bool :=
  ((48 <=? nat_of_ascii c) && (nat_of_ascii c <=? 57))%nat.

Definition is_dot (c : ascii) : bool := (nat_of_ascii c =? 46)%nat.

(** The character class [[0-9.]]. *)
Definition in_class (c : ascii) : bool := is_digit c || is_dot c.

(** The longest prefix of [s] inside the class, and what follows it. *)
Fixpoint span_class (s : string) : string * string :=
  match s with
  | String c r =>
      if in_class c then let (run, rest) := span_class r in (String c run, rest)
      else (EmptyString, s)
  | EmptyString => (EmptyString, EmptyString)
  end.

(** A match of [([0-9.]+)s] anchored at the start of [s]: the greedy run,
    which must be non-empty and followed by ['s'] (giving characters back
    leaves a class character where ['s'] is needed, so no shorter run
    matches either). *)
Definition match_here (s : string) : option string :=
  match span_class s with
  | (String c run, String "s" _) => Some (String c run)
  | _ => None
  end.

(** [/([0-9.]+)s/.exec(s)]: the first capture group of the leftmost match. *)
Fixpoint regex_exec (s : string) : option string :=
  match match_here s with
  | Some g => Some g
  | None =>
      match s with
      | EmptyString => None
      | String _ r => regex_exec r
      end
  end.

(** *** [parseFloat] on a run of digits and dots *)

Definition digit_of (c : ascii) : Z := Z.of_nat (nat_of_ascii c - 48).

(** Leading decimal digits of [s], most significant first, and the rest. *)
Fixpoint take_digits (s : string) : list Z * string :=
  match s with
  | String c r =>
      if is_digit c then let (ds, rest) := take_digits r in (digit_of c :: ds, rest)
      else ([], s)
  | EmptyString => ([], EmptyString)
  end.

Definition digits_value (ds : list Z) : Z :=
  fold_left (fun acc d => 10 * acc + d) ds 0.

(** The double nearest to the numeral [ip.fp]: the digits of both parts
    read as one whole number, over the power of ten of the fraction. *)
Definition decimal (ip fp : list Z) : double :=
  to_double (digits_value (ip ++ fp)) (10 ^ Z.of_nat (length fp)).

(** [parseFloat(s)] reads the longest prefix that is a decimal literal,
    [digits], [digits.], [digits.digits] or [.digits], and gives the double
    nearest to it, or [NaN] when there is none.  Whitespace, sign, exponent
    and the literal [Infinity] are not modelled: the only call site passes a
    capture of [[0-9.]+]. *)
Definition parseFloat (s : string) : double :=
  let (ip, r1) := take_digits s in
  match r1 with
  | String "." r2 =>
      let (fp, _) := take_digits r2 in
      match ip, fp with
      | [], [] => NotANumber
      | _, _ => decimal ip fp
      end
  | _ =>
      match ip with
      | [] => NotANumber
      | _ => to_double (digits_value ip) 1
      end
  end.

End Js.

Import Js.

(* ------------------------------------------------------------------ *)
(** ** Thrown values, HTTP responses and the effect monad *)

Module Eff.

(** What a [throw] or a rejected promise carries: an [Error] object with
    its message, or some other value (kept as its [JSON.stringify] text). *)
Inductive Thrown : Type :=
| JsError (message : string)
| JsValue (stringified : string).

(** The [TypeError] of reading a property of [undefined], in V8's wording. *)
Definition type_error (prop : string) : Thrown :=
  JsError ("Cannot read properties of undefined (reading '" ++ prop ++ "')").

(** The [TypeError] of reading a property of [null]. *)
Definition null_type_error (prop : string) : Thrown :=
  JsError ("Cannot read properties of null (reading '" ++ prop ++ "')").

(** [response.json()]: rejects, or resolves to a value that may be [null]. *)
Inductive JsonBody (P : Type) : Type :=
| JsonThrows (t : Thrown)
| JsonValue (v : option P).
Arguments JsonThrows {P} t.
Arguments JsonValue {P} v.

Record Response (P : Type) : Type := mkResponse {
  ok : bool;
  status : nat;
  statusText : string;
  body : JsonBody P
}.
Arguments mkResponse {P}.
Arguments ok {P}.
Arguments status {P}.
Arguments statusText {P}.
Arguments body {P}.

(** [fetch(..)]: rejects (network error) or resolves to a response. *)
Inductive FetchOutcome (P : Type) : Type :=
| Rejected (t : Thrown)
| Responded (r : Response P).
Arguments Rejected {P} t.
Arguments Responded {P} r.

(** Synchronous code that may throw. *)
Definition Exc (A : Type) : Type := (Thrown + A)%type.

(** An [async] computation: the events it emitted, in order, and how it
    settled. *)
Definition M (Ev A : Type) : Type := (list Ev * Exc A)%type.

Section Monad.
Context {Ev : Type}.

Definition ret {A : Type} (a : A) : M Ev A := ([], inr a).

Definition throw {A : Type} (t : Thrown) : M Ev A := ([], inl t).

Definition emit (e : Ev) : M Ev unit := ([e], inr tt).

Definition lift {A : Type} (x : Exc A) : M Ev A := ([], x).

Definition bind {A B : Type} (m : M Ev A) (k : A -> M Ev B) : M Ev B :=
  match m with
  | (tr, inl t) => (tr, inl t)
  | (tr, inr a) => let (tr', r) := k a in ((tr ++ tr')%list, r)
  end.

(** [try { return await m } catch (error) { handler(error) }] *)
Definition try_catch {A : Type} (m : M Ev A) (handler : Thrown -> M Ev A) : M Ev A :=
  match m with
  | (tr, inl t) => let (tr', r) := handler t in ((tr ++ tr')%list, r)
  | (tr, inr a) => (tr, inr a)
  end.

(** [await response.json()] *)
Definition json {P : Type} (r : Response P) : M Ev (option P) :=
  match body r with
  | JsonThrows t => throw t
  | JsonValue v => ret v
  end.

(** [safeParse] / [safeParseJson]: a body that fails to parse is [undefined]. *)
Definition safeParse {P : Type} (r : Response P) : M Ev (option P) :=
  try_catch (json r) (fun _ => ret None).

Definition trace {A : Type} (m : M Ev A) : list Ev := fst m.
Definition outcome {A : Type} (m : M Ev A) : Exc A := snd m.
End Monad.

Definition exc_bind {A B : Type} (x : Exc A) (k : A -> Exc B) : Exc B :=
  match x with
  | inl t => inl t
  | inr a => k a
  end.

(** [arr.map((x, idx) => f(x, idx))] where [f] may throw; [i] is the index
    of the head of [l]. *)
Fixpoint map_indexed {A B : Type} (f : A -> Z -> Exc B) (l : list A) (i : Z)
  : Exc (list B) :=
  match l with
  | [] => inr []
  | x :: r =>
      exc_bind (f x i) (fun y =>
      exc_bind (map_indexed f r (i + 1)) (fun ys => inr (y :: ys)))
  end.

End Eff.

Import Eff.

Declare Scope eff_scope.
Notation "x <- m ;; k" := (bind m (fun x => k))
  (at level 61, m at next level, right associativity) : eff_scope.
Notation "m ;;; k" := (bind m (fun _ => k))
  (at level 61, right associativity) : eff_scope.

(* ------------------------------------------------------------------ *)
(** ** RoutesService *)

Module RoutesService.

Local Open Scope eff_scope.

Inductive OptimizeBy : Type := time | distance.

Record RoutePointInput : Type := mkPoint {
  lat : Q;
  lng : Q;
  label : option string
}.

Record OptimizeRouteParams : Type := mkParams {
  origin : RoutePointInput;
  destination : RoutePointInput;
  waypoints : list RoutePointInput;
  optimizeBy : OptimizeBy;
  departureTime : option string
}.

(** An element of [OptimizeRouteResult.ordered]. *)
Record OrderedPoint : Type := mkOrdered {
  o_label : string;
  o_lat : Q;
  o_lng : Q
}.

(** An element of [OptimizeRouteResult.legs]. *)
Record RouteLeg : Type := mkLeg {
  start_label : string;
  end_label : string;
  leg_distance_meters : Z;
  leg_duration_seconds : jsnum
}.

Inductive Source : Type := routes_preferred | directions_fallback.

Record OptimizeRouteResult : Type := mkResult {
  polyline : string;
  ordered : list OrderedPoint;
  distance_meters : Z;
  duration_seconds : jsnum;
  legs : list RouteLeg;
  source : Source
}.

(** *** What the two backends send back *)

(** A leg as [mapLegs] takes it: [{ distanceMeters?, duration? }]. *)
Record ApiLeg : Type := mkApiLeg {
  distanceMeters : option Z;
  duration : option string
}.

(** An element of [payload.routes] of the Routes API;
    [encodedPolyline] is [route.polyline?.encodedPolyline]. *)
Record PreferredRoute : Type := mkPreferredRoute {
  route_distanceMeters : option Z;
  route_duration : option string;
  encodedPolyline : option string;
  optimizedIntermediateWaypointIndex : option (list Z);
  route_legs : option (list ApiLeg)
}.

(** The JSON body of a Routes API response; [error_message] is
    [payload?.error?.message]. *)
Record RoutesPayload : Type := mkRoutesPayload {
  error_message : option string;
  routes : option (list PreferredRoute)
}.

(** A leg of the Directions API: [distance?.value],
    [duration_in_traffic?.value], [duration?.value]. *)
Record DirectionsLeg : Type := mkDirectionsLeg {
  distance_value : option Z;
  duration_in_traffic_value : option Z;
  duration_value : option Z
}.

(** An element of [data.routes] of the Directions API;
    [overview_points] is [route.overview_polyline?.points]. *)
Record DirectionsRoute : Type := mkDirectionsRoute {
  overview_points : option string;
  waypoint_order : option (list Z);
  directions_legs : option (list DirectionsLeg)
}.

(** The JSON body of a Directions API response; [data_routes] is [None]
    when [data.routes] is not an array.  [data_error_message] is the text
    with which the provider explains a failure; [computeDirectionsFallback]
    never reads it. *)
Record DirectionsPayload : Type := mkDirectionsPayload {
  data_status : option string;
  data_error_message : option string;
  data_routes : option (list DirectionsRoute)
}.

(** *** What the service sends *)

Record LatLng : Type := mkLatLng {
  latitude : Q;
  longitude : Q
}.

Record RoutesBody : Type := mkRoutesBody {
  body_origin : LatLng;
  body_destination : LatLng;
  intermediates : list LatLng;
  travelMode : string;
  routingPreference : string;
  body_departureTime : string;
  polylineQuality : string;
  polylineEncoding : string;
  optimizeWaypointOrder : bool
}.

(** The [POST] to [ROUTES_ENDPOINT]: the two Google headers and the body. *)
Record RoutesRequest : Type := mkRoutesRequest {
  x_goog_api_key : string;
  x_goog_fieldmask : string;
  request_body : RoutesBody
}.

(** The [GET] to [DIRECTIONS_ENDPOINT], by search parameter.  Coordinates
    stay numbers ([`${lat},${lng}`] is not rendered); [param_waypoints] is
    [Some] of the points behind the ["optimize:true|"] prefix. *)
Record DirectionsRequest : Type := mkDirectionsRequest {
  param_origin : Q * Q;
  param_destination : Q * Q;
  param_mode : string;
  param_departure_time : option string;
  param_waypoints : option (list (Q * Q));
  param_key : string
}.

Inductive Event : Type :=
| FetchRoutes (req : RoutesRequest)
| FetchDirections (req : DirectionsRequest)
| LogError (text : string) (error : Thrown).

(** The instance ([apiKey]) and the world around one call: the clock and
    date parser behind [Date], and what each endpoint answers. *)
Record Env : Type := mkEnv {
  apiKey : string;
  now_iso : string;
  date_time : string -> option Z;
  date_iso : Z -> string;
  routes_endpoint : RoutesRequest -> FetchOutcome RoutesPayload;
  directions_endpoint : DirectionsRequest -> FetchOutcome DirectionsPayload
}.

Definition fetch_routes (env : Env) (req : RoutesRequest)
  : M Event (Response RoutesPayload) :=
  emit (FetchRoutes req) ;;;
  match routes_endpoint env req with
  | Rejected t => throw t
  | Responded r => ret r
  end.

Definition fetch_directions (env : Env) (req : DirectionsRequest)
  : M Event (Response DirectionsPayload) :=
  emit (FetchDirections req) ;;;
  match directions_endpoint env req with
  | Rejected t => throw t
  | Responded r => ret r
  end.

(** *** Helpers *)

Definition toLatLng (point : RoutePointInput) : LatLng :=
  {| latitude := lat point; longitude := lng point |}.

Definition defaultLabel (index total : Z) : string :=
  if index =? 0 then "Origin"
  else if index =? total - 1 then "Destination"
  else "Stop " ++ string_of_Z index.

(** [point] is [None] where the array slot holds [undefined]; reading
    [point.label] then throws. *)
Definition normalizePoint (point : option RoutePointInput) (index total : Z)
  : Exc OrderedPoint :=
  match point with
  | None => inl (type_error "label")
  | Some p =>
      inr {| o_label := or_string (label p) (defaultLabel index total);
             o_lat := lat p;
             o_lng := lng p |}
  end.

Definition parseDurationSeconds (duration : option string) : jsnum :=
  match duration with
  | None => JNum 0
  | Some EmptyString => JNum 0
  | Some d =>
      match regex_exec d with
      | None => JNum 0
      | Some g => Math_round (parseFloat g)
      end
  end.

(** [orderedPoints[i]]: [undefined] outside the array and where the slot
    itself holds [undefined]. *)
Definition point_at (orderedPoints : list (option RoutePointInput)) (i : Z)
  : option RoutePointInput :=
  match index orderedPoints i with
  | Some p => p
  | None => None
  end.

(** [a || b] on two possibly undefined objects. *)
Definition or_point (a b : option RoutePointInput) : option RoutePointInput :=
  match a with
  | Some p => Some p
  | None => b
  end.

Definition mapLeg (orderedPoints : list (option RoutePointInput))
  (leg : ApiLeg) (idx : Z) : Exc RouteLeg :=
  let total := Z.of_nat (length orderedPoints) in
  let startPoint := or_point (point_at orderedPoints idx) (point_at orderedPoints 0) in
  let endPoint :=
    or_point (point_at orderedPoints (idx + 1)) (point_at orderedPoints (total - 1)) in
  exc_bind (normalizePoint startPoint idx total) (fun s =>
  exc_bind (normalizePoint endPoint (idx + 1) total) (fun e =>
  inr {| start_label := o_label s;
         end_label := o_label e;
         leg_distance_meters := or_number (distanceMeters leg) 0;
         leg_duration_seconds := parseDurationSeconds (duration leg) |})).

Definition mapLegs (legsFromApi : list ApiLeg)
  (orderedPoints : list (option RoutePointInput)) : Exc (list RouteLeg) :=
  map_indexed (mapLeg orderedPoints) legsFromApi 0.

Definition sumDistances (legs : list RouteLeg) : Z :=
  fold_left (fun sum leg => sum + leg_distance_meters leg) legs 0.

Definition sumDurations (legs : list RouteLeg) : jsnum :=
  fold_left (fun sum leg => jsnum_add sum (leg_duration_seconds leg)) legs (JNum 0).

Definition resolveDepartureTimeString (env : Env) (value : option string)
  (allowNowLiteral : bool) : string :=
  match value with
  | None | Some EmptyString => if allowNowLiteral then "now" else now_iso env
  | Some v =>
      if String.eqb v "now" then (if allowNowLiteral then "now" else now_iso env)
      else
        match date_time env v with
        | None => if allowNowLiteral then "now" else now_iso env
        | Some ms =>
            if allowNowLiteral then string_of_Z (ms / 1000) else date_iso env ms
        end
  end.

(** [[origin, ...order.map((idx) => waypoints[idx]), destination]] *)
Definition orderPoints (params : OptimizeRouteParams) (order : list Z)
  : list (option RoutePointInput) :=
  Some (origin params)
  :: (map (fun idx => index (waypoints params) idx) order
      ++ [Some (destination params)])%list.

(** [orderedPoints.map((point, idx) => normalizePoint(point, idx, length))] *)
Definition normalizeAll (orderedPoints : list (option RoutePointInput))
  : Exc (list OrderedPoint) :=
  map_indexed
    (fun point idx => normalizePoint point idx (Z.of_nat (length orderedPoints)))
    orderedPoints 0.

Definition fieldMask : string :=
  String.concat ","
    [ "routes.distanceMeters";
      "routes.duration";
      "routes.polyline.encodedPolyline";
      "routes.legs.distanceMeters";
      "routes.legs.duration";
      "routes.optimizedIntermediateWaypointIndex" ].

Definition routesRequest (env : Env) (params : OptimizeRouteParams) : RoutesRequest :=
  {| x_goog_api_key := apiKey env;
     x_goog_fieldmask := fieldMask;
     request_body :=
       {| body_origin := toLatLng (origin params);
          body_destination := toLatLng (destination params);
          intermediates := map toLatLng (waypoints params);
          travelMode := "DRIVE";
          routingPreference :=
            match optimizeBy params with
            | distance => "TRAFFIC_UNAWARE"
            | time => "TRAFFIC_AWARE_OPTIMAL"
            end;
          body_departureTime :=
            resolveDepartureTimeString env (departureTime params) false;
          polylineQuality := "HIGH_QUALITY";
          polylineEncoding := "ENCODED_POLYLINE";
          optimizeWaypointOrder :=
            match waypoints params with [] => false | _ => true end |} |}.

(** [payload?.routes?.[0]] *)
Definition first_route {R : Type} (rs : option (list R)) : option R :=
  match rs with
  | Some (r :: _) => Some r
  | _ => None
  end.

Definition computeRoutesPreferred (env : Env) (params : OptimizeRouteParams)
  : M Event OptimizeRouteResult :=
  response <- fetch_routes env (routesRequest env params) ;;
  if negb (ok response) then
    errorPayload <- safeParse response ;;
    let upstream :=
      or_string (match errorPayload with
                 | Some p => error_message p
                 | None => None
                 end) (statusText response) in
    throw (JsError ("Routes Preferred API error: " ++ upstream
                    ++ " (HTTP " ++ string_of_nat (status response) ++ ")"))
  else
    payload <- json response ;;
    match first_route (match payload with Some p => routes p | None => None end) with
    | None => throw (JsError "Routes Preferred API returned no routes")
    | Some route =>
        let optimizedOrder :=
          match optimizedIntermediateWaypointIndex route with
          | Some order => order
          | None => indices (waypoints params)
          end in
        let orderedPoints := orderPoints params optimizedOrder in
        let legsFromApi := match route_legs route with Some l => l | None => [] end in
        legs <- lift (mapLegs legsFromApi orderedPoints) ;;
        ordered <- lift (normalizeAll orderedPoints) ;;
        ret {| polyline := or_string (encodedPolyline route) EmptyString;
               ordered := ordered;
               distance_meters :=
                 or_number (route_distanceMeters route) (sumDistances legs);
               duration_seconds := parseDurationSeconds (route_duration route);
               legs := legs;
               source := routes_preferred |}
    end.

Definition directionsRequest (env : Env) (params : OptimizeRouteParams)
  : DirectionsRequest :=
  let departure := resolveDepartureTimeString env (departureTime params) true in
  {| param_origin := (lat (origin params), lng (origin params));
     param_destination := (lat (destination params), lng (destination params));
     param_mode := "driving";
     param_departure_time :=
       match departure with
       | EmptyString => None
       | _ => Some departure
       end;
     param_waypoints :=
       match waypoints params with
       | [] => None
       | wps => Some (map (fun wp => (lat wp, lng wp)) wps)
       end;
     param_key := apiKey env |}.

(** The leg handed to [mapLegs] on the fallback path. *)
Definition directionsLeg (leg : DirectionsLeg) : ApiLeg :=
  {| distanceMeters := Some (or_number (distance_value leg) 0);
     duration :=
       Some (number_text
               (or_number (duration_in_traffic_value leg)
                  (or_number (duration_value leg) 0)) ++ "s") |}.

Definition computeDirectionsFallback (env : Env) (params : OptimizeRouteParams)
  : M Event OptimizeRouteResult :=
  response <- fetch_directions env (directionsRequest env params) ;;
  if negb (ok response) then
    throw (JsError ("Directions API HTTP error " ++ string_of_nat (status response)
                    ++ ": " ++ statusText response))
  else
    data <- json response ;;
    match data with
    | None => throw (null_type_error "status")
    | Some data =>
        let status_ok :=
          match data_status data with
          | Some st => String.eqb st "OK"
          | None => false
          end in
        match (if status_ok then first_route (data_routes data) else None) with
        | None =>
            throw (JsError ("Directions API error: "
                            ++ or_string (data_status data) "UNKNOWN"))
        | Some route =>
            let waypointOrder :=
              match waypoint_order route with
              | Some order => order
              | None => indices (waypoints params)
              end in
            let orderedPoints := orderPoints params waypointOrder in
            let legsFromApi :=
              match directions_legs route with Some l => l | None => [] end in
            legs <- lift (mapLegs (map directionsLeg legsFromApi) orderedPoints) ;;
            let totalDistance := sumDistances legs in
            let totalDuration := sumDurations legs in
            ordered <- lift (normalizeAll orderedPoints) ;;
            ret {| polyline := or_string (overview_points route) EmptyString;
                   ordered := ordered;
                   distance_meters := totalDistance;
                   duration_seconds := totalDuration;
                   legs := legs;
                   source := directions_fallback |}
        end
    end.

Definition optimizeRoute (env : Env) (params : OptimizeRouteParams)
  : M Event OptimizeRouteResult :=
  try_catch (computeRoutesPreferred env params) (fun error =>
    emit (LogError "Routes Preferred failed, falling back to Directions API" error) ;;;
    computeDirectionsFallback env params).

End RoutesService.

(* ------------------------------------------------------------------ *)
(** ** TextSearchService *)

Module TextSearchService.

Local Open Scope eff_scope.

Record Coordinates : Type := mkCoordinates {
  latitude : option float;
  longitude : option float
}.

Record Viewport : Type := mkViewport {
  low : option Coordinates;
  high : option Coordinates
}.

(** [displayName_text] is [place.displayName?.text]. *)
Record RawPlace : Type := mkRawPlace {
  raw_name : option string;
  raw_id : option string;
  displayName_text : option string;
  formattedAddress : option string;
  location : option Coordinates;
  raw_types : option (list string);
  viewport : option Viewport
}.

Record TextSearchCandidate : Type := mkCandidate {
  place_id : string;
  name : string;
  formatted_address : string;
  lat : float;
  lng : float;
  types : list string;
  is_area : bool
}.

Record TextSearchResult : Type := mkSearchResult {
  resolved : bool;
  candidates : list TextSearchCandidate
}.

(** The JSON body of a Places response; [error_message] is
    [payload?.error?.message]. *)
Record PlacesPayload : Type := mkPlacesPayload {
  error_message : option string;
  places : option (list RawPlace)
}.

Record SearchRequest : Type := mkSearchRequest {
  x_goog_api_key : string;
  x_goog_fieldmask : string;
  textQuery : string;
  maxResultCount : Z;
  languageCode : string
}.

Inductive Event : Type :=
| FetchPlaces (req : SearchRequest)
| LogError (text : string) (error : Thrown).

Record Env : Type := mkEnv {
  apiKey : string;
  endpoint : SearchRequest -> FetchOutcome PlacesPayload
}.

Definition defaultLanguage : string := "en".

Definition fetch_places (env : Env) (req : SearchRequest)
  : M Event (Response PlacesPayload) :=
  emit (FetchPlaces req) ;;;
  match endpoint env req with
  | Rejected t => throw t
  | Responded r => ret r
  end.

Definition areaTokens : list string :=
  [ "administrative_area_level";
    "locality";
    "sublocality";
    "postal_code";
    "country";
    "plus_code";
    "colloquial_area";
    "neighborhood";
    "political" ].

(** [Math.abs(a - b) > 0.05]; the literal is the double nearest to 0.05. *)
Definition span_exceeds (a b : float) : bool :=
  (0x1.999999999999ap-5 <? abs (a - b))%float.

Definition isArea (types : list string) (viewport : option Viewport) : bool :=
  let matchesType :=
    existsb (fun type => existsb (fun token => includes type token) areaTokens) types in
  if matchesType then true
  else
    match viewport with
    | Some {| low := Some lo; high := Some hi |} =>
        let latSpan :=
          span_exceeds (nullish (latitude hi) 0%float) (nullish (latitude lo) 0%float) in
        let lngSpan :=
          span_exceeds (nullish (longitude hi) 0%float) (nullish (longitude lo) 0%float) in
        if latSpan || lngSpan then true else false
    | _ => false
    end.

Definition extractPlaceId (place : RawPlace) : string :=
  match raw_name place with
  | Some (String c r) =>
      let nm := String c r in
      if startsWith nm "places/" then replace nm "places/" EmptyString
      else or_string (raw_id place) EmptyString
  | _ => or_string (raw_id place) EmptyString
  end.

Definition transformCandidate (place : RawPlace) (index : Z) : TextSearchCandidate :=
  let lat := nullish (match location place with
                      | Some l => latitude l
                      | None => None
                      end) 0%float in
  let lng := nullish (match location place with
                      | Some l => longitude l
                      | None => None
                      end) 0%float in
  let types := match raw_types place with Some ts => ts | None => [] end in
  let isArea := isArea types (viewport place) in
  {| place_id := extractPlaceId place;
     name :=
       or_string (displayName_text place)
         (or_string (raw_name place) ("Candidate " ++ string_of_Z (index + 1)));
     formatted_address := or_string (formattedAddress place) EmptyString;
     lat := lat;
     lng := lng;
     types := types;
     is_area := isArea |}.

(** [places.map((place, index) => this.transformCandidate(place, index))] *)
Fixpoint transformAll (places : list RawPlace) (index : Z) : list TextSearchCandidate :=
  match places with
  | [] => []
  | place :: rest => transformCandidate place index :: transformAll rest (index + 1)
  end.

Definition fieldMask : string :=
  String.concat ","
    [ "places.id";
      "places.name";
      "places.displayName";
      "places.formattedAddress";
      "places.location";
      "places.types";
      "places.viewport" ].

Definition searchRequest (env : Env) (query : string) (maxResults : Z)
  (languageCode : string) : SearchRequest :=
  {| x_goog_api_key := apiKey env;
     x_goog_fieldmask := fieldMask;
     textQuery := query;
     maxResultCount := Z.max 1 (Z.min 20 maxResults);
     languageCode := languageCode |}.

(** [candidates.length === 1 && !candidates[0].is_area] *)
Definition isResolved (candidates : list TextSearchCandidate) : bool :=
  (length candidates =? 1)%nat &&
  match candidates with
  | c :: _ => negb (is_area c)
  | [] => false
  end.

(** [search(query, maxResults = 5, languageCode = this.defaultLanguage)];
    an omitted argument is [None]. *)
Definition search (env : Env) (query : string) (maxResults : option Z)
  (languageCode : option string) : M Event TextSearchResult :=
  let maxResults := nullish maxResults 5 in
  let languageCode := nullish languageCode defaultLanguage in
  try_catch
    (response <- fetch_places env (searchRequest env query maxResults languageCode) ;;
     if negb (ok response) then
       errorBody <- safeParse response ;;
       let upstreamMessage :=
         or_string (match errorBody with
                    | Some p => error_message p
                    | None => None
                    end) (statusText response) in
       throw (JsError ("Places text search failed: " ++ upstreamMessage
                       ++ " (HTTP " ++ string_of_nat (status response) ++ ")"))
     else
       payload <- json response ;;
       let places :=
         match payload with
         | Some {| places := Some ps |} => ps
         | _ => []
         end in
       let candidates := transformAll places 0 in
       let resolved := isResolved candidates in
       ret {| resolved := resolved; candidates := candidates |})
    (fun error =>
       emit (LogError "places_text_search error" error) ;;;
       match error with
       | JsError _ => throw error
       | JsValue text => throw (JsError ("Places text search failed: " ++ text))
       end).

End TextSearchService.

(* ------------------------------------------------------------------ *)
(** ** Vocabulary of the statements *)

Module Vocabulary.

(** [t] occurs somewhere inside [s]. *)
Definition occurs_in (t s : string) : Prop :=
  exists pre post, s = pre ++ t ++ post.

(** Every character of [s] satisfies [p]. *)
Fixpoint all_chars (p : ascii -> bool) (s : string) : bool :=
  match s with
  | EmptyString => true
  | String c r => p c && all_chars p r
  end.

(** A decimal numeral is a list of digits, most significant first. *)
Definition digit_char (d : nat) : ascii := ascii_of_nat (48 + d).

Fixpoint numeral (ds : list nat) : string :=
  match ds with
  | [] => EmptyString
  | d :: r => String (digit_char d) (numeral r)
  end.

Definition are_digits (ds : list nat) : Prop := Forall (fun d => (d < 10)%nat) ds.

(** The natural number a digit list denotes. *)
Fixpoint positional (acc : nat) (ds : list nat) : nat :=
  match ds with
  | [] => acc
  | d :: r => positional (10 * acc + d) r
  end.

(** The rational that the numeral [ip.fp] denotes. *)
Definition numeral_value (ip fp : list nat) : Q :=
  (inject_Z (Z.of_nat (positional 0 ip))
   + inject_Z (Z.of_nat (positional 0 fp)) / inject_Z (10 ^ Z.of_nat (length fp)))%Q.

(** The fraction [n/d] is at least [2^k], stated over the integers. *)
Definition reaches (n d k : Z) : Prop := d * pow2 k <= n * pow2 (- k).

(** [z] is [v] rounded to the nearest integer, a tie going up. *)
Definition rounds_to (v : Q) (z : Z) : Prop :=
  (inject_Z z - (1 # 2) <= v)%Q /\ (v < inject_Z z + (1 # 2))%Q.

(** [s] holds a non-empty run of digits and dots directly before an ['s']. *)
Definition has_duration_literal (s : string) : Prop :=
  exists pre run post,
    s = pre ++ run ++ String "s" post /\ run <> EmptyString /\
    all_chars in_class run = true.

(** What an error message quotes from a failed response: the provider's own
    message when the body parses and holds a non-empty one, the HTTP status
    text otherwise. *)
Definition upstream_message {P : Type} (read : P -> option string)
  (resp : Response P) : string :=
  match body resp with
  | JsonValue (Some payload) => or_string (read payload) (statusText resp)
  | _ => statusText resp
  end.

End Vocabulary.

Import Vocabulary.

Module RoutesVocabulary.
Import RoutesService.

(** [pts] are the waypoints that the index sequence [order] picks out of
    [wps], one per index and in the order of the indices. *)
Definition selects (wps : list RoutePointInput) (order : list Z)
  (pts : list RoutePointInput) : Prop :=
  Forall2 (fun idx pt => 0 <= idx /\ nth_error wps (Z.to_nat idx) = Some pt)
    order pts.

(** The index sequence a route is assembled with: the backend's own, or the
    identity over the waypoints when the backend sent none. *)
Definition order_in_use (wps : list RoutePointInput) (sent : option (list Z))
  : list Z :=
  match sent with
  | Some order => order
  | None => indices wps
  end.

(** The legs a backend route carries; none when the field is absent. *)
Definition legs_sent {L : Type} (sent : option (list L)) : list L :=
  match sent with
  | Some l => l
  | None => []
  end.

(** A point of the result: its own label, or the default one of its position. *)
Definition labelPoint (total idx : Z) (p : RoutePointInput) : OrderedPoint :=
  {| o_label := or_string (label p) (defaultLabel idx total);
     o_lat := lat p;
     o_lng := lng p |}.

Fixpoint labelFrom (total idx : Z) (pts : list RoutePointInput)
  : list OrderedPoint :=
  match pts with
  | [] => []
  | p :: r => labelPoint total idx p :: labelFrom total (idx + 1) r
  end.

Definition labelled (pts : list RoutePointInput) : list OrderedPoint :=
  labelFrom (Z.of_nat (length pts)) 0 pts.

(** The preferred backend answers the request built from [params] with an
    HTTP-ok response whose first route is [route]. *)
Definition preferred_answers (env : Env) (params : OptimizeRouteParams)
  (route : PreferredRoute) : Prop :=
  exists resp payload rest,
    routes_endpoint env (routesRequest env params) = Responded resp /\
    ok resp = true /\
    body resp = JsonValue (Some payload) /\
    routes payload = Some (route :: rest).

(** The fallback backend answers the request built from [params] with an
    HTTP-ok response of status ["OK"] whose first route is [route]. *)
Definition fallback_answers (env : Env) (params : OptimizeRouteParams)
  (route : DirectionsRoute) : Prop :=
  exists resp data rest,
    directions_endpoint env (directionsRequest env params) = Responded resp /\
    ok resp = true /\
    body resp = JsonValue (Some data) /\
    data_status data = Some "OK" /\
    data_routes data = Some (route :: rest).


(** The line [optimizeRoute] logs when it catches [error]. *)
Definition fallback_log (error : Thrown) : Event :=
  LogError "Routes Preferred failed, falling back to Directions API" error.

End RoutesVocabulary.

Module PlacesVocabulary.
Import TextSearchService.

(** The nine words that mark a type tag as the tag of an area. *)
Definition area_token (token : string) : Prop :=
  token = "administrative_area_level" \/ token = "locality" \/
  token = "sublocality" \/ token = "postal_code" \/ token = "country" \/
  token = "plus_code" \/ token = "colloquial_area" \/
  token = "neighborhood" \/ token = "political".

(** Some type tag contains one of the area tokens. *)
Definition area_type (types : list string) : Prop :=
  exists type token, In type types /\ area_token token /\ occurs_in token type.

(** A coordinate as it is read: a missing one counts as 0. *)
Definition degrees (x : option float) : float :=
  match x with
  | Some d => d
  | None => 0%float
  end.

(** The distance between two coordinates, as double arithmetic gives it,
    is more than 0.05 (the double nearest to it). *)
Definition spans_more_than_0_05 (a b : float) : Prop :=
  (0x1.999999999999ap-5 <? abs (a - b))%float = true.

(** Both corners are there and the box spans more than 0.05 degrees of
    latitude or of longitude. *)
Definition wide (vp : Viewport) : Prop :=
  exists lo hi,
    low vp = Some lo /\ high vp = Some hi /\
    (spans_more_than_0_05 (degrees (latitude hi)) (degrees (latitude lo)) \/
     spans_more_than_0_05 (degrees (longitude hi)) (degrees (longitude lo))).

(** The places of a parsed body; none when the body is [null] or has no
    [places] field. *)
Definition places_sent (payload : option PlacesPayload) : list RawPlace :=
  match payload with
  | Some p => match places p with Some ps => ps | None => [] end
  | None => []
  end.

(** The request [search] sends, with the defaults filled in. *)
Definition request_of (env : Env) (query : string) (maxResults : option Z)
  (languageCode : option string) : SearchRequest :=
  searchRequest env query (nullish maxResults 5) (nullish languageCode defaultLanguage).

(** [s] is absent or empty. *)
Definition blank (s : option string) : Prop := s = None \/ s = Some EmptyString.

End PlacesVocabulary.

(* ------------------------------------------------------------------ *)
(** ** Worlds to run the services in *)

Module RouteScenarios.
Import RoutesService.

Definition trip_origin : RoutePointInput := mkPoint 1 2 (Some "Origin").
Definition trip_destination : RoutePointInput := mkPoint 4 5 (Some "Destination").
Definition stop_a : RoutePointInput := mkPoint 2 3 (Some "Stop A").
Definition stop_b : RoutePointInput := mkPoint 3 4 (Some "Stop B").

Definition two_stops : OptimizeRouteParams :=
  mkParams trip_origin trip_destination [stop_a; stop_b] time (Some "now").

Definition direct : OptimizeRouteParams :=
  mkParams trip_origin trip_destination [] time (Some "now").

Definition http_ok {P : Type} (payload : P) : FetchOutcome P :=
  Responded (mkResponse true 200 "OK" (JsonValue (Some payload))).

Definition http_error {P : Type} (code : nat) (text : string) (payload : P)
  : FetchOutcome P :=
  Responded (mkResponse false code text (JsonValue (Some payload))).

Definition world (routes : FetchOutcome RoutesPayload)
  (directions : FetchOutcome DirectionsPayload) : Env :=
  {| apiKey := "test-key";
     now_iso := "2026-01-01T00:00:00.000Z";
     date_time := fun _ => None;
     date_iso := fun _ => EmptyString;
     routes_endpoint := fun _ => routes;
     directions_endpoint := fun _ => directions |}.

(** The Routes API swaps the two stops and sends three legs. *)
Definition swapped_route : PreferredRoute :=
  {| route_distanceMeters := Some 12000;
     route_duration := Some "800s";
     encodedPolyline := Some "abc123";
     optimizedIntermediateWaypointIndex := Some [1; 0];
     route_legs := Some [ mkApiLeg (Some 4000) (Some "250s");
                          mkApiLeg (Some 5000) (Some "300s");
                          mkApiLeg (Some 3000) (Some "250s") ] |}.

Definition swapped_directions : DirectionsRoute :=
  {| overview_points := Some "fallback";
     waypoint_order := Some [1; 0];
     directions_legs := Some [ mkDirectionsLeg (Some 3000) (Some 200) None;
                               mkDirectionsLeg (Some 4000) (Some 250) None;
                               mkDirectionsLeg (Some 5000) (Some 300) None ] |}.

Definition unreachable : FetchOutcome DirectionsPayload :=
  Rejected (JsError "fetch failed").

Definition preferred_up : Env :=
  world (http_ok (mkRoutesPayload None (Some [swapped_route]))) unreachable.

Definition preferred_down : Env :=
  world (http_error 500 "Server Error" (mkRoutesPayload (Some "boom") None))
        (http_ok (mkDirectionsPayload (Some "OK") None (Some [swapped_directions]))).

(** Both backends refuse the key and say so in their bodies. *)
Definition both_refuse : Env :=
  world (http_error 403 "Forbidden"
           (mkRoutesPayload (Some "API key invalid") None))
        (http_error 403 "Forbidden"
           (mkDirectionsPayload (Some "REQUEST_DENIED") (Some "API key invalid")
              (Some []))).

(** A route that carries a polyline and totals but no [legs] field. *)
Definition bare_route : PreferredRoute :=
  {| route_distanceMeters := Some 900;
     route_duration := Some "60s";
     encodedPolyline := Some "xyz";
     optimizedIntermediateWaypointIndex := None;
     route_legs := None |}.

Definition preferred_bare : Env :=
  world (http_ok (mkRoutesPayload None (Some [bare_route]))) unreachable.

(** The Directions API keeps the stops as given and sends no
    [waypoint_order]. *)
Definition plain_directions : DirectionsRoute :=
  {| overview_points := Some "fallback";
     waypoint_order := None;
     directions_legs := Some [ mkDirectionsLeg (Some 3000) (Some 200) None;
                               mkDirectionsLeg (Some 4000) (Some 250) None;
                               mkDirectionsLeg (Some 5000) (Some 300) None ] |}.

Definition preferred_down_plain : Env :=
  world (http_error 500 "Server Error" (mkRoutesPayload (Some "boom") None))
        (http_ok (mkDirectionsPayload (Some "OK") None (Some [plain_directions]))).

End RouteScenarios.

Module PlaceScenarios.
Import TextSearchService.

Definition cafe : RawPlace :=
  {| raw_name := Some "places/abc";
     raw_id := None;
     displayName_text := Some "Cafe 123";
     formattedAddress := Some "123 Main St";
     location := Some (mkCoordinates (Some 1.5%float) (Some 2.25%float));
     raw_types := Some ["point_of_interest"; "establishment"];
     viewport := None |}.

(** A shop whose viewport runs from latitude [lo] to latitude [hi]. *)
Definition shop (lo hi : float) : RawPlace :=
  {| raw_name := Some "places/shop";
     raw_id := None;
     displayName_text := Some "Shop";
     formattedAddress := None;
     location := None;
     raw_types := Some ["establishment"];
     viewport := Some (mkViewport (Some (mkCoordinates (Some lo) (Some 3%float)))
                                  (Some (mkCoordinates (Some hi) (Some 3%float)))) |}.

(** A place whose resource name is not of the form ["places/..."]. *)
Definition versioned : RawPlace :=
  {| raw_name := Some "v1/places/abc";
     raw_id := Some "xyz";
     displayName_text := None;
     formattedAddress := None;
     location := None;
     raw_types := None;
     viewport := None |}.

(** A place known by its id only. *)
Definition nameless : RawPlace :=
  {| raw_name := None;
     raw_id := Some "xyz";
     displayName_text := None;
     formattedAddress := None;
     location := None;
     raw_types := None;
     viewport := None |}.

Definition answering (outcome : FetchOutcome PlacesPayload) : Env :=
  {| apiKey := "test-key"; endpoint := fun _ => outcome |}.

Definition finds (ps : option (list RawPlace)) : Env :=
  answering (Responded (mkResponse true 200 "OK"
                          (JsonValue (Some (mkPlacesPayload None ps))))).

Definition forbidden : Env :=
  answering (Responded (mkResponse false 403 "Forbidden"
                          (JsonValue (Some (mkPlacesPayload (Some "API key invalid")
                                              None))))).

End PlaceScenarios.

(* ------------------------------------------------------------------ *)
(** ** Construction of the services and the two tool actions *)

Module Tools.

Local Open Scope eff_scope.

(** [apiKey || process.env.GOOGLE_MAPS_API_KEY || ""] *)
Definition resolveApiKey (apiKey envKey : option string) : string :=
  or_string apiKey (or_string envKey EmptyString).

(** [new RoutesService(apiKey)]: the key the instance keeps, or the throw
    of the constructor. *)
Definition newRoutesService (apiKey envKey : option string) : Exc string :=
  match resolveApiKey apiKey envKey with
  | EmptyString =>
      inl (JsError "Google Maps API Key is required for route optimization")
  | key => inr key
  end.

(** [new TextSearchService(apiKey)] *)
Definition newTextSearchService (apiKey envKey : option string) : Exc string :=
  match resolveApiKey apiKey envKey with
  | EmptyString => inl (JsError "Google Maps API Key is required for text search")
  | key => inr key
  end.

(** What surrounds a tool call: the value of [getCurrentApiKey()] (a
    function of the request context, whose code is not part of the
    sources and which is taken here as the value it returns), the
    [GOOGLE_MAPS_API_KEY] of the process environment, and the world [W] of
    the service. *)
Record Host (W : Type) : Type := mkHost {
  currentApiKey : option string;
  envApiKey : option string;
  world : W
}.
Arguments mkHost {W}.
Arguments currentApiKey {W}.
Arguments envApiKey {W}.
Arguments world {W}.

(** An element of [content]: [{ type: "text", text }], where the text is
    either [JSON.stringify(result, null, 2)], kept as the result it
    renders, or a message. *)
Inductive Content (R : Type) : Type :=
| JsonText (result : R)
| Text (text : string).
Arguments JsonText {R} result.
Arguments Text {R} text.

Record ToolResponse (R : Type) : Type := mkToolResponse {
  isError : bool;
  content : list (Content R)
}.
Arguments mkToolResponse {R}.
Arguments isError {R}.
Arguments content {R}.

(** [error instanceof Error ? error.message : JSON.stringify(error)] *)
Definition errorMessage (error : Thrown) : string :=
  match error with
  | JsError message => message
  | JsValue stringified => stringified
  end.

End Tools.

Module RoutesOptimize.
Import Tools.

Local Open Scope eff_scope.

(** The validated parameters of [routes_optimize]. *)
Record RoutesOptimizeParams : Type := mkRoutesOptimizeParams {
  origin : RoutesService.RoutePointInput;
  destination : RoutesService.RoutePointInput;
  waypoints : option (list RoutesService.RoutePointInput);
  optimize_by : RoutesService.OptimizeBy;
  departure_time : option string
}.

(** The service instance made with [key] in the world of the host. *)
Definition service (w : RoutesService.Env) (key : string) : RoutesService.Env :=
  {| RoutesService.apiKey := key;
     RoutesService.now_iso := RoutesService.now_iso w;
     RoutesService.date_time := RoutesService.date_time w;
     RoutesService.date_iso := RoutesService.date_iso w;
     RoutesService.routes_endpoint := RoutesService.routes_endpoint w;
     RoutesService.directions_endpoint := RoutesService.directions_endpoint w |}.

Definition serviceParams (params : RoutesOptimizeParams)
  : RoutesService.OptimizeRouteParams :=
  {| RoutesService.origin := origin params;
     RoutesService.destination := destination params;
     RoutesService.waypoints :=
       match waypoints params with Some wps => wps | None => [] end;
     RoutesService.optimizeBy := optimize_by params;
     RoutesService.departureTime := departure_time params |}.

Definition ACTION (host : Host RoutesService.Env) (params : RoutesOptimizeParams)
  : M RoutesService.Event (ToolResponse RoutesService.OptimizeRouteResult) :=
  try_catch
    (key <- lift (newRoutesService (currentApiKey host) (envApiKey host)) ;;
     result <- RoutesService.optimizeRoute (service (world host) key)
                 (serviceParams params) ;;
     ret {| isError := false; content := [JsonText result] |})
    (fun error =>
       ret {| isError := true;
              content := [Text ("routes_optimize failed: " ++ errorMessage error)] |}).

End RoutesOptimize.

Module TextSearch.
Import Tools.

Local Open Scope eff_scope.

(** The validated parameters of [places_text_search]. *)
Record TextSearchParams : Type := mkTextSearchParams {
  query : string;
  maxResults : option Z;
  languageCode : option string
}.

Definition service (w : TextSearchService.Env) (key : string)
  : TextSearchService.Env :=
  {| TextSearchService.apiKey := key;
     TextSearchService.endpoint := TextSearchService.endpoint w |}.

Definition ACTION (host : Host TextSearchService.Env) (params : TextSearchParams)
  : M TextSearchService.Event (ToolResponse TextSearchService.TextSearchResult) :=
  try_catch
    (key <- lift (newTextSearchService (currentApiKey host) (envApiKey host)) ;;
     let maxResults := nullish (maxResults params) 5 in
     let languageCode :=
       match languageCode params with
       | Some (String c r) => Some (String c r)
       | _ => None
       end in
     result <- TextSearchService.search (service (world host) key) (query params)
                 (Some maxResults) languageCode ;;
     ret {| isError := false; content := [JsonText result] |})
    (fun error =>
       ret {| isError := true;
              content := [Text ("places_text_search failed: " ++ errorMessage error)] |}).

End TextSearch.

(* ------------------------------------------------------------------ *)
(** ** Further vocabulary *)

Module MoreVocabulary.
Import RoutesService.





(** The digits of a decimal number of the standard library, most
    significant first. *)
Fixpoint uint_digits (d : Decimal.uint) : list Z :=
  match d with
  | Decimal.Nil => []
  | Decimal.D0 r => 0 :: uint_digits r
  | Decimal.D1 r => 1 :: uint_digits r
  | Decimal.D2 r => 2 :: uint_digits r
  | Decimal.D3 r => 3 :: uint_digits r
  | Decimal.D4 r => 4 :: uint_digits r
  | Decimal.D5 r => 5 :: uint_digits r
  | Decimal.D6 r => 6 :: uint_digits r
  | Decimal.D7 r => 7 :: uint_digits r
  | Decimal.D8 r => 8 :: uint_digits r
  | Decimal.D9 r => 9 :: uint_digits r
  end.

(** A digit or a minus sign: what the text of an integer is made of. *)
Definition integer_char (c : ascii) : bool := is_digit c || Ascii.eqb c "-".

(** No character of the class [[0-9.]]. *)
Definition outside_class (c : ascii) : bool := negb (in_class c).

(** A request whose points carry no labels of their own. *)
Definition unlabelled (p : RoutePointInput) : Prop :=
  label p = None \/ label p = Some EmptyString.

End MoreVocabulary.

Module MoreScenarios.
Import RoutesService RouteScenarios.




(** The Routes API names a sixth waypoint where there are two. *)
Definition stray_route : PreferredRoute :=
  {| route_distanceMeters := Some 12000;
     route_duration := Some "800s";
     encodedPolyline := Some "abc123";
     optimizedIntermediateWaypointIndex := Some [5; 0];
     route_legs := None |}.

Definition preferred_strays : Env :=
  world (http_ok (mkRoutesPayload None (Some [stray_route])))
        (http_ok (mkDirectionsPayload (Some "OK") None (Some [swapped_directions]))).

(** Points without labels of their own. *)
Definition bare_trip : OptimizeRouteParams :=
  mkParams (mkPoint 1 2 None) (mkPoint 4 5 None)
    [mkPoint 2 3 None; mkPoint 3 4 (Some EmptyString)] time None.

Definition routes_host (key env_key : option string) (w : Env) : Tools.Host Env :=
  Tools.mkHost key env_key w.

Definition places_host (key env_key : option string) (w : TextSearchService.Env)
  : Tools.Host TextSearchService.Env :=
  Tools.mkHost key env_key w.

(** A [fetch] that rejects with something that is not an [Error]. *)
Definition places_rejecting : TextSearchService.Env :=
  PlaceScenarios.answering (Rejected (JsValue "503")).

End MoreScenarios.

Module ToolVocabulary.
Import Tools.

(** The request a [places_text_search] call is expected to send with the
    key [key]: the caller's query, the result count brought into 1..20
    (5 when none is given) and the caller's language, ["en"] when that is
    absent or empty. *)
Definition expected_search_request (params : TextSearch.TextSearchParams)
  (key : string) : TextSearchService.SearchRequest :=
  {| TextSearchService.x_goog_api_key := key;
     TextSearchService.x_goog_fieldmask := TextSearchService.fieldMask;
     TextSearchService.textQuery := TextSearch.query params;
     TextSearchService.maxResultCount :=
       Z.max 1 (Z.min 20 (match TextSearch.maxResults params with
                          | Some m => m
                          | None => 5
                          end));
     TextSearchService.languageCode :=
       match TextSearch.languageCode params with
       | Some (String c r) => String c r
       | _ => "en"
       end |}.

(** The routing service a [routes_optimize] call is expected to run: the
    clock and the two backends of the host, with the key [key]. *)
Definition expected_route_service (w : RoutesService.Env) (key : string)
  : RoutesService.Env :=
  RoutesService.mkEnv key (RoutesService.now_iso w) (RoutesService.date_time w)
    (RoutesService.date_iso w) (RoutesService.routes_endpoint w)
    (RoutesService.directions_endpoint w).

(** What a [routes_optimize] call is expected to ask of that service: the
    caller's origin, the caller's destination, the caller's waypoints (none
    when the caller gave none), the caller's criterion and the caller's
    departure time. *)
Definition expected_route_params (params : RoutesOptimize.RoutesOptimizeParams)
  : RoutesService.OptimizeRouteParams :=
  RoutesService.mkParams
    (RoutesOptimize.origin params)
    (RoutesOptimize.destination params)
    (match RoutesOptimize.waypoints params with
     | Some stops => stops
     | None => []
     end)
    (RoutesOptimize.optimize_by params)
    (RoutesOptimize.departure_time params).

(** An error response of a tool: [isError] and one text. *)
Definition failure {R : Type} (text : string) : ToolResponse R :=
  {| isError := true; content := [Text text] |}.

(** A success response of a tool: the rendered result. *)
Definition success {R : Type} (result : R) : ToolResponse R :=
  {| isError := false; content := [JsonText result] |}.

End ToolVocabulary.

(* ------------------------------------------------------------------ *)
(** ** Strings, the duration pattern and [parseFloat] *)

Module StringFacts.

Lemma append_empty_r (s : string) : s ++ EmptyString = s.
Proof. induction s as [|c r IH]; simpl; [reflexivity | now rewrite IH]. Qed.

Lemma append_assoc (a b c : string) : (a ++ b) ++ c = a ++ (b ++ c).
Proof. induction a as [|x r IH]; simpl; [reflexivity | now rewrite IH]. Qed.

Lemma prefix_append (t s : string) : String.prefix t (t ++ s) = true.
Proof.
  induction t as [|c r IH]; simpl.
  - now destruct s.
  - destruct (ascii_dec c c) as [_|n]; [exact IH | now destruct n].
Qed.

Lemma prefix_split (t s : string) :
  String.prefix t s = true -> s = t ++ drop (String.length t) s.
Proof.
  revert s; induction t as [|c r IH]; intros s H; simpl in *.
  - reflexivity.
  - destruct s as [|c' s']; simpl in H; [discriminate|].
    destruct (ascii_dec c c') as [->|_]; [|discriminate].
    simpl. f_equal. now apply IH.
Qed.

Lemma drop_append (t s : string) : drop (String.length t) (t ++ s) = s.
Proof. induction t as [|c r IH]; simpl; [now destruct s | exact IH]. Qed.

Lemma includes_unfold (s t : string) :
  includes s t =
  String.prefix t s || match s with EmptyString => false | String _ r => includes r t end.
Proof. destruct s; reflexivity. Qed.

Lemma replace_unfold (s pat rep : string) :
  replace s pat rep =
  if String.prefix pat s then rep ++ drop (String.length pat) s
  else match s with
       | EmptyString => EmptyString
       | String c r => String c (replace r pat rep)
       end.
Proof. destruct s; reflexivity. Qed.

(** [includes] decides occurrence. *)
Lemma includes_spec (s t : string) : includes s t = true <-> occurs_in t s.
Proof.
  split.
  - induction s as [|c r IH]; simpl; intro H.
    + apply orb_true_iff in H as [H|H]; [|discriminate].
      exists EmptyString, (drop (String.length t) EmptyString). now apply prefix_split.
    + apply orb_true_iff in H as [H|H].
      * exists EmptyString, (drop (String.length t) (String c r)). now apply prefix_split.
      * destruct (IH H) as (pre & post & ->).
        now exists (String c pre), post.
  - intros (pre & post & ->).
    induction pre as [|c r IH]; simpl.
    + now rewrite includes_unfold, prefix_append.
    + rewrite IH. apply orb_true_r.
Qed.

Lemma includes_middle (a m b : string) : includes (a ++ m ++ b) m = true.
Proof. apply includes_spec. now exists a, b. Qed.

Lemma replace_prefix (t s rep : string) : replace (t ++ s) t rep = rep ++ s.
Proof.
  now rewrite replace_unfold, prefix_append, drop_append.
Qed.

(** *** The scan behind [/([0-9.]+)s/] *)

Lemma span_class_sound (s run rest : string) :
  span_class s = (run, rest) -> s = run ++ rest /\ all_chars in_class run = true.
Proof.
  revert run rest; induction s as [|c r IH]; simpl; intros run rest H.
  - now inversion H.
  - destruct (in_class c) eqn:Hc.
    + destruct (span_class r) as [run' rest'] eqn:E.
      inversion H; subst; clear H.
      destruct (IH _ _ eq_refl) as [-> Hall].
      simpl. now rewrite Hc, Hall.
    + now inversion H.
Qed.

Lemma span_class_run (run : string) (c : ascii) (rest : string) :
  all_chars in_class run = true -> in_class c = false ->
  span_class (run ++ String c rest) = (run, String c rest).
Proof.
  intros Hrun Hc; induction run as [|x r IH]; simpl in *.
  - now rewrite Hc.
  - apply andb_true_iff in Hrun as [Hx Hr].
    now rewrite Hx, (IH Hr).
Qed.

Lemma match_here_sound (s g : string) :
  match_here s = Some g ->
  exists post, s = g ++ String "s" post /\ g <> EmptyString /\ all_chars in_class g = true.
Proof.
  unfold match_here; intro H.
  destruct (span_class s) as [run rest] eqn:E.
  apply span_class_sound in E as [-> Hall].
  destruct run as [|c run]; [discriminate|].
  destruct rest as [|x post]; [discriminate|].
  destruct x as [[] [] [] [] [] [] [] []]; try discriminate.
  inversion H; subst. exists post. repeat split; [discriminate | exact Hall].
Qed.

Lemma regex_exec_sound (s g : string) :
  regex_exec s = Some g ->
  exists pre post,
    s = pre ++ g ++ String "s" post /\ g <> EmptyString /\ all_chars in_class g = true.
Proof.
  revert g; induction s as [|c r IH]; intros g H.
  - simpl in H. discriminate.
  - simpl in H. destruct (match_here (String c r)) as [g'|] eqn:E.
    + inversion H; subst. apply match_here_sound in E as (post & -> & Hg).
      now exists EmptyString, post.
    + destruct (IH _ H) as (pre & post & -> & Hg).
      now exists (String c pre), post.
Qed.

Lemma regex_exec_unfold (s : string) :
  regex_exec s =
  match match_here s with
  | Some g => Some g
  | None => match s with EmptyString => None | String _ r => regex_exec r end
  end.
Proof. destruct s; reflexivity. Qed.

(** A string that starts with a run of the class and an ['s'] matches at
    position 0, and the capture is the whole run. *)
Lemma regex_exec_run (run post : string) :
  run <> EmptyString -> all_chars in_class run = true ->
  regex_exec (run ++ String "s" post) = Some run.
Proof.
  intros Hne Hall.
  assert (match_here (run ++ String "s" post) = Some run) as Hm.
  { unfold match_here. rewrite span_class_run by (exact Hall || reflexivity).
    destruct run; [now destruct Hne | reflexivity]. }
  now rewrite regex_exec_unfold, Hm.
Qed.

End StringFacts.

(* ------------------------------------------------------------------ *)
(** ** Rounding to a double *)

Module DoubleFacts.

Lemma pow2_pos (k : Z) : 0 < pow2 k.
Proof. unfold pow2. apply Z.pow_pos_nonneg; lia. Qed.

Lemma pow2_of_nonneg (k : Z) : 0 <= k -> pow2 k = 2 ^ k.
Proof. intro H. unfold pow2. now rewrite Z.max_l by lia. Qed.

Lemma pow2_of_nonpos (k : Z) : k <= 0 -> pow2 k = 1.
Proof. intro H. unfold pow2. now rewrite Z.max_r by lia. Qed.

Lemma round_div_spec (a b : Z) :
  0 <= a -> 0 < b ->
  2 * a - b <= 2 * (round_div a b * b) <= 2 * a + b.
Proof.
  intros Ha Hb. unfold round_div.
  pose proof (Z.div_mod a b ltac:(lia)) as E.
  pose proof (Z.mod_pos_bound a b Hb) as R.
  destruct ((b <? 2 * (a mod b)) || ((b =? 2 * (a mod b)) && Z.odd (a / b))) eqn:T.
  - apply orb_true_iff in T. destruct T as [T|T].
    + apply Z.ltb_lt in T. nia.
    + apply andb_true_iff in T. destruct T as [T _]. apply Z.eqb_eq in T. nia.
  - apply orb_false_iff in T. destruct T as [T _]. apply Z.ltb_ge in T. nia.
Qed.

Lemma round_div_nonneg (a b : Z) : 0 <= a -> 0 < b -> 0 <= round_div a b.
Proof.
  intros Ha Hb. pose proof (round_div_spec a b Ha Hb). 
  assert (0 <= a / b) by (apply Z.div_pos; lia).
  unfold round_div. destruct (_ || _); lia.
Qed.

Lemma round_div_one (a : Z) : 0 <= a -> round_div a 1 = a.
Proof. intro Ha. pose proof (round_div_spec a 1 Ha ltac:(lia)). lia. Qed.

Lemma log2_bounds (n : Z) : 0 < n -> 2 ^ Z.log2 n <= n < 2 * 2 ^ Z.log2 n.
Proof.
  intro H. pose proof (Z.log2_spec n H) as S.
  rewrite Z.pow_succ_r in S by apply Z.log2_nonneg. exact S.
Qed.

Lemma reaches_below (n d : Z) :
  0 < n -> 0 < d -> reaches n d (Z.log2 n - Z.log2 d - 1).
Proof.
  intros Hn Hd. unfold reaches.
  pose proof (log2_bounds n Hn) as Bn. pose proof (log2_bounds d Hd) as Bd.
  pose proof (Z.log2_nonneg n) as Ln. pose proof (Z.log2_nonneg d) as Ld.
  set (ln := Z.log2 n) in *. set (ld := Z.log2 d) in *.
  destruct (Z.le_gt_cases 0 (ln - ld - 1)) as [C|C].
  - rewrite (pow2_of_nonneg _ C), pow2_of_nonpos by lia.
    assert (2 ^ ln = 2 * 2 ^ ld * 2 ^ (ln - ld - 1)) as E.
    { rewrite <- Z.pow_succ_r, <- Z.pow_add_r by lia. f_equal. lia. }
    assert (0 < 2 ^ (ln - ld - 1)) by (apply Z.pow_pos_nonneg; lia).
    nia.
  - rewrite (pow2_of_nonpos (ln - ld - 1)), pow2_of_nonneg by lia.
    assert (2 * 2 ^ ld = 2 ^ ln * 2 ^ (- (ln - ld - 1))) as E.
    { rewrite <- Z.pow_succ_r, <- Z.pow_add_r by lia. f_equal. lia. }
    assert (0 < 2 ^ (- (ln - ld - 1))) by (apply Z.pow_pos_nonneg; lia).
    nia.
Qed.

Lemma reaches_above (n d : Z) :
  0 < n -> 0 < d -> ~ reaches n d (Z.log2 n - Z.log2 d + 1).
Proof.
  intros Hn Hd. unfold reaches.
  pose proof (log2_bounds n Hn) as Bn. pose proof (log2_bounds d Hd) as Bd.
  pose proof (Z.log2_nonneg n) as Ln. pose proof (Z.log2_nonneg d) as Ld.
  set (ln := Z.log2 n) in *. set (ld := Z.log2 d) in *.
  destruct (Z.le_gt_cases 0 (ln - ld + 1)) as [C|C].
  - rewrite (pow2_of_nonneg _ C), pow2_of_nonpos by lia.
    assert (2 * 2 ^ ln = 2 ^ ld * 2 ^ (ln - ld + 1)) as E.
    { rewrite <- Z.pow_succ_r, <- Z.pow_add_r by lia. f_equal. lia. }
    assert (0 < 2 ^ (ln - ld + 1)) by (apply Z.pow_pos_nonneg; lia).
    nia.
  - rewrite (pow2_of_nonpos (ln - ld + 1)), pow2_of_nonneg by lia.
    assert (2 ^ ld = 2 * 2 ^ ln * 2 ^ (- (ln - ld + 1))) as E.
    { rewrite <- Z.pow_succ_r, <- Z.pow_add_r by lia. f_equal. lia. }
    assert (0 < 2 ^ (- (ln - ld + 1))) by (apply Z.pow_pos_nonneg; lia).
    nia.
Qed.

Lemma ilog2_ratio_spec (n d : Z) :
  0 < n -> 0 < d ->
  reaches n d (ilog2_ratio n d) /\ ~ reaches n d (ilog2_ratio n d + 1).
Proof.
  intros Hn Hd. unfold ilog2_ratio.
  destruct (d * pow2 (Z.log2 n - Z.log2 d) <=? n * pow2 (- (Z.log2 n - Z.log2 d))) eqn:T.
  - apply Z.leb_le in T. split; [exact T | now apply reaches_above].
  - apply Z.leb_gt in T. split; [now apply reaches_below|].
    replace (Z.log2 n - Z.log2 d - 1 + 1) with (Z.log2 n - Z.log2 d) by lia.
    unfold reaches. lia.
Qed.

Lemma ratio_exponent_lt (n d k : Z) :
  0 < n -> 0 < d -> 0 <= k -> n < 2 ^ k * d -> ilog2_ratio n d < k.
Proof.
  intros Hn Hd Hk Hlt.
  destruct (ilog2_ratio_spec n d Hn Hd) as [R _]. unfold reaches in R.
  destruct (Z.lt_ge_cases (ilog2_ratio n d) k) as [C|C]; [exact C | exfalso].
  rewrite pow2_of_nonneg, pow2_of_nonpos in R by lia.
  assert (2 ^ k <= 2 ^ ilog2_ratio n d) by (apply Z.pow_le_mono_r; lia).
  nia.
Qed.

Lemma pow_split (a b : Z) : 0 <= a -> 0 <= b -> 2 ^ (a + b) = 2 ^ a * 2 ^ b.
Proof. intros. now apply Z.pow_add_r. Qed.

(** With [x] the exponent [to_double] gives the last bit, the scaled
    numerator stays below 2^53 times the denominator. *)
Lemma mantissa_bound (n d x : Z) :
  0 < n -> 0 < d -> x = Z.max (ilog2_ratio n d - 52) (-1074) -> x <= 0 ->
  n * 2 ^ (- x) < d * 2 ^ 53.
Proof.
  intros Hn Hd Ex Hx.
  destruct (ilog2_ratio_spec n d Hn Hd) as [_ R]. unfold reaches in R.
  apply Z.nle_gt in R.
  set (k := ilog2_ratio n d + 1) in *.
  assert (- x <= 53 - k) as Hs by (subst k; lia).
  assert (0 < 2 ^ (- x)) as Ps by (apply Z.pow_pos_nonneg; lia).
  destruct (Z.lt_ge_cases 0 k) as [C|C].
  - rewrite pow2_of_nonpos, pow2_of_nonneg in R by lia.
    assert (2 ^ k * 2 ^ (- x) <= 2 ^ 53) as E.
    { rewrite <- pow_split by lia. apply Z.pow_le_mono_r; lia. }
    assert (n * 2 ^ (- x) < d * 2 ^ k * 2 ^ (- x)) by nia.
    nia.
  - rewrite pow2_of_nonneg, pow2_of_nonpos in R by lia.
    destruct (Z.lt_ge_cases (- x + k) 0) as [D|D].
    + assert (2 ^ (- x) <= 2 ^ (- k)) by (apply Z.pow_le_mono_r; lia).
      assert (1 <= 2 ^ 53) by lia. nia.
    + assert (2 ^ (- x) = 2 ^ (- k) * 2 ^ (- x + k)) as E.
      { rewrite <- pow_split by lia. f_equal. lia. }
      assert (2 ^ (- x + k) <= 2 ^ 53) by (apply Z.pow_le_mono_r; lia).
      assert (0 < 2 ^ (- x + k)) by (apply Z.pow_pos_nonneg; lia).
      rewrite E. nia.
Qed.

(** Above the subnormal range the scale exceeds the denominator. *)
Lemma scale_exceeds (n d x : Z) :
  0 < n -> 0 < d -> x = Z.max (ilog2_ratio n d - 52) (-1074) -> n < 2 ^ 52 ->
  x = -1074 \/ d < 2 ^ (- x).
Proof.
  intros Hn Hd Ex Hlt.
  destruct (Z.le_gt_cases (ilog2_ratio n d - 52) (-1074)) as [C|C];
    [left; lia | right].
  assert (x = ilog2_ratio n d - 52) as Ex' by lia. clear Ex. subst x.
  destruct (ilog2_ratio_spec n d Hn Hd) as [R _]. unfold reaches in R.
  pose proof (ratio_exponent_lt n d 52 Hn Hd ltac:(lia) ltac:(nia)) as He.
  set (e := ilog2_ratio n d) in *.
  destruct (Z.le_gt_cases 0 e) as [D|D].
  - rewrite pow2_of_nonneg, pow2_of_nonpos in R by lia.
    assert (2 ^ 52 = 2 ^ e * 2 ^ (- (e - 52))) as E.
    { rewrite <- pow_split by lia. f_equal. lia. }
    assert (0 < 2 ^ e) by (apply Z.pow_pos_nonneg; lia).
    nia.
  - rewrite pow2_of_nonpos, pow2_of_nonneg in R by lia.
    assert (2 ^ (- (e - 52)) = 2 ^ 52 * 2 ^ (- e)) as E.
    { rewrite <- pow_split by lia. f_equal. lia. }
    assert (0 < 2 ^ (- e)) by (apply Z.pow_pos_nonneg; lia).
    nia.
Qed.

(** [Math.round] of the double nearest to [n/d] is [n/d] rounded half up,
    as long as the numerator stays below 2^52. *)
Lemma round_to_double (n d : Z) :
  0 <= n < 2 ^ 52 -> 0 < d ->
  Math_round (to_double n d) = JNum ((2 * n + d) / (2 * d)).
Proof.
  intros [Hn Hlt] Hd. unfold to_double.
  destruct (n <=? 0) eqn:Z0.
  - apply Z.leb_le in Z0. assert (n = 0) as -> by lia.
    cbn [Math_round]. f_equal. change (nearest_integer 0 0) with 0.
    symmetry. apply Z.div_small. lia.
  - apply Z.leb_gt in Z0.
    assert (n < 2 ^ 52 * d) as Hnd.
    { assert (2 ^ 52 * 1 <= 2 ^ 52 * d) by (apply Z.mul_le_mono_nonneg_l; lia). lia. }
    pose proof (ratio_exponent_lt n d 52 Z0 Hd ltac:(lia) Hnd) as He.
    set (x := Z.max (ilog2_ratio n d - 52) (-1074)).
    assert (x <= -1) as Hx by (subst x; lia).
    assert (-1074 <= x) as Hx' by (subst x; lia).
    pose proof (mantissa_bound n d x Z0 Hd eq_refl ltac:(lia)) as Hm.
    pose proof (scale_exceeds n d x Z0 Hd eq_refl Hlt) as Hg.
    rewrite (pow2_of_nonneg (- x)), (pow2_of_nonpos x) by lia.
    rewrite !Z.mul_1_r.
    assert (0 < 2 ^ (- x)) as Ps by (apply Z.pow_pos_nonneg; lia).
    pose proof (round_div_spec (n * 2 ^ (- x)) d ltac:(nia) Hd) as Hr.
    set (m := round_div (n * 2 ^ (- x)) d) in *.
    assert (m <= 2 ^ 53) as Hm53.
    { destruct (Z.le_gt_cases m (2 ^ 53)) as [C|C]; [exact C | exfalso].
      assert ((2 ^ 53 + 1) * d <= m * d) by (apply Z.mul_le_mono_nonneg_r; lia).
      lia. }
    destruct (2 ^ 1024 <=? m) eqn:Ov; [apply Z.leb_le in Ov; lia|].
    cbn [Math_round]. f_equal. unfold nearest_integer.
    destruct (0 <=? x) eqn:X0; [apply Z.leb_le in X0; lia|].
    assert (2 ^ (- x) = 2 * 2 ^ (- x - 1)) as E.
    { rewrite <- Z.pow_succ_r by lia. f_equal. lia. }
    set (P := 2 ^ (- x - 1)) in *.
    assert (0 < P) as PP by (subst P; apply Z.pow_pos_nonneg; lia).
    rewrite E in *.
    set (z := (2 * n + d) / (2 * d)).
    pose proof (Z.div_mod (2 * n + d) (2 * d) ltac:(lia)) as Dz.
    pose proof (Z.mod_pos_bound (2 * n + d) (2 * d) ltac:(lia)) as Rz.
    fold z in Dz.
    assert (0 <= z) as Hz by (subst z; apply Z.div_pos; lia).
    symmetry. apply (Z.div_unique _ _ _ (m + P - 2 * P * z)); [|lia].
    left.
    assert (0 <= P * z) as Pz by (apply Z.mul_nonneg_nonneg; lia).
    split.
    + assert ((2 * z - 1) * d <= 2 * n) as L by lia.
      assert (P * ((2 * z - 1) * d) <= P * (2 * n)) as L'
        by (apply Z.mul_le_mono_nonneg_l; lia).
      destruct (Z.le_gt_cases (P * (2 * z - 1)) m) as [C|C]; [lia | exfalso].
      assert (m * d <= (P * (2 * z - 1) - 1) * d)
        by (apply Z.mul_le_mono_nonneg_r; lia).
      lia.
    + assert (2 * n + 1 <= (2 * z + 1) * d) as U by lia.
      assert (P * (2 * n + 1) <= P * ((2 * z + 1) * d)) as U'
        by (apply Z.mul_le_mono_nonneg_l; lia).
      destruct (Z.le_gt_cases (P * (2 * z + 1)) m) as [C|C]; [exfalso | lia].
      destruct Hg as [Hg|Hg].
      * assert (2 ^ 54 < P) as Big.
        { subst P. rewrite Hg. apply Z.pow_lt_mono_r; lia. }
        lia.
      * assert (P * (2 * z + 1) * d <= m * d)
          by (apply Z.mul_le_mono_nonneg_r; lia).
        lia.
Qed.

(** An integer below 2^53 is a double, and rounding leaves it alone. *)
Lemma round_integer_double (n : Z) :
  0 <= n < 2 ^ 53 -> Math_round (to_double n 1) = JNum n.
Proof.
  intros [Hn Hlt]. unfold to_double.
  destruct (n <=? 0) eqn:Z0.
  - apply Z.leb_le in Z0. assert (n = 0) as -> by lia. reflexivity.
  - apply Z.leb_gt in Z0.
    pose proof (ratio_exponent_lt n 1 53 Z0 ltac:(lia) ltac:(lia) ltac:(lia)) as He.
    set (x := Z.max (ilog2_ratio n 1 - 52) (-1074)).
    assert (x <= 0) as Hx by (subst x; lia).
    pose proof (mantissa_bound n 1 x Z0 ltac:(lia) eq_refl ltac:(lia)) as Hm.
    rewrite (pow2_of_nonneg (- x)), (pow2_of_nonpos x) by lia.
    rewrite !Z.mul_1_r.
    assert (0 < 2 ^ (- x)) as Ps by (apply Z.pow_pos_nonneg; lia).
    rewrite round_div_one by nia.
    destruct (2 ^ 1024 <=? n * 2 ^ (- x)) eqn:Ov; [apply Z.leb_le in Ov; lia|].
    cbn [Math_round]. f_equal. unfold nearest_integer.
    destruct (0 <=? x) eqn:X0.
    + apply Z.leb_le in X0. assert (x = 0) as -> by lia. cbn. lia.
    + apply Z.leb_gt in X0.
      assert (2 ^ (- x) = 2 * 2 ^ (- x - 1)) as E.
      { rewrite <- Z.pow_succ_r by lia. f_equal. lia. }
      set (P := 2 ^ (- x - 1)) in *.
      assert (0 < P) as PP by (subst P; apply Z.pow_pos_nonneg; lia).
      rewrite E in *.
      symmetry. apply (Z.div_unique _ _ _ P); lia.
Qed.

Lemma nearest_integer_nonneg (m e : Z) : 0 <= m -> 0 <= nearest_integer m e.
Proof.
  intro H. unfold nearest_integer. destruct (Z.leb_spec 0 e) as [C|C].
  - apply Z.mul_nonneg_nonneg; [exact H | apply Z.pow_nonneg; lia].
  - assert (0 <= 2 ^ (- e - 1)) by (apply Z.pow_nonneg; lia).
    assert (0 < 2 ^ (- e)) by (apply Z.pow_pos_nonneg; lia).
    apply Z.div_pos; lia.
Qed.

(** [Math.round] of a double read from a numeral is never negative. *)
Lemma round_nonneg (n d : Z) (r : jsnum) :
  0 < d -> Math_round (to_double n d) = r ->
  match r with
  | JNum z => 0 <= z
  | JInfinity negative => negative = false
  | JNaN => False
  end.
Proof.
  intros Hd <-. unfold to_double.
  destruct (n <=? 0) eqn:Z0; [cbn; lia|]. apply Z.leb_gt in Z0.
  set (x := Z.max (ilog2_ratio n d - 52) (-1074)).
  pose proof (pow2_pos x) as Px. pose proof (pow2_pos (- x)) as Px'.
  destruct (2 ^ 1024 <=? _); [reflexivity|].
  cbn [Math_round]. apply nearest_integer_nonneg, round_div_nonneg; nia.
Qed.



Lemma number_text_small (z : Z) : Z.abs z < 2 ^ 53 -> number_text z = string_of_Z z.
Proof.
  intro H. unfold number_text.
  destruct (Z.ltb_spec (Z.abs z) (2 ^ 53)) as [_|C]; [reflexivity | lia].
Qed.

End DoubleFacts.

Module NumeralFacts.
Import StringFacts DoubleFacts.

#[local] Arguments digit_char : simpl never.
#[local] Arguments is_digit : simpl never.
#[local] Arguments digit_of : simpl never.
#[local] Arguments is_dot : simpl never.
#[local] Arguments in_class : simpl never.

Lemma regex_exec_complete (s : string) :
  has_duration_literal s -> exists g, regex_exec s = Some g.
Proof.
  intros (pre & run & post & -> & Hne & Hall).
  induction pre as [|c r IH].
  - exists run. now apply regex_exec_run.
  - rewrite regex_exec_unfold.
    destruct (match_here (String c r ++ run ++ String "s" post)) as [g|].
    + now exists g.
    + exact IH.
Qed.

Lemma regex_exec_none (s : string) :
  regex_exec s = None <-> ~ has_duration_literal s.
Proof.
  split.
  - intros H L. destruct (regex_exec_complete s L) as [g Hg]. congruence.
  - intro H. destruct (regex_exec s) as [g|] eqn:E; [|reflexivity].
    destruct H. destruct (regex_exec_sound _ _ E) as (pre & post & Hs & Hg).
    now exists pre, g, post.
Qed.

Lemma digit_char_facts (d : nat) :
  (d < 10)%nat ->
  is_digit (digit_char d) = true /\ digit_of (digit_char d) = Z.of_nat d.
Proof.
  intro H.
  do 10 (destruct d as [|d]; [split; reflexivity|]).
  lia.
Qed.

Lemma all_chars_app (p : ascii -> bool) (a b : string) :
  all_chars p (a ++ b) = all_chars p a && all_chars p b.
Proof.
  induction a as [|c r IH]; simpl; [reflexivity|].
  now rewrite IH, andb_assoc.
Qed.

Lemma numeral_in_class (ds : list nat) :
  are_digits ds -> all_chars in_class (numeral ds) = true.
Proof.
  induction 1 as [|d r Hd _ IH]; cbn [all_chars numeral]; [reflexivity|].
  unfold in_class. destruct (digit_char_facts d Hd) as [-> _]. exact IH.
Qed.

Lemma take_digits_numeral (ds : list nat) (c : ascii) (rest : string) :
  are_digits ds -> is_digit c = false ->
  take_digits (numeral ds ++ String c rest) = (map Z.of_nat ds, String c rest).
Proof.
  intros Hds Hc; induction Hds as [|d r Hd _ IH];
    cbn [numeral append take_digits].
  - now rewrite Hc.
  - destruct (digit_char_facts d Hd) as [-> ->]. now rewrite IH.
Qed.

Lemma take_digits_numeral_end (ds : list nat) :
  are_digits ds -> take_digits (numeral ds) = (map Z.of_nat ds, EmptyString).
Proof.
  induction 1 as [|d r Hd _ IH]; cbn [numeral take_digits map]; [reflexivity|].
  destruct (digit_char_facts d Hd) as [-> ->]. now rewrite IH.
Qed.

Lemma fold_digits (ds : list nat) (acc : nat) :
  fold_left (fun a d => 10 * a + d) (map Z.of_nat ds) (Z.of_nat acc)
  = Z.of_nat (positional acc ds).
Proof.
  revert acc; induction ds as [|d r IH]; intro acc;
    cbn [map fold_left positional]; [reflexivity|].
  replace (10 * Z.of_nat acc + Z.of_nat d) with (Z.of_nat (10 * acc + d)) by lia.
  apply IH.
Qed.

Lemma digits_value_numeral (ds : list nat) :
  digits_value (map Z.of_nat ds) = Z.of_nat (positional 0 ds).
Proof. exact (fold_digits ds 0). Qed.

Lemma positional_app (a b : list nat) (acc : nat) :
  positional acc (a ++ b)%list = positional (positional acc a) b.
Proof.
  revert acc; induction a as [|d r IH]; intro acc; cbn [app positional];
    [reflexivity | apply IH].
Qed.

Lemma positional_shift (ds : list nat) (acc : nat) :
  Z.of_nat (positional acc ds)
  = Z.of_nat acc * 10 ^ Z.of_nat (length ds) + Z.of_nat (positional 0 ds).
Proof.
  revert acc; induction ds as [|d r IH]; intro acc; cbn [positional length].
  - change (Z.of_nat 0) with 0. rewrite Z.pow_0_r. lia.
  - rewrite IH, (IH (10 * 0 + d)%nat).
    rewrite Nat2Z.inj_succ, Z.pow_succ_r by lia.
    rewrite !Nat2Z.inj_add, !Nat2Z.inj_mul. change (Z.of_nat 10) with 10.
    change (Z.of_nat 0) with 0. ring.
Qed.

(** The digits of both parts of a numeral, read as one whole number. *)
Lemma positional_numeral (ip fp : list nat) :
  Z.of_nat (positional 0 (ip ++ fp)%list)
  = Z.of_nat (positional 0 ip) * 10 ^ Z.of_nat (length fp)
    + Z.of_nat (positional 0 fp).
Proof. now rewrite positional_app, positional_shift. Qed.

Lemma parseFloat_integer (ip : list nat) :
  are_digits ip -> ip <> [] ->
  parseFloat (numeral ip) = to_double (Z.of_nat (positional 0 ip)) 1.
Proof.
  intros Hd Hne. unfold parseFloat.
  rewrite (take_digits_numeral_end ip Hd), digits_value_numeral.
  destruct ip; [now destruct Hne | reflexivity].
Qed.

Lemma parseFloat_decimal (ip fp : list nat) :
  are_digits ip -> are_digits fp -> ip <> [] ->
  parseFloat (numeral ip ++ "." ++ numeral fp)
  = to_double (Z.of_nat (positional 0 (ip ++ fp)%list)) (10 ^ Z.of_nat (length fp)).
Proof.
  intros Hi Hf Hne. unfold parseFloat.
  change ("." ++ numeral fp) with (String "." (numeral fp)).
  rewrite (take_digits_numeral ip "." (numeral fp) Hi eq_refl).
  rewrite (take_digits_numeral_end fp Hf).
  unfold decimal. rewrite <- map_app, digits_value_numeral, length_map.
  destruct ip; [now destruct Hne | reflexivity].
Qed.

(** An integer numeral below 2^53 is read exactly. *)
Lemma Math_round_integer (ip : list nat) :
  are_digits ip -> ip <> [] -> Z.of_nat (positional 0 ip) < 2 ^ 53 ->
  Math_round (parseFloat (numeral ip)) = JNum (Z.of_nat (positional 0 ip)).
Proof.
  intros Hd Hne Hlt. rewrite parseFloat_integer by assumption.
  apply round_integer_double. lia.
Qed.

(** The fraction [(a * d + b) / d], rounded half up in the integers, is
    the rational [a + b/d] rounded to the nearest integer, a tie going up. *)
Lemma rounds_to_fraction (a b d : Z) :
  0 < d -> 0 <= a * d + b ->
  rounds_to (inject_Z a + inject_Z b / inject_Z d)%Q ((2 * (a * d + b) + d) / (2 * d)).
Proof.
  intros Hd Hn.
  pose proof (Z.div_mod (2 * (a * d + b) + d) (2 * d) ltac:(lia)) as Dz.
  pose proof (Z.mod_pos_bound (2 * (a * d + b) + d) (2 * d) ltac:(lia)) as Rz.
  set (z := (2 * (a * d + b) + d) / (2 * d)) in *. clearbody z.
  assert (2 * (z * d) <= 2 * (a * d) + 2 * b + d) as L by lia.
  assert (2 * (a * d) + 2 * b + 1 <= 2 * (z * d) + d) as U by lia.
  assert (0 < inject_Z d)%Q as Dq.
  { change 0%Q with (inject_Z 0). rewrite <- Zlt_Qlt. exact Hd. }
  set (q := (inject_Z b / inject_Z d)%Q).
  assert (q * inject_Z d == inject_Z b)%Q as Eq.
  { unfold q. rewrite Qmult_comm. apply Qmult_div_r. intro E. rewrite E in Dq.
    now apply Qlt_irrefl in Dq. }
  clearbody q.
  rewrite Zle_Qle in L, U.
  repeat (rewrite inject_Z_plus in L || rewrite inject_Z_mult in L).
  repeat (rewrite inject_Z_plus in U || rewrite inject_Z_mult in U).
  change (inject_Z 2) with 2%Q in *. change (inject_Z 1) with 1%Q in *.
  set (zd := (inject_Z z * inject_Z d)%Q) in *.
  set (ad := (inject_Z a * inject_Z d)%Q) in *.
  unfold rounds_to. split.
  - apply (Qmult_le_r _ _ (inject_Z d) Dq).
    setoid_replace ((inject_Z z - (1 # 2)) * inject_Z d)%Q
      with (zd - (1 # 2) * inject_Z d)%Q by (unfold zd; ring).
    setoid_replace ((inject_Z a + q) * inject_Z d)%Q
      with (ad + q * inject_Z d)%Q by (unfold ad; ring).
    rewrite Eq. lra.
  - apply (Qmult_lt_r _ _ (inject_Z d) Dq).
    setoid_replace ((inject_Z z + (1 # 2)) * inject_Z d)%Q
      with (zd + (1 # 2) * inject_Z d)%Q by (unfold zd; ring).
    setoid_replace ((inject_Z a + q) * inject_Z d)%Q
      with (ad + q * inject_Z d)%Q by (unfold ad; ring).
    rewrite Eq. lra.
Qed.

(** A numeral denotes less than the power of ten of its length. *)
Lemma positional_bound (ds : list nat) :
  are_digits ds -> Z.of_nat (positional 0 ds) < 10 ^ Z.of_nat (length ds).
Proof.
  intro H. induction ds as [|d r IH] using rev_ind.
  - cbn. lia.
  - apply Forall_app in H as [Hr Hd]. inversion Hd as [|x l Hx _]; subst.
    rewrite positional_app. cbn [positional].
    rewrite length_app. cbn [length].
    rewrite !Nat2Z.inj_add, Nat2Z.inj_mul, Z.pow_add_r by lia.
    change (10 ^ Z.of_nat 1) with 10. change (Z.of_nat 10) with 10.
    specialize (IH Hr). lia.
Qed.

(** A numeral whose digits, read as one whole number, stay below 2^52 is
    rounded like the exact value it denotes. *)
Lemma Math_round_nearest (ip fp : list nat) :
  are_digits ip -> are_digits fp -> ip <> [] ->
  Z.of_nat (positional 0 (ip ++ fp)%list) < 2 ^ 52 ->
  exists z,
    Math_round (parseFloat (numeral ip ++ "." ++ numeral fp)) = JNum z /\
    rounds_to (numeral_value ip fp) z.
Proof.
  intros Hi Hf Hne Hlt.
  assert (0 < 10 ^ Z.of_nat (length fp)) as Hd by (apply Z.pow_pos_nonneg; lia).
  rewrite parseFloat_decimal by assumption.
  rewrite round_to_double by lia.
  eexists. split; [reflexivity|].
  rewrite positional_numeral. unfold numeral_value.
  apply rounds_to_fraction; [exact Hd|]. rewrite <- positional_numeral. lia.
Qed.

End NumeralFacts.

(* ------------------------------------------------------------------ *)
(** ** Leg and point assembly *)

Module AssemblyFacts.
Import RoutesService RoutesVocabulary.

Lemma index_of_nat {A : Type} (arr : list A) (i : nat) :
  index arr (Z.of_nat i) = nth_error arr i.
Proof.
  unfold index. destruct (Z.ltb_spec (Z.of_nat i) 0) as [H|_]; [lia|].
  now rewrite Nat2Z.id.
Qed.

Lemma point_at_of_nat (pts : list (option RoutePointInput)) (i : nat) :
  point_at pts (Z.of_nat i) =
  match nth_error pts i with Some p => p | None => None end.
Proof. unfold point_at. now rewrite index_of_nat. Qed.

Lemma point_at_last (o : option RoutePointInput) (mids : list (option RoutePointInput))
  (d : RoutePointInput) :
  point_at (o :: mids ++ [Some d]) (Z.of_nat (length (o :: mids ++ [Some d])) - 1)
  = Some d.
Proof.
  replace (Z.of_nat (length (o :: mids ++ [Some d])) - 1)
    with (Z.of_nat (S (length mids))).
  - rewrite point_at_of_nat. cbn [nth_error].
    rewrite nth_error_app2 by lia. now rewrite Nat.sub_diag.
  - cbn [length]. rewrite length_app. cbn [length]. lia.
Qed.

Lemma map_indexed_length {A B : Type} (f : A -> Z -> Exc B) (l : list A) (i : Z)
  (ys : list B) :
  map_indexed f l i = inr ys -> length ys = length l.
Proof.
  revert i ys; induction l as [|x r IH]; intros i ys H; simpl in H.
  - now inversion H.
  - destruct (f x i) as [t|y]; simpl in H; [discriminate|].
    destruct (map_indexed f r (i + 1)) as [t|ys'] eqn:E; simpl in H; [discriminate|].
    inversion H; subst. simpl. f_equal. exact (IH _ _ E).
Qed.

Lemma map_indexed_nth {A B : Type} (f : A -> Z -> Exc B) (l : list A) (i : Z)
  (ys : list B) :
  map_indexed f l i = inr ys ->
  forall k x, nth_error l k = Some x ->
  exists y, nth_error ys k = Some y /\ f x (i + Z.of_nat k) = inr y.
Proof.
  revert i ys; induction l as [|x r IH]; intros i ys H k x' Hk.
  - now destruct k.
  - simpl in H. destruct (f x i) as [t|y] eqn:Ef; simpl in H; [discriminate|].
    destruct (map_indexed f r (i + 1)) as [t|ys'] eqn:E; simpl in H; [discriminate|].
    inversion H; subst. destruct k as [|k]; simpl in Hk.
    + inversion Hk; subst. exists y. split; [reflexivity|].
      now rewrite Z.add_0_r.
    + destruct (IH _ _ E k x' Hk) as (y' & Hy & Hf).
      exists y'. split; [exact Hy|].
      now replace (i + Z.of_nat (S k)) with (i + 1 + Z.of_nat k) by lia.
Qed.

(** A map whose function never throws never throws. *)
Lemma map_indexed_total {A B : Type} (f : A -> Z -> Exc B) (l : list A) (i : Z) :
  (forall x j, exists y, f x j = inr y) ->
  exists ys, map_indexed f l i = inr ys.
Proof.
  intro Hf. revert i; induction l as [|x r IH]; intro i; simpl.
  - now exists [].
  - destruct (Hf x i) as [y ->]. destruct (IH (i + 1)) as [ys ->].
    now exists (y :: ys).
Qed.

(** With a defined first and last point every leg is assembled: the [||]
    fallbacks of [mapLegs] always find a point. *)
Lemma mapLeg_defined (o d : RoutePointInput) (mids : list (option RoutePointInput))
  (leg : ApiLeg) (j : Z) :
  exists out, mapLeg (Some o :: mids ++ [Some d]) leg j = inr out.
Proof.
  unfold mapLeg. rewrite point_at_last.
  change (point_at (Some o :: mids ++ [Some d]) 0) with (Some o).
  destruct (point_at (Some o :: mids ++ [Some d]) j) as [s|];
    destruct (point_at (Some o :: mids ++ [Some d]) (j + 1)) as [e|];
    simpl; eexists; reflexivity.
Qed.

Lemma mapLegs_defined (legsFromApi : list ApiLeg) (o d : RoutePointInput)
  (mids : list (option RoutePointInput)) :
  exists legs,
    mapLegs legsFromApi (Some o :: mids ++ [Some d]) = inr legs /\
    length legs = length legsFromApi.
Proof.
  destruct (map_indexed_total (mapLeg (Some o :: mids ++ [Some d])) legsFromApi 0
              (mapLeg_defined o d mids)) as [legs H].
  exists legs. split; [exact H|]. exact (map_indexed_length _ _ _ _ H).
Qed.

Lemma normalize_from (total idx : Z) (pts : list RoutePointInput) :
  map_indexed (fun point i => normalizePoint point i total) (map Some pts) idx
  = inr (labelFrom total idx pts).
Proof.
  revert idx; induction pts as [|p r IH]; intro idx; simpl; [reflexivity|].
  now rewrite IH.
Qed.

Lemma normalizeAll_defined (pts : list RoutePointInput) :
  normalizeAll (map Some pts) = inr (labelled pts).
Proof.
  unfold normalizeAll, labelled. rewrite length_map. apply normalize_from.
Qed.

Lemma normalizeAll_length (pts : list (option RoutePointInput))
  (out : list OrderedPoint) :
  normalizeAll pts = inr out -> length out = length pts.
Proof. apply map_indexed_length. Qed.

Lemma labelFrom_length (total idx : Z) (pts : list RoutePointInput) :
  length (labelFrom total idx pts) = length pts.
Proof.
  revert idx; induction pts as [|p r IH]; intro idx; simpl; [reflexivity|].
  now rewrite IH.
Qed.

Lemma labelFrom_coordinates (total idx : Z) (pts : list RoutePointInput) :
  map (fun p => (o_lat p, o_lng p)) (labelFrom total idx pts)
  = map (fun p => (lat p, lng p)) pts.
Proof.
  revert idx; induction pts as [|p r IH]; intro idx; simpl; [reflexivity|].
  now rewrite IH.
Qed.

Lemma selects_map (wps : list RoutePointInput) (order : list Z)
  (pts : list RoutePointInput) :
  selects wps order pts -> map (fun idx => index wps idx) order = map Some pts.
Proof.
  induction 1 as [|idx pt order pts [Hge Hnth] _ IH]; simpl; [reflexivity|].
  rewrite IH. f_equal. unfold index.
  destruct (Z.ltb_spec idx 0) as [Hlt|_]; [lia | exact Hnth].
Qed.

Lemma orderPoints_selects (params : OptimizeRouteParams) (order : list Z)
  (pts : list RoutePointInput) :
  selects (waypoints params) order pts ->
  orderPoints params order
  = map Some (origin params :: pts ++ [destination params]).
Proof.
  intro H. unfold orderPoints. rewrite (selects_map _ _ _ H).
  cbn [map]. now rewrite map_app.
Qed.

Lemma selects_seq (pre wps : list RoutePointInput) :
  selects (pre ++ wps) (map Z.of_nat (seq (length pre) (length wps))) wps.
Proof.
  revert pre; induction wps as [|w r IH]; intro pre; simpl.
  - constructor.
  - constructor.
    + split; [lia|]. rewrite Nat2Z.id, nth_error_app2 by lia.
      now rewrite Nat.sub_diag.
    + specialize (IH (pre ++ [w])%list).
      rewrite <- app_assoc, length_app in IH. simpl in IH.
      now replace (length pre + 1)%nat with (S (length pre)) in IH by lia.
Qed.

(** The identity index sequence picks the waypoints as they were given. *)
Lemma selects_identity (wps : list RoutePointInput) :
  selects wps (indices wps) wps.
Proof. exact (selects_seq [] wps). Qed.

Lemma selects_functional (wps : list RoutePointInput) (order : list Z)
  (pts pts' : list RoutePointInput) :
  selects wps order pts -> selects wps order pts' -> pts = pts'.
Proof.
  intro H; revert pts'.
  induction H as [|idx pt order pts [_ Hnth] _ IH]; intros pts' H'.
  - now inversion H'.
  - inversion H' as [|idx' pt' order' rest [_ Hnth'] Hrest]; subst.
    f_equal; [congruence | now apply IH].
Qed.

Lemma index_Some {A : Type} (arr : list A) (idx : Z) (x : A) :
  index arr idx = Some x -> 0 <= idx /\ nth_error arr (Z.to_nat idx) = Some x.
Proof.
  unfold index. destruct (Z.ltb_spec idx 0) as [_|H]; [discriminate|].
  intro Hnth. split; [exact H | exact Hnth].
Qed.

(** Points that all normalise hold no [undefined] slot. *)
Lemma normalize_defined_inv (total idx : Z) (slots : list (option RoutePointInput))
  (out : list OrderedPoint) :
  map_indexed (fun point i => normalizePoint point i total) slots idx = inr out ->
  exists pts, slots = map Some pts.
Proof.
  revert idx out; induction slots as [|slot r IH]; intros idx out H.
  - now exists [].
  - simpl in H. destruct slot as [p|]; simpl in H; [|discriminate].
    destruct (map_indexed _ r (idx + 1)) as [t|out'] eqn:E; simpl in H;
      [discriminate|].
    destruct (IH _ _ E) as [pts ->]. now exists (p :: pts).
Qed.

Lemma selects_of_map (wps : list RoutePointInput) (d : RoutePointInput)
  (order : list Z) (rest : list RoutePointInput) :
  (map (fun idx => index wps idx) order ++ [Some d])%list = map Some rest ->
  exists pts, rest = (pts ++ [d])%list /\ selects wps order pts.
Proof.
  revert rest; induction order as [|idx order IH]; intros rest H.
  - destruct rest as [|x [|y r]]; simpl in H; try discriminate.
    inversion H; subst. exists []. split; [reflexivity | constructor].
  - destruct rest as [|x rest]; simpl in H; [discriminate|].
    inversion H as [[Hidx Hrest]].
    destruct (IH _ Hrest) as (pts & -> & Hsel).
    exists (x :: pts). split; [reflexivity|].
    constructor; [now apply index_Some | exact Hsel].
Qed.

(** When the ordered points normalise, every index of the sequence was
    inside the waypoint list, and the result is the labelled sequence. *)
Lemma normalizeAll_orderPoints_inv (params : OptimizeRouteParams) (order : list Z)
  (out : list OrderedPoint) :
  normalizeAll (orderPoints params order) = inr out ->
  exists pts,
    selects (waypoints params) order pts /\
    out = labelled (origin params :: pts ++ [destination params]).
Proof.
  intro H. destruct (normalize_defined_inv _ _ _ _ H) as [all Hall].
  rewrite Hall, normalizeAll_defined in H. inversion H; subst out; clear H.
  unfold orderPoints in Hall. destruct all as [|o rest]; [discriminate|].
  simpl in Hall. inversion Hall as [[Ho Hrest]].
  destruct (selects_of_map _ _ _ _ Hrest) as (pts & -> & Hsel).
  now exists pts.
Qed.

Lemma orderPoints_length (params : OptimizeRouteParams) (order : list Z) :
  length (orderPoints params order) = (length order + 2)%nat.
Proof.
  unfold orderPoints. cbn [length]. rewrite length_app, length_map.
  cbn [length]. lia.
Qed.

End AssemblyFacts.

(* ------------------------------------------------------------------ *)
(** ** The two routing paths, run *)

Module RoutesFacts.
Import RoutesService RoutesVocabulary AssemblyFacts.

Lemma orderPoints_shape (params : OptimizeRouteParams) (order : list Z) :
  exists mids,
    orderPoints params order
    = Some (origin params) :: mids ++ [Some (destination params)].
Proof. eexists. reflexivity. Qed.

Lemma mapLegs_ordered (legsFromApi : list ApiLeg) (params : OptimizeRouteParams)
  (order : list Z) :
  exists legs,
    mapLegs legsFromApi (orderPoints params order) = inr legs /\
    length legs = length legsFromApi.
Proof. apply mapLegs_defined. Qed.

(** Each path makes exactly one network call and logs nothing itself. *)
Lemma preferred_trace (env : Env) (params : OptimizeRouteParams) :
  trace (computeRoutesPreferred env params) = [FetchRoutes (routesRequest env params)].
Proof.
  unfold computeRoutesPreferred, fetch_routes.
  destruct (routes_endpoint env (routesRequest env params)) as [t|resp];
    [reflexivity|].
  destruct resp as [k st txt b]. destruct k; simpl.
  - destruct b as [t|[payload|]]; simpl; try reflexivity.
    destruct (routes payload) as [[|route rest]|]; simpl; try reflexivity.
    destruct (mapLegs _ _) as [t|legs]; simpl; [reflexivity|].
    destruct (normalizeAll _) as [t|pts]; reflexivity.
  - destruct b as [t|v]; reflexivity.
Qed.

Lemma fallback_trace (env : Env) (params : OptimizeRouteParams) :
  trace (computeDirectionsFallback env params)
  = [FetchDirections (directionsRequest env params)].
Proof.
  unfold computeDirectionsFallback, fetch_directions.
  destruct (directions_endpoint env (directionsRequest env params)) as [t|resp];
    [reflexivity|].
  destruct resp as [k st txt b]. destruct k; simpl; [|reflexivity].
  destruct b as [t|[data|]]; simpl; try reflexivity.
  destruct (match data_status data with Some s => (s =? "OK")%string | None => false end);
    simpl; [|reflexivity].
  destruct (data_routes data) as [[|route rest]|]; simpl; try reflexivity.
  destruct (mapLegs _ _) as [t|legs]; simpl; [reflexivity|].
  destruct (normalizeAll _) as [t|pts]; reflexivity.
Qed.

(** What a successful preferred path was given and what it returns. *)
Lemma preferred_inversion (env : Env) (params : OptimizeRouteParams)
  (r : OptimizeRouteResult) :
  outcome (computeRoutesPreferred env params) = inr r ->
  exists route,
    preferred_answers env params route /\
    mapLegs (legs_sent (route_legs route))
      (orderPoints params
         (order_in_use (waypoints params) (optimizedIntermediateWaypointIndex route)))
    = inr (legs r) /\
    normalizeAll
      (orderPoints params
         (order_in_use (waypoints params) (optimizedIntermediateWaypointIndex route)))
    = inr (ordered r) /\
    source r = routes_preferred.
Proof.
  unfold computeRoutesPreferred, fetch_routes, preferred_answers.
  destruct (routes_endpoint env (routesRequest env params)) as [t|resp] eqn:Eresp;
    [discriminate|].
  destruct resp as [k st txt b]. destruct k; simpl.
  - destruct b as [t|[payload|]]; simpl; try discriminate.
    destruct (routes payload) as [[|route rest]|] eqn:Er; simpl; try discriminate.
    destruct (mapLegs _ _) as [t|legs] eqn:El; simpl; [discriminate|].
    destruct (normalizeAll _) as [t|pts] eqn:En; simpl; [discriminate|].
    intro H; inversion H; subst; clear H. simpl.
    exists route. repeat split; try assumption.
    exists (mkResponse true st txt (JsonValue (Some payload))), payload, rest.
    repeat split; assumption.
  - destruct b as [t|v]; discriminate.
Qed.

Lemma preferred_success (env : Env) (params : OptimizeRouteParams)
  (route : PreferredRoute) (pts : list OrderedPoint) :
  preferred_answers env params route ->
  normalizeAll
    (orderPoints params
       (order_in_use (waypoints params) (optimizedIntermediateWaypointIndex route)))
  = inr pts ->
  exists r,
    outcome (computeRoutesPreferred env params) = inr r /\
    ordered r = pts /\ source r = routes_preferred.
Proof.
  intros (resp & payload & rest & Hresp & Hok & Hbody & Hroutes) Hn.
  unfold computeRoutesPreferred, fetch_routes. rewrite Hresp.
  destruct resp as [k st txt b]. simpl in Hok, Hbody. subst k b. simpl.
  rewrite Hroutes. simpl.
  destruct (mapLegs_ordered (match route_legs route with Some l => l | None => [] end)
              params (order_in_use (waypoints params)
                        (optimizedIntermediateWaypointIndex route)))
    as (legs & Hl & _).
  unfold order_in_use in Hl, Hn. rewrite Hl. simpl. rewrite Hn. simpl.
  eexists. repeat split.
Qed.

Lemma fallback_inversion (env : Env) (params : OptimizeRouteParams)
  (r : OptimizeRouteResult) :
  outcome (computeDirectionsFallback env params) = inr r ->
  exists route,
    fallback_answers env params route /\
    length (legs r) = length (legs_sent (directions_legs route)) /\
    normalizeAll
      (orderPoints params (order_in_use (waypoints params) (waypoint_order route)))
    = inr (ordered r) /\
    source r = directions_fallback.
Proof.
  unfold computeDirectionsFallback, fetch_directions, fallback_answers.
  destruct (directions_endpoint env (directionsRequest env params)) as [t|resp] eqn:Eresp;
    [discriminate|].
  destruct resp as [k st txt b]. destruct k; simpl; [|discriminate].
  destruct b as [t|[data|]]; simpl; try discriminate.
  destruct (data_status data) as [s|] eqn:Es; simpl; [|discriminate].
  destruct (String.eqb_spec s "OK") as [->|_]; simpl; [|discriminate].
  destruct (data_routes data) as [[|route rest]|] eqn:Er; simpl; try discriminate.
  destruct (mapLegs _ _) as [t|legs] eqn:El; simpl; [discriminate|].
  destruct (normalizeAll _) as [t|pts] eqn:En; simpl; [discriminate|].
  intro H; inversion H; subst; clear H. simpl.
  exists route. repeat split; try assumption.
  - exists (mkResponse true st txt (JsonValue (Some data))), data, rest.
    repeat split; assumption.
  - apply map_indexed_length in El. rewrite El, length_map.
    unfold legs_sent. reflexivity.
Qed.

Lemma fallback_success (env : Env) (params : OptimizeRouteParams)
  (route : DirectionsRoute) (pts : list OrderedPoint) :
  fallback_answers env params route ->
  normalizeAll
    (orderPoints params (order_in_use (waypoints params) (waypoint_order route)))
  = inr pts ->
  exists r,
    outcome (computeDirectionsFallback env params) = inr r /\
    ordered r = pts /\ source r = directions_fallback.
Proof.
  intros (resp & data & rest & Hresp & Hok & Hbody & Hst & Hroutes) Hn.
  unfold computeDirectionsFallback, fetch_directions. rewrite Hresp.
  destruct resp as [k st txt b]. simpl in Hok, Hbody. subst k b. simpl.
  rewrite Hst, Hroutes. simpl.
  destruct (mapLegs_ordered
              (map directionsLeg
                 (match directions_legs route with Some l => l | None => [] end))
              params (order_in_use (waypoints params) (waypoint_order route)))
    as (legs & Hl & _).
  unfold order_in_use in Hl, Hn. rewrite Hl. simpl. rewrite Hn. simpl.
  eexists. repeat split.
Qed.

(** [optimizeRoute] is the preferred path when that returns, and otherwise
    the preferred trace, one log line and the fallback path. *)
Lemma optimizeRoute_returns (env : Env) (params : OptimizeRouteParams)
  (r : OptimizeRouteResult) :
  outcome (computeRoutesPreferred env params) = inr r ->
  optimizeRoute env params = computeRoutesPreferred env params.
Proof.
  unfold optimizeRoute, try_catch, outcome.
  destruct (computeRoutesPreferred env params) as [tr [t|a]]; simpl;
    [discriminate | reflexivity].
Qed.

Lemma optimizeRoute_falls_back (env : Env) (params : OptimizeRouteParams)
  (e : Thrown) :
  outcome (computeRoutesPreferred env params) = inl e ->
  optimizeRoute env params
  = ((trace (computeRoutesPreferred env params)
      ++ fallback_log e :: trace (computeDirectionsFallback env params))%list,
     outcome (computeDirectionsFallback env params)).
Proof.
  unfold optimizeRoute, try_catch, outcome, trace, bind, emit, fallback_log.
  destruct (computeRoutesPreferred env params) as [tr [t|a]]; simpl;
    [|discriminate].
  intro H; inversion H; subst.
  now destruct (computeDirectionsFallback env params) as [tr' res].
Qed.


End RoutesFacts.

(* ------------------------------------------------------------------ *)
(** ** Properties of RoutesService *)

Module RoutesSpec.
Import RoutesService RoutesVocabulary RouteScenarios.
Import StringFacts NumeralFacts AssemblyFacts RoutesFacts.

(** *** Duration parsing *)

Example parse_800s : parseDurationSeconds (Some "800s") = JNum 800.
Proof. reflexivity. Qed.

Example parse_half_second_up : parseDurationSeconds (Some "2.5s") = JNum 3.
Proof. reflexivity. Qed.

(** A lone dot matches the pattern, [parseFloat] makes nothing of it, and
    the result is [NaN]. *)
Example parse_lone_dot : parseDurationSeconds (Some ".s") = JNaN.
Proof. reflexivity. Qed.

(** Past the precision of a double the numeral is rounded before
    [Math.round] sees it: seventeen nines after [0.4] read as one half, and
    2^53 + 1 reads as 2^53. *)
Example parse_just_below_half :
  parseDurationSeconds (Some "0.49999999999999999s") = JNum 1.
Proof. vm_compute. reflexivity. Qed.

Example parse_beyond_2_53 :
  parseDurationSeconds (Some "9007199254740993s") = JNum 9007199254740992.
Proof. vm_compute. reflexivity. Qed.

(** A numeral beyond the range of a double reads as [Infinity]. *)
Example parse_overflow :
  parseDurationSeconds (Some (numeral (repeat 9%nat 400) ++ "s")) = JInfinity false.
Proof. vm_compute. reflexivity. Qed.

Lemma parseDurationSeconds_unfold (d : string) :
  parseDurationSeconds (Some d) =
  match regex_exec d with
  | None => JNum 0
  | Some g => Math_round (parseFloat g)
  end.
Proof. destruct d; reflexivity. Qed.

(** C4, as stated: the text of every number [v], followed by ["s"], parses
    to [v] rounded.  It does not for a negative number: the pattern has no
    sign, so ["-5s"] parses to [5]. *)
Lemma parseDurationSeconds_drops_sign :
  string_of_Z (-5) ++ "s" = "-5s" /\
  parseDurationSeconds (Some (string_of_Z (-5) ++ "s")) = JNum 5 /\
  parseDurationSeconds (Some (string_of_Z (-5) ++ "s")) <> JNum (-5).
Proof. repeat split. discriminate. Qed.

(** C4, amended: take an unsigned decimal numeral, digits and possibly a
    dot and more digits.  An integer numeral below 2^53 followed by ["s"]
    parses to itself.  A numeral with a fraction whose digits, read together
    as one whole number, stay below 2^52 (so every numeral of at most
    fifteen digits) parses, followed by ["s"], to its value rounded to the
    nearest whole second, a tie going up.  A missing duration parses to 0,
    and so does every string with no run of digits and dots before an
    ['s']. *)
Theorem parseDurationSeconds_numeral (ip fp : list nat) (s : string) :
  are_digits ip -> are_digits fp -> ip <> [] -> ~ has_duration_literal s ->
  (Z.of_nat (positional 0 ip) < 2 ^ 53 ->
   parseDurationSeconds (Some (numeral ip ++ "s")) = JNum (Z.of_nat (positional 0 ip))) /\
  (Z.of_nat (positional 0 (ip ++ fp)%list) < 2 ^ 52 ->
   exists z,
     parseDurationSeconds (Some (numeral ip ++ "." ++ numeral fp ++ "s")) = JNum z /\
     rounds_to (numeral_value ip fp) z) /\
  ((length (ip ++ fp)%list <= 15)%nat ->
   Z.of_nat (positional 0 (ip ++ fp)%list) < 2 ^ 52) /\
  parseDurationSeconds None = JNum 0 /\
  parseDurationSeconds (Some s) = JNum 0.
Proof.
  intros Hi Hf Hne Hs. split; [|split; [|split; [|split]]].
  - intro Hlt. rewrite parseDurationSeconds_unfold, regex_exec_run.
    + now apply Math_round_integer.
    + destruct ip; [now destruct Hne | discriminate].
    + now apply numeral_in_class.
  - intro Hlt.
    destruct (Math_round_nearest ip fp Hi Hf Hne Hlt) as (z & Hz & Hr).
    exists z. split; [|exact Hr].
    rewrite parseDurationSeconds_unfold.
    replace (numeral ip ++ "." ++ numeral fp ++ "s")
      with ((numeral ip ++ "." ++ numeral fp) ++ String "s" EmptyString)
      by now rewrite !append_assoc.
    rewrite regex_exec_run.
    + exact Hz.
    + destruct ip; [now destruct Hne | discriminate].
    + rewrite !all_chars_app, !numeral_in_class by assumption. reflexivity.
  - intro Hlen.
    assert (are_digits (ip ++ fp)%list) as Hall by (apply Forall_app; now split).
    pose proof (positional_bound _ Hall) as Hb.
    assert (10 ^ Z.of_nat (length (ip ++ fp)%list) <= 10 ^ 15)
      by (apply Z.pow_le_mono_r; lia).
    lia.
  - reflexivity.
  - rewrite parseDurationSeconds_unfold.
    now rewrite (proj2 (regex_exec_none s) Hs).
Qed.

Lemma parseDurationSeconds_numeral_witness :
  parseDurationSeconds (Some "800s") = JNum 800 /\
  (parseDurationSeconds (Some "800.5s") = JNum 801 /\
   rounds_to (numeral_value [8; 0; 0]%nat [5]%nat) 801) /\
  parseDurationSeconds (Some "soon") = JNum 0.
Proof.
  assert (are_digits [8; 0; 0]%nat) as Hi by (repeat constructor; lia).
  assert (are_digits [5]%nat) as Hf by (repeat constructor; lia).
  assert ([8; 0; 0]%nat <> []) as Hne by discriminate.
  assert (~ has_duration_literal "soon") as Hs
      by (apply (proj1 (regex_exec_none "soon")); reflexivity).
  destruct (parseDurationSeconds_numeral [8; 0; 0]%nat [5]%nat "soon" Hi Hf Hne Hs)
    as (A & B & C & _ & D).
  split; [apply A; reflexivity|]. split; [|exact D].
  destruct (B (C ltac:(simpl; lia))) as (z & Hz & Hr).
  assert (parseDurationSeconds (Some "800.5s") = JNum 801) as Hrun by reflexivity.
  change (numeral [8; 0; 0]%nat ++ "." ++ numeral [5]%nat ++ "s") with "800.5s" in Hz.
  rewrite Hrun in Hz. injection Hz as <-.
  split; [reflexivity | exact Hr].
Defined.

(** *** Leg assembly *)

(** C9: for the point sequences the service builds (a first point, any
    middle slots, a last point) [mapLegs] returns, whatever the number of
    legs the backend sent, one leg per backend leg.  Leg [i] starts at
    ordered point [i] when that slot holds a point and at the first point
    otherwise, ends at point [i + 1] when that slot holds a point and at the
    last point otherwise; a missing distance is 0 and a missing duration is 0. *)
Theorem mapLegs_total_and_clamped (legsFromApi : list ApiLeg)
  (o d : RoutePointInput) (mids : list (option RoutePointInput)) :
  let orderedPoints := Some o :: mids ++ [Some d] in
  let total := Z.of_nat (length orderedPoints) in
  exists legs,
    mapLegs legsFromApi orderedPoints = inr legs /\
    length legs = length legsFromApi /\
    forall (i : nat) (leg : ApiLeg),
      nth_error legsFromApi i = Some leg ->
      exists out,
        nth_error legs i = Some out /\
        start_label out
        = or_string (label (match nth_error orderedPoints i with
                            | Some (Some p) => p
                            | _ => o
                            end)) (defaultLabel (Z.of_nat i) total) /\
        end_label out
        = or_string (label (match nth_error orderedPoints (S i) with
                            | Some (Some p) => p
                            | _ => d
                            end)) (defaultLabel (Z.of_nat i + 1) total) /\
        ((length orderedPoints <= i)%nat ->
         start_label out = or_string (label o) (defaultLabel (Z.of_nat i) total)) /\
        ((length orderedPoints <= S i)%nat ->
         end_label out = or_string (label d) (defaultLabel (Z.of_nat i + 1) total)) /\
        leg_distance_meters out
        = match distanceMeters leg with Some m => m | None => 0 end /\
        leg_duration_seconds out
        = match duration leg with
          | Some t => parseDurationSeconds (Some t)
          | None => JNum 0
          end.
Proof.
  intros orderedPoints total.
  destruct (mapLegs_defined legsFromApi o d mids) as (legs & Hlegs & Hlen).
  exists legs. split; [exact Hlegs|]. split; [exact Hlen|].
  intros i leg Hi.
  destruct (map_indexed_nth _ _ _ _ Hlegs i leg Hi) as (out & Hout & Hleg).
  exists out. split; [exact Hout|].
  assert (start_label out
          = or_string (label (match nth_error orderedPoints i with
                              | Some (Some p) => p
                              | _ => o
                              end)) (defaultLabel (Z.of_nat i) total)
          /\ end_label out
          = or_string (label (match nth_error orderedPoints (S i) with
                              | Some (Some p) => p
                              | _ => d
                              end)) (defaultLabel (Z.of_nat i + 1) total)
          /\ leg_distance_meters out = or_number (distanceMeters leg) 0
          /\ leg_duration_seconds out = parseDurationSeconds (duration leg))
    as (Hs & He & Hd & Ht).
  { unfold mapLeg in Hleg. rewrite point_at_last in Hleg.
    change (point_at (Some o :: mids ++ [Some d]) 0) with (Some o) in Hleg.
    replace (0 + Z.of_nat i + 1) with (Z.of_nat (S i)) in Hleg by lia.
    replace (0 + Z.of_nat i) with (Z.of_nat i) in Hleg by lia.
    rewrite !point_at_of_nat in Hleg.
    fold orderedPoints in Hleg. fold total in Hleg.
    replace (Z.of_nat i + 1) with (Z.of_nat (S i)) by lia.
    destruct (nth_error orderedPoints i) as [[p|]|];
      destruct (nth_error orderedPoints (S i)) as [[q|]|];
      simpl in Hleg; inversion Hleg; subst; simpl; repeat split. }
  split; [exact Hs|]. split; [exact He|].
  split; [|split; [|split]].
  - intro Hout_of_range. rewrite Hs.
    now rewrite (proj2 (nth_error_None orderedPoints i) Hout_of_range).
  - intro Hout_of_range. rewrite He.
    now rewrite (proj2 (nth_error_None orderedPoints (S i)) Hout_of_range).
  - rewrite Hd. now destruct (distanceMeters leg) as [[| |]|].
  - rewrite Ht. now destruct (duration leg).
Qed.

Lemma mapLegs_total_and_clamped_witness :
  exists legs,
    mapLegs [mkApiLeg None None; mkApiLeg (Some 7) (Some "3s"); mkApiLeg None None]
      [Some trip_origin; Some trip_destination] = inr legs /\
    exists out,
      nth_error legs 2 = Some out /\
      start_label out = "Origin" /\ end_label out = "Destination" /\
      leg_distance_meters out = 0 /\ leg_duration_seconds out = JNum 0.
Proof.
  destruct (mapLegs_total_and_clamped
              [mkApiLeg None None; mkApiLeg (Some 7) (Some "3s"); mkApiLeg None None]
              trip_origin trip_destination [])
    as (legs & Hlegs & _ & Hnth).
  exists legs. split; [exact Hlegs|].
  destruct (Hnth 2%nat (mkApiLeg None None) eq_refl)
    as (out & Hout & _ & _ & Hs & He & Hd & Ht).
  exists out. split; [exact Hout|].
  split; [apply Hs; simpl; lia|].
  split; [apply He; simpl; lia|].
  split; [exact Hd | exact Ht].
Defined.

(** *** Fallback discipline *)



(** *** Shape of a result *)

(** C1, as stated: [legs.length == ordered.length - 1] on every result.  A
    route that comes back without a [legs] field gives no legs and the two
    end points. *)
Lemma legs_without_backend_legs :
  exists r,
    outcome (optimizeRoute preferred_bare direct) = inr r /\
    source r = routes_preferred /\
    length (legs r) = 0%nat /\
    length (ordered r) = 2%nat /\
    length (legs r) <> (length (ordered r) - 1)%nat.
Proof. eexists. repeat split. discriminate. Qed.

(** C1, amended: a result of [optimizeRoute] has as many legs as the route
    of the backend that produced it carries (none when it carries no leg
    list) and two more ordered points than the index sequence in use has
    entries; so [legs.length == ordered.length - 1] exactly when that route
    carries one leg more than the index sequence has entries.  The result is
    tagged [routes_preferred] when the preferred path produced it. *)
Theorem optimizeRoute_lengths (env : Env) (params : OptimizeRouteParams)
  (r : OptimizeRouteResult) :
  outcome (optimizeRoute env params) = inr r ->
  exists (sent : nat) (order : list Z),
    ((outcome (computeRoutesPreferred env params) = inr r /\
      source r = routes_preferred /\
      exists route,
        preferred_answers env params route /\
        sent = length (legs_sent (route_legs route)) /\
        order = order_in_use (waypoints params)
                  (optimizedIntermediateWaypointIndex route))
     \/
     ((exists e, outcome (computeRoutesPreferred env params) = inl e) /\
      source r = directions_fallback /\
      exists route,
        fallback_answers env params route /\
        sent = length (legs_sent (directions_legs route)) /\
        order = order_in_use (waypoints params) (waypoint_order route))) /\
    length (legs r) = sent /\
    length (ordered r) = (length order + 2)%nat /\
    (length (legs r) = (length (ordered r) - 1)%nat <-> sent = (length order + 1)%nat).
Proof.
  intro H.
  destruct (outcome (computeRoutesPreferred env params)) as [e|r'] eqn:Hp.
  - rewrite (optimizeRoute_falls_back env params e Hp) in H. simpl in H.
    destruct (fallback_inversion env params r H) as (route & Ha & Hl & Hn & Hs).
    exists (length (legs_sent (directions_legs route))),
           (order_in_use (waypoints params) (waypoint_order route)).
    apply normalizeAll_length in Hn. rewrite orderPoints_length in Hn.
    split; [right; split; [now exists e|]; split; [exact Hs|]; now exists route|].
    split; [exact Hl|]. split; [exact Hn|]. rewrite Hl, Hn. lia.
  - rewrite (optimizeRoute_returns env params r' Hp), Hp in H.
    inversion H; subst r'; clear H.
    destruct (preferred_inversion env params r Hp) as (route & Ha & Hl & Hn & Hs).
    exists (length (legs_sent (route_legs route))),
           (order_in_use (waypoints params) (optimizedIntermediateWaypointIndex route)).
    apply map_indexed_length in Hl.
    apply normalizeAll_length in Hn. rewrite orderPoints_length in Hn.
    split; [left; split; [reflexivity|]; split; [exact Hs|]; now exists route|].
    split; [exact Hl|]. split; [exact Hn|]. rewrite Hl, Hn. lia.
Qed.

Lemma optimizeRoute_lengths_witness :
  exists r,
    outcome (optimizeRoute preferred_up two_stops) = inr r /\
    exists (sent : nat) (order : list Z),
      length (legs r) = sent /\
      length (ordered r) = (length order + 2)%nat /\
      (length (legs r) = (length (ordered r) - 1)%nat <-> sent = (length order + 1)%nat).
Proof.
  eexists. split; [reflexivity|].
  destruct (optimizeRoute_lengths preferred_up two_stops _ eq_refl)
    as (sent & order & _ & Hlegs & Hordered & Hiff).
  exists sent, order. split; [exact Hlegs|]. split; [exact Hordered | exact Hiff].
Defined.

(** *** Order of the points *)

(** C2: let the index sequence in use be the one the backend sent, or the
    identity when it sent none.  Whenever it picks points [pts] out of the
    waypoints: if the preferred backend answers, the result is tagged
    [routes_preferred] and its ordered points are the origin, [pts] and the
    destination, each with its own label or the default label of its
    position, and the coordinates of the picked points; if the preferred
    path fails and the fallback backend answers, the result is tagged
    [directions_fallback] and has the same ordered points.  When the
    backend that answers sends no index sequence, the call returns and the
    ordered points are the origin, the waypoints as given and the
    destination.  Conversely every result of [optimizeRoute] has this form
    for the index sequence of the backend that produced it. *)
Theorem ordered_follows_index_sequence (env : Env) (params : OptimizeRouteParams) :
  (forall sent pts,
      selects (waypoints params) (order_in_use (waypoints params) sent) pts ->
      (forall route,
          preferred_answers env params route ->
          optimizedIntermediateWaypointIndex route = sent ->
          exists r,
            outcome (optimizeRoute env params) = inr r /\
            source r = routes_preferred /\
            ordered r = labelled (origin params :: pts ++ [destination params])) /\
      (forall e route,
          outcome (computeRoutesPreferred env params) = inl e ->
          fallback_answers env params route ->
          waypoint_order route = sent ->
          exists r,
            outcome (optimizeRoute env params) = inr r /\
            source r = directions_fallback /\
            ordered r = labelled (origin params :: pts ++ [destination params])) /\
      (sent = None -> pts = waypoints params) /\
      map (fun p => (o_lat p, o_lng p))
        (labelled (origin params :: pts ++ [destination params]))
      = map (fun p => (lat p, lng p)) (origin params :: pts ++ [destination params])) /\
  (forall route,
      preferred_answers env params route ->
      optimizedIntermediateWaypointIndex route = None ->
      exists r,
        outcome (optimizeRoute env params) = inr r /\
        source r = routes_preferred /\
        ordered r
        = labelled (origin params :: waypoints params ++ [destination params])) /\
  (forall e route,
      outcome (computeRoutesPreferred env params) = inl e ->
      fallback_answers env params route ->
      waypoint_order route = None ->
      exists r,
        outcome (optimizeRoute env params) = inr r /\
        source r = directions_fallback /\
        ordered r
        = labelled (origin params :: waypoints params ++ [destination params])) /\
  (forall r,
      outcome (optimizeRoute env params) = inr r ->
      exists sent pts,
        ((source r = routes_preferred /\
          exists route, preferred_answers env params route /\
                        optimizedIntermediateWaypointIndex route = sent)
         \/
         (source r = directions_fallback /\
          exists route, fallback_answers env params route /\
                        waypoint_order route = sent)) /\
        selects (waypoints params) (order_in_use (waypoints params) sent) pts /\
        ordered r = labelled (origin params :: pts ++ [destination params])).
Proof.
  assert (forall sent pts,
      selects (waypoints params) (order_in_use (waypoints params) sent) pts ->
      (forall route,
          preferred_answers env params route ->
          optimizedIntermediateWaypointIndex route = sent ->
          exists r,
            outcome (optimizeRoute env params) = inr r /\
            source r = routes_preferred /\
            ordered r = labelled (origin params :: pts ++ [destination params])) /\
      (forall e route,
          outcome (computeRoutesPreferred env params) = inl e ->
          fallback_answers env params route ->
          waypoint_order route = sent ->
          exists r,
            outcome (optimizeRoute env params) = inr r /\
            source r = directions_fallback /\
            ordered r = labelled (origin params :: pts ++ [destination params])))
    as Hgiven.
  { intros sent pts Hsel.
    assert (normalizeAll (orderPoints params (order_in_use (waypoints params) sent))
            = inr (labelled (origin params :: pts ++ [destination params]))) as Hn.
    { rewrite (orderPoints_selects params _ pts Hsel). apply normalizeAll_defined. }
    split.
    - intros route Ha Hsent. rewrite <- Hsent in Hn.
      destruct (preferred_success env params route _ Ha Hn) as (r & Hr & Ho & Hs).
      exists r. rewrite (optimizeRoute_returns env params r Hr). auto.
    - intros e route He Ha Hsent. rewrite <- Hsent in Hn.
      destruct (fallback_success env params route _ Ha Hn) as (r & Hr & Ho & Hs).
      exists r. rewrite (optimizeRoute_falls_back env params e He). auto. }
  assert (selects (waypoints params) (indices (waypoints params)) (waypoints params))
    as Hidentity by exact (selects_seq [] (waypoints params)).
  split; [|split; [|split]].
  - intros sent pts Hsel. destruct (Hgiven sent pts Hsel) as [Hp Hf].
    split; [exact Hp|]. split; [exact Hf|]. split.
    + intros ->. exact (selects_functional _ _ _ _ Hsel Hidentity).
    + apply labelFrom_coordinates.
  - intros route Ha Hsent.
    exact (proj1 (Hgiven None (waypoints params) Hidentity) route Ha Hsent).
  - intros e route He Ha Hsent.
    exact (proj2 (Hgiven None (waypoints params) Hidentity) e route He Ha Hsent).
  - intros r H.
    destruct (outcome (computeRoutesPreferred env params)) as [e|r'] eqn:Hp.
    + rewrite (optimizeRoute_falls_back env params e Hp) in H. simpl in H.
      destruct (fallback_inversion env params r H) as (route & Ha & _ & Hn & Hs).
      destruct (normalizeAll_orderPoints_inv _ _ _ Hn) as (pts & Hsel & Ho).
      exists (waypoint_order route), pts.
      split; [right; split; [exact Hs | now exists route]|].
      split; [exact Hsel | exact Ho].
    + rewrite (optimizeRoute_returns env params r' Hp), Hp in H.
      inversion H; subst r'; clear H.
      destruct (preferred_inversion env params r Hp) as (route & Ha & _ & Hn & Hs).
      destruct (normalizeAll_orderPoints_inv _ _ _ Hn) as (pts & Hsel & Ho).
      exists (optimizedIntermediateWaypointIndex route), pts.
      split; [left; split; [exact Hs | now exists route]|].
      split; [exact Hsel | exact Ho].
Qed.

Lemma ordered_follows_index_sequence_witness :
  (exists r,
      outcome (optimizeRoute preferred_up two_stops) = inr r /\
      source r = routes_preferred /\
      ordered r = labelled [trip_origin; stop_b; stop_a; trip_destination]) /\
  (exists r,
      outcome (optimizeRoute preferred_down two_stops) = inr r /\
      source r = directions_fallback /\
      ordered r = labelled [trip_origin; stop_b; stop_a; trip_destination]) /\
  (exists r,
      outcome (optimizeRoute preferred_bare two_stops) = inr r /\
      source r = routes_preferred /\
      ordered r = labelled [trip_origin; stop_a; stop_b; trip_destination] /\
      map o_label (ordered r) = ["Origin"; "Stop A"; "Stop B"; "Destination"] /\
      polyline r = "xyz") /\
  (exists r,
      outcome (optimizeRoute preferred_down_plain two_stops) = inr r /\
      source r = directions_fallback /\
      ordered r = labelled [trip_origin; stop_a; stop_b; trip_destination] /\
      map o_label (ordered r) = ["Origin"; "Stop A"; "Stop B"; "Destination"] /\
      polyline r = "fallback").
Proof.
  assert (selects (waypoints two_stops)
            (order_in_use (waypoints two_stops) (Some [1; 0])) [stop_b; stop_a])
    as Hsel by (repeat constructor; simpl; lia).
  split; [|split; [|split]].
  - destruct (ordered_follows_index_sequence preferred_up two_stops) as (Hgiven & _).
    destruct (Hgiven (Some [1; 0]) [stop_b; stop_a] Hsel) as (Hp & _).
    apply (Hp swapped_route); [|reflexivity].
    do 3 eexists. repeat split; reflexivity.
  - destruct (ordered_follows_index_sequence preferred_down two_stops) as (Hgiven & _).
    destruct (Hgiven (Some [1; 0]) [stop_b; stop_a] Hsel) as (_ & Hf & _).
    apply (Hf (JsError "Routes Preferred API error: boom (HTTP 500)")
              swapped_directions); [reflexivity| |reflexivity].
    do 3 eexists. repeat split; reflexivity.
  - destruct (ordered_follows_index_sequence preferred_bare two_stops)
      as (_ & Habsent & _).
    destruct (Habsent bare_route) as (r & Hr & Hs & Ho);
      [do 3 eexists; repeat split; reflexivity | reflexivity |].
    exists r. split; [exact Hr|]. split; [exact Hs|]. split; [exact Ho|].
    assert (match outcome (optimizeRoute preferred_bare two_stops) with
            | inr done => Some (polyline done, ordered done)
            | inl _ => None
            end
            = Some ("xyz", labelled [trip_origin; stop_a; stop_b; trip_destination]))
      as Hrun by reflexivity.
    rewrite Hr in Hrun. injection Hrun as Hpoly _.
    split; [rewrite Ho; reflexivity | exact Hpoly].
  - destruct (ordered_follows_index_sequence preferred_down_plain two_stops)
      as (_ & _ & Habsent & _).
    destruct (Habsent (JsError "Routes Preferred API error: boom (HTTP 500)")
                plain_directions) as (r & Hr & Hs & Ho);
      [reflexivity | do 3 eexists; repeat split; reflexivity | reflexivity |].
    exists r. split; [exact Hr|]. split; [exact Hs|]. split; [exact Ho|].
    assert (match outcome (optimizeRoute preferred_down_plain two_stops) with
            | inr done => Some (polyline done, ordered done)
            | inl _ => None
            end
            = Some ("fallback",
                    labelled [trip_origin; stop_a; stop_b; trip_destination]))
      as Hrun by reflexivity.
    rewrite Hr in Hrun. injection Hrun as Hpoly _.
    split; [rewrite Ho; reflexivity | exact Hpoly].
Defined.

End RoutesSpec.

(* ------------------------------------------------------------------ *)
(** ** TextSearchService, run *)

Module PlacesFacts.
Import TextSearchService PlacesVocabulary StringFacts.

Lemma span_exceeds_spec (a b : float) :
  span_exceeds a b = true <-> spans_more_than_0_05 a b.
Proof. reflexivity. Qed.

Lemma nullish_degrees (x : option float) : nullish x 0%float = degrees x.
Proof. now destruct x. Qed.

Lemma areaTokens_spec (token : string) : In token areaTokens <-> area_token token.
Proof.
  unfold areaTokens, area_token. cbn [In]. split.
  - intros [H|[H|[H|[H|[H|[H|[H|[H|[H|[]]]]]]]]]]; subst; tauto.
  - intros [H|[H|[H|[H|[H|[H|[H|[H|H]]]]]]]]; subst; tauto.
Qed.

(** [isArea], given that the token list and the span test of the code are
    the ones of the specification. *)
Lemma isArea_from (types : list string) (vp : option Viewport) :
  (forall token, In token areaTokens <-> area_token token) ->
  (forall a b, span_exceeds a b = true <-> spans_more_than_0_05 a b) ->
  (isArea types vp = true <->
   area_type types \/ (exists box, vp = Some box /\ wide box)).
Proof.
  intros Htokens Hspan.
  assert (existsb (fun type => existsb (fun token => includes type token) areaTokens)
            types = true <-> area_type types) as Htypes.
  { unfold area_type. rewrite existsb_exists. split.
    - intros (type & Hin & H). apply existsb_exists in H as (token & Htok & Hinc).
      exists type, token. split; [exact Hin|]. split; [now apply Htokens|].
      now apply includes_spec.
    - intros (type & token & Hin & Htok & Hocc).
      exists type. split; [exact Hin|]. apply existsb_exists.
      exists token. split; [now apply Htokens|]. now apply includes_spec. }
  unfold isArea.
  destruct (existsb _ types) eqn:E.
  - split; [intros _; left; now apply Htypes | reflexivity].
  - assert (~ area_type types) as Hno
        by (intro H; apply Htypes in H; congruence).
    split.
    + intro H. right. destruct vp as [[[lo|] [hi|]]|]; try discriminate.
      exists (mkViewport (Some lo) (Some hi)). split; [reflexivity|].
      exists lo, hi. split; [reflexivity|]. split; [reflexivity|].
      rewrite !nullish_degrees in H.
      destruct (span_exceeds (degrees (latitude hi)) (degrees (latitude lo)))
        eqn:Elat.
      * left. now apply Hspan.
      * destruct (span_exceeds (degrees (longitude hi)) (degrees (longitude lo)))
          eqn:Elng; [right; now apply Hspan | discriminate].
    + intros [H | (box & -> & lo & hi & Hlo & Hhi & Hwide)]; [contradiction|].
      destruct box as [l h]. simpl in Hlo, Hhi. subst l h.
      rewrite !nullish_degrees.
      destruct Hwide as [H|H]; apply Hspan in H; rewrite H;
        [reflexivity|]. now rewrite orb_true_r.
Qed.

Lemma isArea_spec (types : list string) (vp : option Viewport) :
  isArea types vp = true <->
  area_type types \/ (exists box, vp = Some box /\ wide box).
Proof. apply isArea_from; [apply areaTokens_spec | apply span_exceeds_spec]. Qed.

Lemma matchesType_spec (types : list string) :
  existsb (fun type => existsb (fun token => includes type token) areaTokens) types
  = true <-> area_type types.
Proof.
  unfold area_type. rewrite existsb_exists. split.
  - intros (type & Hin & H). apply existsb_exists in H as (token & Htok & Hinc).
    exists type, token. split; [exact Hin|]. split; [now apply areaTokens_spec|].
    now apply includes_spec.
  - intros (type & token & Hin & Htok & Hocc).
    exists type. split; [exact Hin|]. apply existsb_exists.
    exists token. split; [now apply areaTokens_spec|]. now apply includes_spec.
Qed.

(** *** Double arithmetic behind the viewport test *)

Lemma SFabs_binary_round (s : bool) (m : positive) (e : Z) :
  SFabs (binary_round prec emax s m e) = SFabs (binary_round prec emax (negb s) m e).
Proof.
  unfold binary_round, binary_round_aux.
  destruct (shl_align m e _) as [mz ez].
  destruct (shr_fexp prec emax (Z.pos mz) ez loc_Exact) as [r1 e1].
  destruct (shr_fexp prec emax _ e1 loc_Exact) as [r2 e2].
  destruct (shr_m r2); [reflexivity| |reflexivity].
  destruct (e2 <=? emax - prec)%Z; reflexivity.
Qed.

Lemma SFabs_binary_normalize_opp (m e : Z) :
  SFabs (binary_normalize prec emax m e false)
  = SFabs (binary_normalize prec emax (- m) e false).
Proof.
  destruct m as [|p|p]; [reflexivity| |]; cbn [Z.opp binary_normalize].
  - apply (SFabs_binary_round false).
  - apply (SFabs_binary_round true).
Qed.

Lemma SFabs_SFsub_comm (x y : spec_float) :
  SFabs (SFsub prec emax x y) = SFabs (SFsub prec emax y x).
Proof.
  destruct x as [sx|sx| |sx mx ex], y as [sy|sy| |sy my ey];
    try reflexivity;
    try (destruct sx; reflexivity);
    try (destruct sy; reflexivity);
    try (destruct sx, sy; reflexivity).
  cbn [SFsub]. rewrite (Z.min_comm ey ex).
  rewrite SFabs_binary_normalize_opp. f_equal. f_equal. lia.
Qed.

(** [Math.abs(a - b)] and [Math.abs(b - a)] are the same double. *)
Lemma abs_sub_comm (a b : float) : abs (a - b) = abs (b - a).
Proof.
  rewrite <- (SF2Prim_Prim2SF (abs (a - b))), <- (SF2Prim_Prim2SF (abs (b - a))).
  f_equal. rewrite !abs_spec, !sub_spec. apply SFabs_SFsub_comm.
Qed.

Lemma span_exceeds_comm (a b : float) : span_exceeds a b = span_exceeds b a.
Proof. unfold span_exceeds. now rewrite abs_sub_comm. Qed.

Lemma SFsub_diag (x : spec_float) :
  SFabs (SFsub prec emax x x) = S754_zero false \/
  SFabs (SFsub prec emax x x) = S754_nan.
Proof.
  destruct x as [s|s| |s m e].
  - left. destruct s; reflexivity.
  - right. destruct s; reflexivity.
  - right. reflexivity.
  - left. cbn [SFsub]. rewrite Z.sub_diag. reflexivity.
Qed.

(** A coordinate is never more than 0.05 away from itself. *)
Lemma span_exceeds_diag (a : float) : span_exceeds a a = false.
Proof.
  unfold span_exceeds. rewrite ltb_spec, abs_spec, sub_spec. unfold SF64sub.
  destruct (SFsub_diag (Prim2SF a)) as [-> | ->]; reflexivity.
Qed.

Lemma transformAll_nth (places : list RawPlace) (i : Z) (k : nat) :
  nth_error (transformAll places i) k
  = option_map (fun place => transformCandidate place (i + Z.of_nat k))
      (nth_error places k).
Proof.
  revert i k; induction places as [|p r IH]; intros i k.
  - now destruct k.
  - destruct k as [|k]; simpl.
    + now rewrite Z.add_0_r.
    + rewrite IH. now replace (i + 1 + Z.of_nat k) with (i + Z.pos (Pos.of_succ_nat k)) by lia.
Qed.

Lemma isResolved_spec (candidates : list TextSearchCandidate) :
  isResolved candidates = true <->
  exists c, candidates = [c] /\ is_area c = false.
Proof.
  unfold isResolved. split.
  - destruct candidates as [|c [|c' r]]; try discriminate.
    simpl. intro H. exists c. split; [reflexivity|]. now apply negb_true_iff.
  - intros (c & -> & H). simpl. now rewrite H.
Qed.

(** An HTTP-ok response with a parsed body: [search] returns the transformed
    places, logs nothing, and does not throw. *)
Lemma search_ok (env : Env) (query : string) (maxResults : option Z)
  (languageCode : option string) (resp : Response PlacesPayload)
  (payload : option PlacesPayload) :
  endpoint env (request_of env query maxResults languageCode) = Responded resp ->
  ok resp = true ->
  body resp = JsonValue payload ->
  search env query maxResults languageCode
  = ([FetchPlaces (request_of env query maxResults languageCode)],
     inr {| resolved := isResolved (transformAll (places_sent payload) 0);
            candidates := transformAll (places_sent payload) 0 |}).
Proof.
  unfold request_of. intros Hresp Hok Hbody.
  unfold search, fetch_places. rewrite Hresp.
  destruct resp as [k st txt b]. simpl in Hok, Hbody. subst k b. simpl.
  now destruct payload as [[msg [ps|]]|].
Qed.

Lemma search_inversion (env : Env) (query : string) (maxResults : option Z)
  (languageCode : option string) (r : TextSearchResult) :
  outcome (search env query maxResults languageCode) = inr r ->
  exists places,
    r = {| resolved := isResolved (transformAll places 0);
           candidates := transformAll places 0 |}.
Proof.
  unfold search, fetch_places.
  destruct (endpoint env _) as [t|resp]; simpl.
  - destruct t; discriminate.
  - destruct resp as [k st txt b]. destruct k; simpl.
    + destruct b as [t|payload]; simpl.
      * destruct t; discriminate.
      * intro H; inversion H. eexists. reflexivity.
    + destruct b as [t|v]; discriminate.
Qed.

(** A non-success status: the one error [search] throws, logged first. *)
Lemma search_http_error (env : Env) (query : string) (maxResults : option Z)
  (languageCode : option string) (resp : Response PlacesPayload) :
  endpoint env (request_of env query maxResults languageCode) = Responded resp ->
  ok resp = false ->
  outcome (search env query maxResults languageCode)
  = inl (JsError ("Places text search failed: "
                  ++ upstream_message error_message resp
                  ++ " (HTTP " ++ string_of_nat (status resp) ++ ")")).
Proof.
  unfold request_of, upstream_message. intros Hresp Hok.
  unfold search, fetch_places. rewrite Hresp.
  destruct resp as [k st txt b]. simpl in Hok. subst k. simpl.
  destruct b as [t|[payload|]]; reflexivity.
Qed.

End PlacesFacts.

(* ------------------------------------------------------------------ *)
(** ** Properties of TextSearchService *)

Module PlacesSpec.
Import TextSearchService PlacesVocabulary PlaceScenarios.
Import StringFacts PlacesFacts.

(** C6: a candidate is an area exactly when one of its type tags contains
    one of the nine area tokens as a substring, or its viewport has both
    corners and spans more than 0.05 degrees of latitude or of longitude,
    the span being taken in double arithmetic.  Either is enough: a tag that
    contains any of the nine tokens makes an area whatever the viewport,
    and a wide viewport makes one whatever the tags. *)
Theorem is_area_iff (place : RawPlace) (idx : Z) :
  (is_area (transformCandidate place idx) = true <->
   area_type (types (transformCandidate place idx)) \/
   (exists box, viewport place = Some box /\ wide box)) /\
  (forall tag token,
      In tag (types (transformCandidate place idx)) ->
      area_token token -> occurs_in token tag ->
      is_area (transformCandidate place idx) = true) /\
  (In "locality" (types (transformCandidate place idx)) ->
   is_area (transformCandidate place idx) = true) /\
  (forall box, viewport place = Some box -> wide box ->
               is_area (transformCandidate place idx) = true).
Proof.
  assert (forall token, In token areaTokens <-> area_token token) as Htokens.
  { intro token. unfold areaTokens, area_token. cbn [In]. split.
    - intros [H|[H|[H|[H|[H|[H|[H|[H|[H|[]]]]]]]]]]; subst; tauto.
    - intros [H|[H|[H|[H|[H|[H|[H|[H|H]]]]]]]]; subst; tauto. }
  assert (forall a b, span_exceeds a b = true <-> spans_more_than_0_05 a b) as Hspan
      by (intros a b; reflexivity).
  assert (forall tags box,
            isArea tags box = true <->
            area_type tags \/ (exists b, box = Some b /\ wide b)) as Hspec
      by (intros tags box; now apply isArea_from).
  split; [apply Hspec|]. split; [|split].
  - intros tag token Hin Htok Hocc. apply Hspec. left. now exists tag, token.
  - intro H. apply Hspec. left.
    exists "locality", "locality". split; [exact H|].
    split; [unfold area_token; tauto|]. now exists EmptyString, EmptyString.
  - intros box Hvp Hw. apply Hspec. right. now exists box.
Qed.

Lemma is_area_iff_witness :
  is_area (transformCandidate
             (mkRawPlace None None None None None (Some ["sublocality_level_1"]) None)
             0) = true /\
  is_area (transformCandidate
             (mkRawPlace None None None None None (Some ["geo_political_unit"]) None)
             0) = true /\
  is_area (transformCandidate (shop 2 2.5) 0) = true.
Proof.
  split; [|split].
  - apply (proj1 (is_area_iff _ 0)). left.
    exists "sublocality_level_1", "locality". split; [simpl; tauto|].
    split; [unfold area_token; tauto|]. now exists "sub", "_level_1".
  - apply (proj1 (proj2 (is_area_iff _ 0)) "geo_political_unit" "political");
      [simpl; tauto | unfold area_token; tauto | now exists "geo_", "_unit"].
  - eapply (proj2 (proj2 (proj2 (is_area_iff _ 0)))); [reflexivity|].
    do 2 eexists. split; [reflexivity|]. split; [reflexivity|].
    left. reflexivity.
Defined.

(** The threshold in doubles: from latitude 1 to the double nearest to 1.05
    the computed span is a little more than 0.05, and the place is an area;
    from 0 to the double nearest to 0.05 it is not more, and the place is a
    point. *)
Example span_from_1_to_1_05 :
  is_area (transformCandidate (shop 1 0x1.0cccccccccccdp+0) 0) = true.
Proof. reflexivity. Qed.

Example span_from_0_to_0_05 :
  is_area (transformCandidate (shop 0 0x1.999999999999ap-5) 0) = false.
Proof. reflexivity. Qed.

(** C5: in every result of [search], [resolved] holds exactly when there is
    one candidate and it is not an area; and a response with one place that
    has no area type and no wide viewport gives a resolved result. *)
Theorem resolved_iff_single_point (env : Env) (query : string)
  (maxResults : option Z) (languageCode : option string) :
  (forall r,
      outcome (search env query maxResults languageCode) = inr r ->
      (resolved r = true <-> exists c, candidates r = [c] /\ is_area c = false)) /\
  (forall resp payload place,
      endpoint env (request_of env query maxResults languageCode) = Responded resp ->
      ok resp = true ->
      body resp = JsonValue (Some payload) ->
      places payload = Some [place] ->
      ~ area_type (types (transformCandidate place 0)) ->
      ~ (exists box, viewport place = Some box /\ wide box) ->
      outcome (search env query maxResults languageCode)
      = inr {| resolved := true; candidates := [transformCandidate place 0] |}).
Proof.
  split.
  - intros r H. destruct (search_inversion _ _ _ _ _ H) as (places & ->).
    apply isResolved_spec.
  - intros resp payload place Hresp Hok Hbody Hplaces Htype Hbox.
    rewrite (search_ok _ _ _ _ _ _ Hresp Hok Hbody).
    unfold places_sent. rewrite Hplaces.
    change (transformAll [place] 0) with [transformCandidate place 0].
    assert (forall a b, span_exceeds a b = true <-> spans_more_than_0_05 a b)
      as Hspan by (intros a b; reflexivity).
    assert (is_area (transformCandidate place 0) = false) as Hpoint.
    { destruct (is_area (transformCandidate place 0)) eqn:E; [|reflexivity].
      apply (isArea_from _ _ areaTokens_spec Hspan) in E. tauto. }
    unfold isResolved. cbn [length Nat.eqb andb]. now rewrite Hpoint.
Qed.

Lemma resolved_iff_single_point_witness :
  outcome (search (finds (Some [cafe])) "Cafe 123" None None)
  = inr {| resolved := true; candidates := [transformCandidate cafe 0] |} /\
  (exists c, [transformCandidate cafe 0] = [c] /\ is_area c = false).
Proof.
  destruct (resolved_iff_single_point (finds (Some [cafe])) "Cafe 123" None None)
    as (Hiff & Hone).
  split.
  - eapply Hone; try reflexivity.
    + intro H. apply matchesType_spec in H. discriminate.
    + intros (box & H & _). discriminate.
  - apply (Hiff {| resolved := true; candidates := [transformCandidate cafe 0] |});
      reflexivity.
Defined.

(** One shop whose viewport runs from latitude 1 to 1.05: in doubles the
    span exceeds 0.05, the candidate is an area and the result is not
    resolved. *)
Example shop_at_the_threshold :
  outcome (search (finds (Some [shop 1 0x1.0cccccccccccdp+0])) "Shop" None None)
  = inr {| resolved := false;
           candidates := [transformCandidate (shop 1 0x1.0cccccccccccdp+0) 0] |}.
Proof. reflexivity. Qed.

(** C7: the candidate made of the raw place at position [k] of the
    response.  Identifier: a resource name ["places/" ++ rest] gives
    [rest]; a name that does not start with ["places/"], like no name at
    all, gives the raw id (empty when there is none).  Name: the
    display-name text; when that is blank the raw name; when both are blank
    ["Candidate "] and the 1-based position.  Address: the formatted
    address, empty when absent.  Coordinates: each one defaults to 0.
    Types: the raw tags, none when absent. *)
Theorem candidate_derivation (places : list RawPlace) (k : nat) (place : RawPlace) :
  nth_error places k = Some place ->
  exists c,
    nth_error (transformAll places 0) k = Some c /\
    (forall rest, raw_name place = Some ("places/" ++ rest) -> place_id c = rest) /\
    (forall nm, raw_name place = Some nm ->
                (forall rest, nm <> "places/" ++ rest) ->
                place_id c = match raw_id place with Some id => id | None => EmptyString end) /\
    (raw_name place = None ->
     place_id c = match raw_id place with Some id => id | None => EmptyString end) /\
    (forall text, displayName_text place = Some text -> text <> EmptyString -> name c = text) /\
    (forall nm, blank (displayName_text place) -> raw_name place = Some nm ->
                nm <> EmptyString -> name c = nm) /\
    (blank (displayName_text place) -> blank (raw_name place) ->
     name c = "Candidate " ++ string_of_nat (k + 1)) /\
    formatted_address c
    = match formattedAddress place with Some a => a | None => EmptyString end /\
    (location place = None -> lat c = 0%float /\ lng c = 0%float) /\
    (forall l, location place = Some l ->
               lat c = match latitude l with Some x => x | None => 0%float end /\
               lng c = match longitude l with Some x => x | None => 0%float end) /\
    types c = match raw_types place with Some ts => ts | None => [] end.
Proof.
  intro Hk. exists (transformCandidate place (Z.of_nat k)).
  split; [now rewrite transformAll_nth, Hk|].
  unfold transformCandidate;
    cbn [place_id name formatted_address lat lng types].
  split; [|split; [|split; [|split; [|split; [|split; [|split; [|split; [|split]]]]]]]].
  - intros rest Hn. unfold extractPlaceId. rewrite Hn.
    destruct rest; reflexivity.
  - intros nm Hn Hno. unfold extractPlaceId. rewrite Hn.
    destruct nm as [|c r]; [now destruct (raw_id place) as [[|]|]|].
    unfold startsWith.
    destruct (String.prefix "places/" (String c r)) eqn:E.
    + apply prefix_split in E. now destruct (Hno _ E).
    + now destruct (raw_id place) as [[|]|].
  - intro Hn. unfold extractPlaceId. rewrite Hn. now destruct (raw_id place) as [[|]|].
  - intros text Ht Hne. rewrite Ht. destruct text; [now destruct Hne | reflexivity].
  - intros nm [Hd|Hd] Hn Hne; rewrite Hd, Hn;
      (destruct nm; [now destruct Hne | reflexivity]).
  - unfold string_of_nat.
    replace (Z.of_nat (k + 1)) with (Z.of_nat k + 1) by lia.
    intros [Hd|Hd] [Hn|Hn]; rewrite Hd, Hn; reflexivity.
  - now destruct (formattedAddress place) as [[|]|].
  - intros Hl. now rewrite Hl.
  - intros l Hl. rewrite Hl. split; [now destruct (latitude l) | now destruct (longitude l)].
  - reflexivity.
Qed.

Lemma candidate_derivation_witness :
  exists c d e,
    nth_error (transformAll [cafe; nameless; versioned] 0) 0 = Some c /\
    nth_error (transformAll [cafe; nameless; versioned] 0) 1 = Some d /\
    nth_error (transformAll [cafe; nameless; versioned] 0) 2 = Some e /\
    place_id c = "abc" /\ name c = "Cafe 123" /\
    place_id d = "xyz" /\ name d = "Candidate 2" /\
    formatted_address d = EmptyString /\ lat d = 0%float /\ lng d = 0%float /\
    types d = [] /\
    place_id e = "xyz" /\ name e = "v1/places/abc".
Proof.
  destruct (candidate_derivation [cafe; nameless; versioned] 0 cafe eq_refl)
    as (c & Hc & Hid & _ & _ & Hname & _).
  destruct (candidate_derivation [cafe; nameless; versioned] 1 nameless eq_refl)
    as (d & Hd & _ & _ & Hraw & _ & _ & Hsynth & Haddr & Hloc & _ & Htypes).
  destruct (candidate_derivation [cafe; nameless; versioned] 2 versioned eq_refl)
    as (e & He & _ & Hother & _ & _ & Hrawname & _).
  exists c, d, e. split; [exact Hc|]. split; [exact Hd|]. split; [exact He|].
  split; [apply Hid; reflexivity|].
  split; [apply Hname; [reflexivity | discriminate]|].
  split; [exact (Hraw eq_refl)|].
  split; [apply Hsynth; left; reflexivity|].
  split; [exact Haddr|].
  split; [exact (proj1 (Hloc eq_refl))|].
  split; [exact (proj2 (Hloc eq_refl))|].
  split; [exact Htypes|].
  split.
  - apply (Hother "v1/places/abc"); [reflexivity|]. intros rest H. discriminate.
  - apply (Hrawname "v1/places/abc"); [now left | reflexivity | discriminate].
Defined.

(** C10: an HTTP-ok response whose body is [null], has no [places] field or
    has an empty one is a result, unresolved and without candidates, not
    an error; the preferred routing path with no first route throws
    instead. *)
Theorem empty_search_is_a_result (env : Env) (query : string)
  (maxResults : option Z) (languageCode : option string)
  (renv : RoutesService.Env) (params : RoutesService.OptimizeRouteParams) :
  (forall resp payload,
      endpoint env (request_of env query maxResults languageCode) = Responded resp ->
      ok resp = true ->
      body resp = JsonValue payload ->
      (payload = None \/
       exists p, payload = Some p /\ (places p = None \/ places p = Some [])) ->
      search env query maxResults languageCode
      = ([FetchPlaces (request_of env query maxResults languageCode)],
         inr {| resolved := false; candidates := [] |})) /\
  (forall resp payload,
      RoutesService.routes_endpoint renv (RoutesService.routesRequest renv params)
      = Responded resp ->
      ok resp = true ->
      body resp = JsonValue payload ->
      (payload = None \/
       exists p, payload = Some p /\
                 (RoutesService.routes p = None \/ RoutesService.routes p = Some [])) ->
      outcome (RoutesService.computeRoutesPreferred renv params)
      = inl (JsError "Routes Preferred API returned no routes")).
Proof.
  split.
  - intros resp payload Hresp Hok Hbody Hempty.
    rewrite (search_ok _ _ _ _ _ _ Hresp Hok Hbody).
    destruct Hempty as [->|(p & -> & [Hp|Hp])]; unfold places_sent;
      rewrite ?Hp; reflexivity.
  - intros resp payload Hresp Hok Hbody Hempty.
    unfold RoutesService.computeRoutesPreferred, RoutesService.fetch_routes.
    rewrite Hresp. destruct resp as [k st txt b]. simpl in Hok, Hbody. subst k b.
    simpl. destruct Hempty as [->|(p & -> & [Hp|Hp])]; simpl; rewrite ?Hp;
      reflexivity.
Qed.

Lemma empty_search_is_a_result_witness :
  outcome (search (finds None) "nowhere" None None)
  = inr {| resolved := false; candidates := [] |} /\
  outcome (search (finds (Some [])) "nowhere" None None)
  = inr {| resolved := false; candidates := [] |} /\
  outcome (RoutesService.computeRoutesPreferred
             (RouteScenarios.world
                (RouteScenarios.http_ok (RoutesService.mkRoutesPayload None (Some [])))
                RouteScenarios.unreachable)
             RouteScenarios.two_stops)
  = inl (JsError "Routes Preferred API returned no routes").
Proof.
  split; [|split].
  - destruct (empty_search_is_a_result (finds None) "nowhere" None None
                RouteScenarios.preferred_up RouteScenarios.two_stops) as (H & _).
    rewrite (H _ _ eq_refl eq_refl eq_refl); [reflexivity|].
    right. eexists. split; [reflexivity|]. now left.
  - destruct (empty_search_is_a_result (finds (Some [])) "nowhere" None None
                RouteScenarios.preferred_up RouteScenarios.two_stops) as (H & _).
    rewrite (H _ _ eq_refl eq_refl eq_refl); [reflexivity|].
    right. eexists. split; [reflexivity|]. now right.
  - destruct (empty_search_is_a_result (finds None) "nowhere" None None
                (RouteScenarios.world
                   (RouteScenarios.http_ok (RoutesService.mkRoutesPayload None (Some [])))
                   RouteScenarios.unreachable)
                RouteScenarios.two_stops) as (_ & H).
    apply (H _ _ eq_refl eq_refl eq_refl).
    right. eexists. split; [reflexivity|]. now right.
Defined.

End PlacesSpec.

(* ------------------------------------------------------------------ *)
(** ** What a surfaced error says *)

Module ErrorSpec.
Import StringFacts RoutesFacts PlacesFacts.
Import RoutesVocabulary PlacesVocabulary RouteScenarios.

(** C8, as stated: every surfaced error quotes the provider's message when
    the response body has one, the fallback routing error included.  Both
    routing backends answer 403 with a body that says "API key invalid";
    the error that reaches the caller is the fallback's and quotes the
    status text only. *)
Lemma fallback_error_omits_provider_message :
  exists resp data msg,
    RoutesService.directions_endpoint both_refuse
      (RoutesService.directionsRequest both_refuse two_stops) = Responded resp /\
    body resp = JsonValue (Some data) /\
    RoutesService.data_error_message data = Some "API key invalid" /\
    outcome (RoutesService.optimizeRoute both_refuse two_stops) = inl (JsError msg) /\
    msg = "Directions API HTTP error 403: Forbidden" /\
    ~ occurs_in "API key invalid" msg.
Proof.
  do 3 eexists. repeat split; try reflexivity.
  intro H. apply includes_spec in H. vm_compute in H. discriminate.
Qed.

(** C8, amended: when the place-search backend answers with a non-success
    status, [search] throws an error whose message quotes the provider's
    message if the body parses and holds a non-empty one, the HTTP status
    text otherwise, and the HTTP status code.  When the preferred path has
    failed and the fallback backend answers with a non-success status, the
    error that [optimizeRoute] throws names the HTTP status code and the
    status text; when the fallback answers HTTP-ok with a status field other
    than ["OK"], the error names that status field, or ["UNKNOWN"]. *)
Theorem surfaced_error_messages (env : TextSearchService.Env) (query : string)
  (maxResults : option Z) (languageCode : option string)
  (renv : RoutesService.Env) (params : RoutesService.OptimizeRouteParams) :
  (forall resp,
      TextSearchService.endpoint env (request_of env query maxResults languageCode)
      = Responded resp ->
      ok resp = false ->
      exists msg,
        outcome (TextSearchService.search env query maxResults languageCode)
        = inl (JsError msg) /\
        msg = "Places text search failed: "
              ++ upstream_message TextSearchService.error_message resp
              ++ " (HTTP " ++ string_of_nat (status resp) ++ ")" /\
        occurs_in (upstream_message TextSearchService.error_message resp) msg /\
        occurs_in (string_of_nat (status resp)) msg) /\
  (forall e resp,
      outcome (RoutesService.computeRoutesPreferred renv params) = inl e ->
      RoutesService.directions_endpoint renv
        (RoutesService.directionsRequest renv params) = Responded resp ->
      ok resp = false ->
      outcome (RoutesService.optimizeRoute renv params)
      = inl (JsError ("Directions API HTTP error " ++ string_of_nat (status resp)
                      ++ ": " ++ statusText resp))) /\
  (forall e resp data,
      outcome (RoutesService.computeRoutesPreferred renv params) = inl e ->
      RoutesService.directions_endpoint renv
        (RoutesService.directionsRequest renv params) = Responded resp ->
      ok resp = true ->
      body resp = JsonValue (Some data) ->
      RoutesService.data_status data <> Some "OK" ->
      outcome (RoutesService.optimizeRoute renv params)
      = inl (JsError ("Directions API error: "
                      ++ or_string (RoutesService.data_status data) "UNKNOWN"))).
Proof.
  split; [|split].
  - intros resp Hresp Hok. eexists.
    split; [exact (search_http_error _ _ _ _ _ Hresp Hok)|].
    split; [reflexivity|]. split.
    + now exists "Places text search failed: ",
                 (" (HTTP " ++ string_of_nat (status resp) ++ ")").
    + exists ("Places text search failed: "
              ++ upstream_message TextSearchService.error_message resp ++ " (HTTP "),
             ")".
      now rewrite !append_assoc.
  - intros e resp He Hresp Hok.
    rewrite (optimizeRoute_falls_back renv params e He).
    unfold outcome at 1. cbn [snd].
    unfold RoutesService.computeDirectionsFallback, RoutesService.fetch_directions.
    rewrite Hresp. destruct resp as [k st txt b]. simpl in Hok. subst k.
    reflexivity.
  - intros e resp data He Hresp Hok Hbody Hst.
    rewrite (optimizeRoute_falls_back renv params e He).
    unfold outcome at 1. cbn [snd].
    unfold RoutesService.computeDirectionsFallback, RoutesService.fetch_directions.
    rewrite Hresp. destruct resp as [k st txt b]. simpl in Hok, Hbody. subst k b.
    simpl. destruct (RoutesService.data_status data) as [s|]; [|reflexivity].
    destruct (String.eqb_spec s "OK") as [->|_]; [now destruct Hst | reflexivity].
Qed.

Lemma surfaced_error_messages_witness :
  (exists msg,
      outcome (TextSearchService.search PlaceScenarios.forbidden "bad" None None)
      = inl (JsError msg) /\
      msg = "Places text search failed: API key invalid (HTTP 403)" /\
      occurs_in "API key invalid" msg /\ occurs_in "403" msg) /\
  outcome (RoutesService.optimizeRoute both_refuse two_stops)
  = inl (JsError "Directions API HTTP error 403: Forbidden").
Proof.
  destruct (surfaced_error_messages PlaceScenarios.forbidden "bad" None None
              both_refuse two_stops) as (Hplaces & Hhttp & _).
  split.
  - exact (Hplaces _ eq_refl eq_refl).
  - exact (Hhttp (JsError "Routes Preferred API error: API key invalid (HTTP 403)")
             _ eq_refl eq_refl eq_refl).
Defined.

End ErrorSpec.

(* ------------------------------------------------------------------ *)
(** ** The text of an integer *)

Module IntegerText.
Import MoreVocabulary StringFacts DoubleFacts NumeralFacts.

#[local] Arguments is_digit : simpl never.
#[local] Arguments in_class : simpl never.

Lemma take_digits_uint (d : Decimal.uint) (rest : string) :
  (forall c r, rest = String c r -> is_digit c = false) ->
  take_digits (NilEmpty.string_of_uint d ++ rest) = (uint_digits d, rest).
Proof.
  intro Hrest. induction d; cbn [NilEmpty.string_of_uint append uint_digits];
    try (cbn [take_digits];
         match goal with
         | |- context [is_digit ?c] => change (is_digit c) with true
         end; cbv iota; rewrite IHd; reflexivity).
  destruct rest as [|c r]; [reflexivity|].
  cbn [take_digits]. now rewrite (Hrest c r eq_refl).
Qed.

Lemma uint_in_class (d : Decimal.uint) :
  all_chars in_class (NilEmpty.string_of_uint d) = true.
Proof. induction d; cbn [NilEmpty.string_of_uint all_chars]; auto. Qed.

Lemma uint_integer_chars (d : Decimal.uint) :
  all_chars integer_char (NilEmpty.string_of_uint d) = true.
Proof. induction d; cbn [NilEmpty.string_of_uint all_chars]; auto. Qed.

Lemma fold_uint_acc (d : Decimal.uint) (acc : positive) :
  fold_left (fun a x => 10 * a + x) (uint_digits d) (Z.pos acc)
  = Z.pos (Pos.of_uint_acc d acc).
Proof.
  revert acc; induction d; intro acc;
    cbn [uint_digits fold_left Pos.of_uint_acc]; try reflexivity;
    rewrite <- IHd; f_equal; lia.
Qed.

Lemma digits_value_uint (d : Decimal.uint) :
  digits_value (uint_digits d) = Z.of_N (Pos.of_uint d).
Proof.
  unfold digits_value.
  induction d; cbn [uint_digits fold_left Pos.of_uint]; try reflexivity;
    try exact IHd;
    match goal with
    | |- fold_left _ _ (10 * 0 + ?k) = _ =>
        change (10 * 0 + k) with k; apply fold_uint_acc
    end.
Qed.

Lemma string_of_uint_nonempty (d : Decimal.uint) :
  d <> Decimal.Nil -> NilEmpty.string_of_uint d <> EmptyString.
Proof. destruct d; intro H; try discriminate. now destruct H. Qed.

(** The text of a positive number, read back digit by digit. *)
Lemma parseFloat_pos (p : positive) :
  parseFloat (NilEmpty.string_of_uint (Pos.to_uint p)) = to_double (Z.pos p) 1.
Proof.
  unfold parseFloat.
  rewrite <- (append_empty_r (NilEmpty.string_of_uint (Pos.to_uint p))).
  rewrite take_digits_uint by discriminate.
  rewrite digits_value_uint, Unsigned.of_to.
  pose proof (Unsigned.to_uint_nonnil p) as Hne.
  destruct (Pos.to_uint p); try reflexivity. now destruct Hne.
Qed.

Lemma string_of_pos (p : positive) :
  string_of_Z (Z.pos p) = NilEmpty.string_of_uint (Pos.to_uint p).
Proof.
  unfold string_of_Z. cbn [Z.to_int NilZero.string_of_int].
  unfold NilZero.string_of_uint.
  pose proof (Unsigned.to_uint_nonnil p) as Hne.
  destruct (Pos.to_uint p); try reflexivity. now destruct Hne.
Qed.

Lemma string_of_neg (p : positive) :
  string_of_Z (Z.neg p) = String "-" (NilEmpty.string_of_uint (Pos.to_uint p)).
Proof.
  unfold string_of_Z. cbn [Z.to_int NilZero.string_of_int].
  unfold NilZero.string_of_uint.
  pose proof (Unsigned.to_uint_nonnil p) as Hne.
  destruct (Pos.to_uint p); try reflexivity. now destruct Hne.
Qed.

Lemma regex_exec_pos (p : positive) (post : string) :
  regex_exec (NilEmpty.string_of_uint (Pos.to_uint p) ++ String "s" post)
  = Some (NilEmpty.string_of_uint (Pos.to_uint p)).
Proof.
  apply regex_exec_run; [|apply uint_in_class].
  apply string_of_uint_nonempty, Unsigned.to_uint_nonnil.
Qed.

Lemma string_of_Z_nonempty (z : Z) : string_of_Z z <> EmptyString.
Proof.
  destruct z as [|p|p]; [discriminate| |].
  - rewrite string_of_pos.
    apply string_of_uint_nonempty, Unsigned.to_uint_nonnil.
  - rewrite string_of_neg. discriminate.
Qed.

Lemma string_of_Z_integer_chars (z : Z) :
  all_chars integer_char (string_of_Z z) = true.
Proof.
  destruct z as [|p|p]; [reflexivity| |].
  - rewrite string_of_pos. apply uint_integer_chars.
  - rewrite string_of_neg. cbn [all_chars]. now rewrite uint_integer_chars.
Qed.

(** Characters outside the class before a match are skipped. *)
Lemma regex_exec_skip (pre s : string) :
  all_chars outside_class pre = true ->
  regex_exec (pre ++ s) = regex_exec s.
Proof.
  induction pre as [|c r IH]; intro H; [reflexivity|].
  cbn [all_chars] in H. apply andb_true_iff in H as [Hc Hr].
  cbn [append]. rewrite regex_exec_unfold.
  unfold match_here. cbn [span_class].
  unfold outside_class in Hc. apply negb_true_iff in Hc. rewrite Hc.
  now apply IH.
Qed.

(** What [Math.round(parseFloat(g))] can be: a whole number that is not
    negative, plus infinity, or [NaN]. *)
Lemma Math_round_parseFloat (g : string) :
  match Math_round (parseFloat g) with
  | JNum z => 0 <= z
  | JInfinity negative => negative = false
  | JNaN => True
  end.
Proof.
  assert (forall n d, 0 < d ->
            match Math_round (to_double n d) with
            | JNum z => 0 <= z
            | JInfinity negative => negative = false
            | JNaN => True
            end) as Hround.
  { intros n d Hd. pose proof (round_nonneg n d _ Hd eq_refl) as H.
    destruct (Math_round (to_double n d)); [exact H | exact H | exact I]. }
  unfold parseFloat. destruct (take_digits g) as [ip r1].
  assert (match Math_round (match ip with
                            | [] => NotANumber
                            | _ :: _ => to_double (digits_value ip) 1
                            end) with
          | JNum z => 0 <= z
          | JInfinity negative => negative = false
          | JNaN => True
          end) as Hint.
  { destruct ip; [exact I | apply Hround; lia]. }
  destruct r1 as [|c r2]; [exact Hint|].
  destruct c as [[] [] [] [] [] [] [] []]; try exact Hint.
  destruct (take_digits r2) as [fp rest].
  assert (0 < 10 ^ Z.of_nat (length fp)) as Hd by (apply Z.pow_pos_nonneg; lia).
  unfold decimal. destruct ip, fp; try exact I; now apply Hround.
Qed.

End IntegerText.

(* ------------------------------------------------------------------ *)
(** ** Durations, further *)

Module DurationFacts.
Import RoutesService MoreVocabulary StringFacts DoubleFacts NumeralFacts IntegerText.

Lemma parse_unfold (d : string) :
  parseDurationSeconds (Some d) =
  match regex_exec d with
  | None => JNum 0
  | Some g => Math_round (parseFloat g)
  end.
Proof. destruct d; reflexivity. Qed.

(** [`${z}s`] read back, for an integer below 2^53 in magnitude: the sign
    is lost, the magnitude kept. *)
Lemma parse_integer_text (z : Z) :
  Z.abs z < 2 ^ 53 ->
  parseDurationSeconds (Some (number_text z ++ "s")) = JNum (Z.abs z).
Proof.
  intro Hz. rewrite number_text_small by exact Hz.
  rewrite parse_unfold. destruct z as [|p|p].
  - reflexivity.
  - rewrite string_of_pos, regex_exec_pos, parseFloat_pos.
    apply round_integer_double. lia.
  - rewrite string_of_neg. cbn [append]. rewrite regex_exec_unfold.
    change (match_here (String "-" (NilEmpty.string_of_uint (Pos.to_uint p) ++ "s")))
      with (@None string).
    rewrite regex_exec_pos, parseFloat_pos.
    apply round_integer_double. lia.
Qed.

End DurationFacts.

Module DurationExtras.
Import RoutesService Vocabulary MoreVocabulary.
Import StringFacts DoubleFacts NumeralFacts IntegerText DurationFacts.

(** From 10^21 on a number is written with an exponent, and the pattern
    then finds the digits of the exponent. *)
Example text_of_1e21 : number_text (10 ^ 21) = "1e+21".
Proof. vm_compute. reflexivity. Qed.

Example parse_text_of_1e21 :
  parseDurationSeconds (Some (number_text (10 ^ 21) ++ "s")) = JNum 21.
Proof. vm_compute. reflexivity. Qed.

(** Between 2^53 and 10^21 it is written with the digits that tell its
    double from the next one, and zeros. *)
Example text_of_2_64 : number_text (2 ^ 64) = "18446744073709552000".
Proof. vm_compute. reflexivity. Qed.

(** X1: the text of an integer below 2^53 in magnitude followed by ["s"],
    as the fallback path writes a leg's seconds, parses back to the
    magnitude of that integer; a non-negative number of seconds survives
    the round trip unchanged. *)
Theorem duration_text_round_trip (z : Z) :
  Z.abs z < 2 ^ 53 ->
  parseDurationSeconds (Some (number_text z ++ "s")) = JNum (Z.abs z) /\
  (0 <= z -> parseDurationSeconds (Some (number_text z ++ "s")) = JNum z).
Proof.
  intro Hz. split; [now apply parse_integer_text|].
  intro H. rewrite parse_integer_text by exact Hz. f_equal. lia.
Qed.

Lemma duration_text_round_trip_witness :
  parseDurationSeconds (Some (number_text 750 ++ "s")) = JNum 750.
Proof. apply (proj2 (duration_text_round_trip 750 ltac:(reflexivity))). lia. Defined.

(** X2: the pattern is not anchored: text before the number that holds no
    digit and no dot is skipped, and whatever follows the ['s'] is ignored;
    the digits, when they denote a number below 2^53, are read as that
    number. *)
Theorem duration_found_anywhere (pre post : string) (ip : list nat) :
  all_chars outside_class pre = true -> are_digits ip -> ip <> [] ->
  Z.of_nat (positional 0 ip) < 2 ^ 53 ->
  parseDurationSeconds (Some (pre ++ numeral ip ++ String "s" post))
  = JNum (Z.of_nat (positional 0 ip)).
Proof.
  intros Hpre Hd Hne Hlt.
  rewrite parse_unfold, regex_exec_skip by exact Hpre.
  rewrite regex_exec_run.
  - now apply Math_round_integer.
  - destruct ip; [now destruct Hne | discriminate].
  - now apply numeral_in_class.
Qed.

Lemma duration_found_anywhere_witness :
  parseDurationSeconds (Some "PT90s!") = JNum 90.
Proof.
  apply (duration_found_anywhere "PT" "!" [9; 0]%nat);
    [reflexivity | repeat constructor; lia | discriminate | reflexivity].
Defined.

(** X3: a parsed duration is never negative: whatever the string, the
    result is [NaN], plus infinity, or a whole number of seconds that is at
    least 0; it is never minus infinity. *)
Theorem duration_never_negative (d : option string) :
  (forall z, parseDurationSeconds d = JNum z -> 0 <= z) /\
  parseDurationSeconds d <> JInfinity true.
Proof.
  assert (match parseDurationSeconds d with
          | JNum z => 0 <= z
          | JInfinity negative => negative = false
          | JNaN => True
          end) as H.
  { destruct d as [s|]; [|cbn; lia].
    rewrite parse_unfold.
    destruct (regex_exec s) as [g|]; [apply Math_round_parseFloat | cbn; lia]. }
  split.
  - intros z Hz. now rewrite Hz in H.
  - intro Hinf. rewrite Hinf in H. discriminate.
Qed.

Lemma duration_never_negative_witness :
  parseDurationSeconds (Some "-12.6s") = JNum 13 /\ 0 <= 13.
Proof.
  split; [reflexivity|].
  apply (proj1 (duration_never_negative (Some "-12.6s")) 13). reflexivity.
Defined.

End DurationExtras.

(* ------------------------------------------------------------------ *)
(** ** The two routing paths, in full *)

Module PathFacts.
Import RoutesService RoutesVocabulary MoreVocabulary.
Import DoubleFacts AssemblyFacts RoutesFacts DurationFacts.



(** The preferred path on an answered request, as a pure assembly. *)
Lemma preferred_run (env : Env) (params : OptimizeRouteParams)
  (route : PreferredRoute) :
  preferred_answers env params route ->
  outcome (computeRoutesPreferred env params)
  = exc_bind
      (mapLegs (legs_sent (route_legs route))
         (orderPoints params
            (order_in_use (waypoints params)
               (optimizedIntermediateWaypointIndex route))))
      (fun legs =>
         exc_bind
           (normalizeAll
              (orderPoints params
                 (order_in_use (waypoints params)
                    (optimizedIntermediateWaypointIndex route))))
           (fun ordered =>
              inr {| polyline := or_string (encodedPolyline route) EmptyString;
                     ordered := ordered;
                     distance_meters :=
                       or_number (route_distanceMeters route) (sumDistances legs);
                     duration_seconds := parseDurationSeconds (route_duration route);
                     legs := legs;
                     source := routes_preferred |})).
Proof.
  intros (resp & payload & rest & Hresp & Hok & Hbody & Hroutes).
  unfold computeRoutesPreferred, fetch_routes. rewrite Hresp.
  destruct resp as [k st txt b]. simpl in Hok, Hbody. subst k b. simpl.
  rewrite Hroutes. simpl. unfold order_in_use, legs_sent.
  destruct (mapLegs _ _) as [t|legs]; simpl; [reflexivity|].
  destruct (normalizeAll _) as [t|pts]; reflexivity.
Qed.

Lemma fallback_run (env : Env) (params : OptimizeRouteParams)
  (route : DirectionsRoute) :
  fallback_answers env params route ->
  outcome (computeDirectionsFallback env params)
  = exc_bind
      (mapLegs (map directionsLeg (legs_sent (directions_legs route)))
         (orderPoints params (order_in_use (waypoints params) (waypoint_order route))))
      (fun legs =>
         exc_bind
           (normalizeAll
              (orderPoints params
                 (order_in_use (waypoints params) (waypoint_order route))))
           (fun ordered =>
              inr {| polyline := or_string (overview_points route) EmptyString;
                     ordered := ordered;
                     distance_meters := sumDistances legs;
                     duration_seconds := sumDurations legs;
                     legs := legs;
                     source := directions_fallback |})).
Proof.
  intros (resp & data & rest & Hresp & Hok & Hbody & Hst & Hroutes).
  unfold computeDirectionsFallback, fetch_directions. rewrite Hresp.
  destruct resp as [k st txt b]. simpl in Hok, Hbody. subst k b. simpl.
  rewrite Hst, Hroutes. simpl. unfold order_in_use, legs_sent.
  destruct (mapLegs _ _) as [t|legs]; simpl; [reflexivity|].
  destruct (normalizeAll _) as [t|pts]; reflexivity.
Qed.

(** Which path a result of [optimizeRoute] came from, by its tag. *)
Lemma optimizeRoute_origin (env : Env) (params : OptimizeRouteParams)
  (r : OptimizeRouteResult) :
  outcome (optimizeRoute env params) = inr r ->
  (source r = routes_preferred /\
   exists route,
     preferred_answers env params route /\
     outcome (computeRoutesPreferred env params) = inr r)
  \/
  (source r = directions_fallback /\
   exists route,
     fallback_answers env params route /\
     outcome (computeDirectionsFallback env params) = inr r).
Proof.
  intro H.
  destruct (outcome (computeRoutesPreferred env params)) as [e|r'] eqn:Hp.
  - rewrite (optimizeRoute_falls_back env params e Hp) in H. simpl in H.
    destruct (fallback_inversion env params r H) as (route & Ha & _ & _ & Hs).
    right. split; [exact Hs|]. now exists route.
  - rewrite (optimizeRoute_returns env params r' Hp), Hp in H.
    inversion H; subst r'; clear H.
    destruct (preferred_inversion env params r Hp) as (route & Ha & _ & _ & Hs).
    left. split; [exact Hs|]. now exists route.
Qed.












(** The points and legs behind a result: one sequence of points, from which
    both the legs and the ordered points were made. *)
Lemma result_assembly (env : Env) (params : OptimizeRouteParams)
  (r : OptimizeRouteResult) :
  outcome (optimizeRoute env params) = inr r ->
  exists api order,
    mapLegs api (orderPoints params order) = inr (legs r) /\
    normalizeAll (orderPoints params order) = inr (ordered r).
Proof.
  intro H.
  destruct (optimizeRoute_origin env params r H)
    as [(_ & route & Ha & Hr) | (_ & route & Ha & Hr)].
  - destruct (preferred_inversion env params r Hr) as (route' & _ & Hl & Hn & _).
    eexists _, _. split; [exact Hl | exact Hn].
  - rewrite (fallback_run env params route Ha) in Hr.
    destruct (mapLegs _ _) as [t|legs] eqn:El; simpl in Hr; [discriminate|].
    destruct (normalizeAll _) as [t|pts] eqn:En; simpl in Hr; [discriminate|].
    inversion Hr; subst r; clear Hr. cbn [RoutesService.legs ordered].
    eexists _, _. split; [exact El | exact En].
Qed.

Lemma labelFrom_nth (total idx : Z) (pts : list RoutePointInput) (k : nat) :
  nth_error (labelFrom total idx pts) k
  = option_map (labelPoint total (idx + Z.of_nat k)) (nth_error pts k).
Proof.
  revert idx k; induction pts as [|p r IH]; intros idx k.
  - now destruct k.
  - destruct k as [|k]; cbn [labelFrom nth_error option_map].
    + now rewrite Z.add_0_r.
    + rewrite IH. now replace (idx + 1 + Z.of_nat k) with (idx + Z.of_nat (S k)) by lia.
Qed.

Lemma labelled_nth (pts : list RoutePointInput) (k : nat) :
  nth_error (labelled pts) k
  = option_map (labelPoint (Z.of_nat (length pts)) (Z.of_nat k)) (nth_error pts k).
Proof. unfold labelled. now rewrite labelFrom_nth. Qed.

Lemma defaultLabel_last (index total : Z) :
  0 < index -> index = total - 1 -> defaultLabel index total = "Destination".
Proof.
  intros Hpos ->. unfold defaultLabel.
  destruct (Z.eqb_spec (total - 1) 0) as [E|_]; [lia|].
  now rewrite Z.eqb_refl.
Qed.

Lemma defaultLabel_interior (i : nat) (total : Z) :
  (0 < i)%nat -> Z.of_nat i < total - 1 ->
  defaultLabel (Z.of_nat i) total = "Stop " ++ string_of_nat i.
Proof.
  intros Hpos Hlt. unfold defaultLabel, string_of_nat.
  destruct (Z.eqb_spec (Z.of_nat i) 0) as [E|_]; [lia|].
  destruct (Z.eqb_spec (Z.of_nat i) (total - 1)) as [E|_]; [lia | reflexivity].
Qed.

(** A slot that holds no point makes the normalisation throw. *)
Lemma normalize_hole (total idx : Z) (slots : list (option RoutePointInput)) :
  In None slots ->
  map_indexed (fun point i => normalizePoint point i total) slots idx
  = inl (type_error "label").
Proof.
  revert idx; induction slots as [|slot r IH]; intros idx H; [now destruct H|].
  cbn [map_indexed]. destruct slot as [p|]; [|reflexivity].
  destruct H as [H|H]; [discriminate|].
  cbn [normalizePoint exc_bind]. now rewrite (IH _ H).
Qed.

Lemma orderPoints_hole (params : OptimizeRouteParams) (order : list Z) (idx : Z) :
  In idx order ->
  idx < 0 \/ Z.of_nat (length (waypoints params)) <= idx ->
  normalizeAll (orderPoints params order) = inl (type_error "label").
Proof.
  intros Hin Hout. apply normalize_hole. unfold orderPoints.
  right. apply in_or_app. left. apply in_map_iff. exists idx.
  split; [|exact Hin]. unfold index.
  destruct (Z.ltb_spec idx 0) as [_|Hge]; [reflexivity|].
  apply nth_error_None. lia.
Qed.

End PathFacts.

(* ------------------------------------------------------------------ *)
(** ** Further properties of RoutesService *)

Module RoutesExtras.
Import RoutesService Vocabulary RoutesVocabulary MoreVocabulary.
Import RouteScenarios MoreScenarios.
Import StringFacts AssemblyFacts RoutesFacts IntegerText DurationFacts PathFacts.





(** X6: the ordered points of every result.  There are at least two; the
    first is the request's origin, labelled with its own label or
    ["Origin"]; the last is the request's destination, labelled with its
    own label or ["Destination"]; every point between them, at position
    [i], is one of the request's waypoints, labelled with its own label or
    ["Stop i"].  An empty label counts as none. *)
Theorem ordered_labels (env : Env) (params : OptimizeRouteParams)
  (r : OptimizeRouteResult) :
  outcome (optimizeRoute env params) = inr r ->
  (2 <= length (ordered r))%nat /\
  nth_error (ordered r) 0
  = Some {| o_label := or_string (label (origin params)) "Origin";
            o_lat := lat (origin params);
            o_lng := lng (origin params) |} /\
  nth_error (ordered r) (length (ordered r) - 1)
  = Some {| o_label := or_string (label (destination params)) "Destination";
            o_lat := lat (destination params);
            o_lng := lng (destination params) |} /\
  forall i p,
    (0 < i < length (ordered r) - 1)%nat ->
    nth_error (ordered r) i = Some p ->
    exists w,
      In w (waypoints params) /\
      p = {| o_label := or_string (label w) ("Stop " ++ string_of_nat i);
             o_lat := lat w;
             o_lng := lng w |}.
Proof.
  intro H.
  destruct (result_assembly env params r H) as (api & order & _ & Hn).
  destruct (normalizeAll_orderPoints_inv _ _ _ Hn) as (pts & Hsel & ->).
  set (all := origin params :: pts ++ [destination params]).
  assert (length all = S (S (length pts))) as Hlen
      by (unfold all; cbn [length]; rewrite length_app; cbn [length]; lia).
  assert (length (labelled all) = S (S (length pts))) as Hlen'
      by (unfold labelled; now rewrite labelFrom_length).
  rewrite Hlen'.
  split; [lia|]. split; [reflexivity|]. split.
  - rewrite labelled_nth, Hlen.
    replace (S (S (length pts)) - 1)%nat with (S (length pts)) by lia.
    unfold all. cbn [nth_error]. rewrite nth_error_app2 by lia.
    rewrite Nat.sub_diag. cbn [nth_error option_map].
    unfold labelPoint. now rewrite defaultLabel_last by lia.
  - intros i p Hi Hp. rewrite labelled_nth, Hlen in Hp.
    destruct i as [|k]; [lia|]. unfold all in Hp. cbn [nth_error] in Hp.
    rewrite nth_error_app1 in Hp by lia.
    destruct (nth_error pts k) as [w|] eqn:Ew; [|discriminate].
    cbn [option_map] in Hp. injection Hp as <-.
    exists w. split.
    + clear - Hsel Ew. revert k Ew.
      induction Hsel as [|idx pt order pts [_ Hnth] _ IH]; intros k Ew;
        [now destruct k|].
      destruct k as [|k]; cbn [nth_error] in Ew.
      * inversion Ew; subst. exact (nth_error_In _ _ Hnth).
      * exact (IH k Ew).
    + unfold labelPoint.
      change (Z.pos (Pos.of_succ_nat k)) with (Z.of_nat (S k)).
      now rewrite defaultLabel_interior by lia.
Qed.

Lemma ordered_labels_witness :
  exists r,
    outcome (optimizeRoute preferred_down bare_trip) = inr r /\
    map o_label (ordered r) = ["Origin"; "Stop 1"; "Stop 2"; "Destination"] /\
    nth_error (ordered r) 0
    = Some {| o_label := "Origin"; o_lat := 1; o_lng := 2 |}.
Proof.
  eexists. split; [reflexivity|]. split; [reflexivity|].
  exact (proj1 (proj2 (ordered_labels preferred_down bare_trip _ eq_refl))).
Defined.

(** X7: legs and ordered points of a result agree: while leg [i] has both
    its end points among the ordered points, it starts with the label of
    ordered point [i] and ends with the label of ordered point [i + 1]. *)
Theorem leg_labels_follow_ordered (env : Env) (params : OptimizeRouteParams)
  (r : OptimizeRouteResult) (i : nat) (leg : RouteLeg) (a b : OrderedPoint) :
  outcome (optimizeRoute env params) = inr r ->
  nth_error (legs r) i = Some leg ->
  nth_error (ordered r) i = Some a ->
  nth_error (ordered r) (S i) = Some b ->
  start_label leg = o_label a /\ end_label leg = o_label b.
Proof.
  intros H Hleg Ha Hb.
  destruct (result_assembly env params r H) as (api & order & Hl & Hn).
  destruct (normalize_defined_inv _ _ _ _ Hn) as (all & Hall).
  rewrite Hall in Hl, Hn. rewrite normalizeAll_defined in Hn.
  inversion Hn as [Hord]. rewrite <- Hord in Ha, Hb.
  rewrite labelled_nth in Ha, Hb.
  destruct (nth_error all i) as [pa|] eqn:Ea; [|discriminate].
  destruct (nth_error all (S i)) as [pb|] eqn:Eb; [|discriminate].
  cbn [option_map] in Ha, Hb. inversion Ha; subst a. inversion Hb; subst b.
  assert (exists x, nth_error api i = Some x) as [x Hx].
  { destruct (nth_error api i) as [x|] eqn:E; [now exists x|].
    apply nth_error_None in E. apply map_indexed_length in Hl.
    assert (nth_error (legs r) i <> None) as Hsome by congruence.
    apply nth_error_Some in Hsome. lia. }
  destruct (map_indexed_nth _ _ _ _ Hl i x Hx) as (out & Hout & Hm).
  rewrite Hleg in Hout. inversion Hout; subst out; clear Hout.
  unfold mapLeg in Hm.
  replace (0 + Z.of_nat i + 1) with (Z.of_nat (S i)) in Hm by lia.
  replace (0 + Z.of_nat i) with (Z.of_nat i) in Hm by lia.
  rewrite !point_at_of_nat, !nth_error_map, Ea, Eb in Hm.
  cbn [option_map or_point normalizePoint exc_bind] in Hm.
  inversion Hm; subst leg. rewrite length_map.
  cbn [start_label end_label o_label labelPoint]. split; reflexivity.
Qed.

Lemma leg_labels_follow_ordered_witness :
  exists r leg a b,
    outcome (optimizeRoute preferred_up two_stops) = inr r /\
    nth_error (legs r) 1 = Some leg /\
    nth_error (ordered r) 1 = Some a /\
    nth_error (ordered r) 2 = Some b /\
    start_label leg = o_label a /\ end_label leg = o_label b /\
    o_label a = "Stop B" /\ o_label b = "Stop A".
Proof.
  do 4 eexists.
  split; [reflexivity|]. split; [reflexivity|].
  split; [reflexivity|]. split; [reflexivity|].
  pose proof (leg_labels_follow_ordered preferred_up two_stops _ 1 _ _ _
                eq_refl eq_refl eq_refl eq_refl) as [Hs He].
  split; [exact Hs|]. split; [exact He|]. split; reflexivity.
Defined.

(** X8: an index outside the waypoint list.  When the index sequence that
    the preferred backend puts in use holds such an index, the preferred
    path throws a [TypeError] and [optimizeRoute] settles as the fallback
    path does; when the sequence of the fallback backend holds one, the
    fallback path throws the [TypeError]. *)
Theorem stray_index_throws (env : Env) (params : OptimizeRouteParams) (idx : Z) :
  idx < 0 \/ Z.of_nat (length (waypoints params)) <= idx ->
  (forall route,
      preferred_answers env params route ->
      In idx (order_in_use (waypoints params)
                (optimizedIntermediateWaypointIndex route)) ->
      outcome (computeRoutesPreferred env params) = inl (type_error "label") /\
      outcome (optimizeRoute env params)
      = outcome (computeDirectionsFallback env params)) /\
  (forall route,
      fallback_answers env params route ->
      In idx (order_in_use (waypoints params) (waypoint_order route)) ->
      outcome (computeDirectionsFallback env params) = inl (type_error "label")).
Proof.
  intro Hout. split.
  - intros route Ha Hin.
    assert (outcome (computeRoutesPreferred env params) = inl (type_error "label"))
      as Hp.
    { rewrite (preferred_run env params route Ha).
      rewrite (orderPoints_hole params _ idx Hin Hout).
      destruct (RoutesFacts.mapLegs_ordered (legs_sent (route_legs route)) params
                  (order_in_use (waypoints params)
                     (optimizedIntermediateWaypointIndex route)))
        as (legs & -> & _).
      reflexivity. }
    split; [exact Hp|].
    now rewrite (optimizeRoute_falls_back env params _ Hp).
  - intros route Ha Hin.
    rewrite (fallback_run env params route Ha).
    rewrite (orderPoints_hole params _ idx Hin Hout).
    destruct (RoutesFacts.mapLegs_ordered
                (map directionsLeg (legs_sent (directions_legs route))) params
                (order_in_use (waypoints params) (waypoint_order route)))
      as (legs & -> & _).
    reflexivity.
Qed.

Lemma stray_index_throws_witness :
  outcome (computeRoutesPreferred preferred_strays two_stops)
  = inl (type_error "label") /\
  exists r,
    outcome (optimizeRoute preferred_strays two_stops) = inr r /\
    source r = directions_fallback.
Proof.
  assert (5 < 0 \/ Z.of_nat (length (waypoints two_stops)) <= 5) as Hout
      by (right; simpl; lia).
  destruct (stray_index_throws preferred_strays two_stops 5 Hout) as (Hp & _).
  destruct (Hp stray_route) as (Hthrow & Hfb).
  { do 3 eexists. repeat split; reflexivity. }
  { simpl. tauto. }
  split; [exact Hthrow|].
  rewrite Hfb. eexists. split; reflexivity.
Defined.

End RoutesExtras.

(* ------------------------------------------------------------------ *)
(** ** Requests and log lines of RoutesService *)

Module RequestExtras.
Import RoutesService Vocabulary RoutesVocabulary MoreVocabulary.
Import RouteScenarios MoreScenarios.
Import StringFacts RoutesFacts IntegerText.

Lemma resolve_for_fallback_nonempty (env : Env) (value : option string) :
  resolveDepartureTimeString env value true <> EmptyString.
Proof.
  unfold resolveDepartureTimeString.
  destruct value as [[|c r]|]; try discriminate.
  destruct (String.eqb (String c r) "now"); [discriminate|].
  destruct (date_time env (String c r)); [apply string_of_Z_nonempty | discriminate].
Qed.

(** X9: the departure time of the two requests.  The fallback request
    always carries one, and it is never an ISO timestamp: it is the literal
    ["now"] when the caller gave none, an empty one, ["now"] or a date that
    does not parse, and otherwise the whole seconds since the epoch of the
    given date, written with digits (and a minus sign before 1970) only.
    The preferred request carries the current instant in the first case and
    the given date in the second, both as the ISO text of the clock. *)
Theorem departure_time_resolution (env : Env) (params : OptimizeRouteParams) :
  param_departure_time (directionsRequest env params)
  = Some (resolveDepartureTimeString env (departureTime params) true) /\
  body_departureTime (request_body (routesRequest env params))
  = resolveDepartureTimeString env (departureTime params) false /\
  (((departureTime params = None \/ departureTime params = Some EmptyString \/
     departureTime params = Some "now" \/
     exists v, departureTime params = Some v /\ date_time env v = None) /\
    resolveDepartureTimeString env (departureTime params) true = "now" /\
    resolveDepartureTimeString env (departureTime params) false = now_iso env)
   \/
   (exists v ms,
       departureTime params = Some v /\ v <> "now" /\ v <> EmptyString /\
       date_time env v = Some ms /\
       resolveDepartureTimeString env (departureTime params) true
       = string_of_Z (ms / 1000) /\
       all_chars integer_char
         (resolveDepartureTimeString env (departureTime params) true) = true /\
       resolveDepartureTimeString env (departureTime params) false
       = date_iso env ms)).
Proof.
  split; [|split; [reflexivity|]].
  - unfold directionsRequest. cbn [param_departure_time].
    pose proof (resolve_for_fallback_nonempty env (departureTime params)) as Hne.
    destruct (resolveDepartureTimeString env (departureTime params) true);
      [now destruct Hne | reflexivity].
  - unfold resolveDepartureTimeString.
    destruct (departureTime params) as [[|c r]|]; [left; tauto | | left; tauto].
    destruct (String.eqb_spec (String c r) "now") as [E|E].
    + left. rewrite E. tauto.
    + destruct (date_time env (String c r)) as [ms|] eqn:Ed.
      * right. exists (String c r), ms.
        repeat split; try assumption; try discriminate.
        apply string_of_Z_integer_chars.
      * left. split; [|tauto]. do 3 right. now exists (String c r).
Qed.

(** X10: the fallback request does not depend on the optimisation
    criterion: two requests that differ in [optimizeBy] only give the same
    Directions request, while their Routes requests ask for different
    routing preferences. *)
Theorem fallback_request_ignores_criterion (env : Env)
  (p q : OptimizeRouteParams) :
  origin p = origin q -> destination p = destination q ->
  waypoints p = waypoints q -> departureTime p = departureTime q ->
  directionsRequest env p = directionsRequest env q /\
  (routingPreference (request_body (routesRequest env p))
   = routingPreference (request_body (routesRequest env q))
   <-> optimizeBy p = optimizeBy q).
Proof.
  intros Ho Hd Hw Ht. split.
  - unfold directionsRequest. now rewrite Ho, Hd, Hw, Ht.
  - cbn [routesRequest request_body routingPreference].
    destruct (optimizeBy p), (optimizeBy q); split; intro H;
      try reflexivity; discriminate.
Qed.

Lemma fallback_request_ignores_criterion_witness :
  directionsRequest preferred_down two_stops
  = directionsRequest preferred_down
      (mkParams trip_origin trip_destination [stop_a; stop_b] distance (Some "now")) /\
  routingPreference (request_body (routesRequest preferred_down two_stops))
  <> routingPreference
       (request_body
          (routesRequest preferred_down
             (mkParams trip_origin trip_destination [stop_a; stop_b] distance
                (Some "now")))).
Proof.
  destruct (fallback_request_ignores_criterion preferred_down two_stops
              (mkParams trip_origin trip_destination [stop_a; stop_b] distance
                 (Some "now")) eq_refl eq_refl eq_refl eq_refl) as (Hsame & Hpref).
  split; [exact Hsame|].
  intro H. apply Hpref in H. discriminate.
Defined.

(** X11: what is logged when the preferred path fails at the network.  A
    rejected request is logged as it was thrown; a non-success status is
    logged as an error that quotes the provider's message when the body
    parses and holds a non-empty one, the status text otherwise, and the
    HTTP status code.  In both cases the log line sits between the one
    Routes request and the one Directions request. *)
Theorem preferred_failure_is_logged (env : Env) (params : OptimizeRouteParams) :
  (forall t,
      routes_endpoint env (routesRequest env params) = Rejected t ->
      trace (optimizeRoute env params)
      = [ FetchRoutes (routesRequest env params);
          fallback_log t;
          FetchDirections (directionsRequest env params) ]) /\
  (forall resp,
      routes_endpoint env (routesRequest env params) = Responded resp ->
      ok resp = false ->
      trace (optimizeRoute env params)
      = [ FetchRoutes (routesRequest env params);
          fallback_log
            (JsError ("Routes Preferred API error: "
                      ++ upstream_message error_message resp
                      ++ " (HTTP " ++ string_of_nat (status resp) ++ ")"));
          FetchDirections (directionsRequest env params) ]).
Proof.
  split.
  - intros t Hresp.
    assert (outcome (computeRoutesPreferred env params) = inl t) as Hp.
    { unfold computeRoutesPreferred, fetch_routes. now rewrite Hresp. }
    rewrite (optimizeRoute_falls_back env params t Hp).
    unfold trace at 1. cbn [fst].
    now rewrite preferred_trace, fallback_trace.
  - intros resp Hresp Hok.
    assert (outcome (computeRoutesPreferred env params)
            = inl (JsError ("Routes Preferred API error: "
                            ++ upstream_message error_message resp
                            ++ " (HTTP " ++ string_of_nat (status resp) ++ ")")))
      as Hp.
    { unfold computeRoutesPreferred, fetch_routes, upstream_message.
      rewrite Hresp. destruct resp as [k st txt b]. simpl in Hok. subst k.
      simpl. destruct b as [t|[payload|]]; reflexivity. }
    rewrite (optimizeRoute_falls_back env params _ Hp).
    unfold trace at 1. cbn [fst].
    now rewrite preferred_trace, fallback_trace.
Qed.

Lemma preferred_failure_is_logged_witness :
  trace (optimizeRoute preferred_down two_stops)
  = [ FetchRoutes (routesRequest preferred_down two_stops);
      fallback_log (JsError "Routes Preferred API error: boom (HTTP 500)");
      FetchDirections (directionsRequest preferred_down two_stops) ].
Proof.
  exact (proj2 (preferred_failure_is_logged preferred_down two_stops)
           _ eq_refl eq_refl).
Defined.

End RequestExtras.

(* ------------------------------------------------------------------ *)
(** ** Further properties of TextSearchService *)

Module SearchShape.
Import TextSearchService PlacesVocabulary.

(** Every call of [search] starts with its one request. *)
Lemma search_shape (env : Env) (query : string) (maxResults : option Z)
  (languageCode : option string) :
  (exists r,
      search env query maxResults languageCode
      = ([FetchPlaces (request_of env query maxResults languageCode)], inr r))
  \/
  (exists t,
      search env query maxResults languageCode
      = ([ FetchPlaces (request_of env query maxResults languageCode);
           LogError "places_text_search error" t ],
         inl (JsError match t with
                      | JsError message => message
                      | JsValue text => "Places text search failed: " ++ text
                      end))).
Proof.
  unfold request_of, search, fetch_places.
  destruct (endpoint env _) as [t|resp].
  - right. exists t. now destruct t.
  - destruct resp as [k st txt b]. destruct k; simpl.
    + destruct b as [t|payload]; simpl.
      * right. exists t. now destruct t.
      * left. eexists. reflexivity.
    + right. destruct b as [t|v]; simpl; eexists (JsError _); reflexivity.
Qed.

End SearchShape.

Module PlacesExtras.
Import TextSearchService Vocabulary PlacesVocabulary PlaceScenarios MoreScenarios.
Import StringFacts PlacesFacts.

(** X12: what one call of [search] does.  It sends exactly one request.
    When it returns, it has logged nothing.  When it fails, it has logged
    the failure once, after the request, and what it throws is always an
    [Error]: the error that was thrown inside, or, for a thrown value that
    is no [Error], a new one whose message is
    ["Places text search failed: "] and the JSON text of that value. *)
Theorem search_effects (env : Env) (query : string) (maxResults : option Z)
  (languageCode : option string) :
  (exists r,
      search env query maxResults languageCode
      = ([FetchPlaces (request_of env query maxResults languageCode)], inr r))
  \/
  (exists t,
      search env query maxResults languageCode
      = ([ FetchPlaces (request_of env query maxResults languageCode);
           LogError "places_text_search error" t ],
         inl (JsError match t with
                      | JsError message => message
                      | JsValue text => "Places text search failed: " ++ text
                      end))).
Proof. apply SearchShape.search_shape. Qed.

(** X13: the number of results asked for is always between 1 and 20: the
    caller's number when that is in range, 5 when the caller gave none, 1
    for anything smaller and 20 for anything larger. *)
Theorem result_count_is_clamped (env : Env) (query : string)
  (maxResults : option Z) (languageCode : option string) :
  1 <= maxResultCount (request_of env query maxResults languageCode) <= 20 /\
  (forall m, maxResults = Some m -> 1 <= m <= 20 ->
             maxResultCount (request_of env query maxResults languageCode) = m) /\
  (maxResults = None ->
   maxResultCount (request_of env query maxResults languageCode) = 5) /\
  (forall m, maxResults = Some m -> m < 1 ->
             maxResultCount (request_of env query maxResults languageCode) = 1) /\
  (forall m, maxResults = Some m -> 20 < m ->
             maxResultCount (request_of env query maxResults languageCode) = 20).
Proof.
  unfold request_of, searchRequest. cbn [maxResultCount].
  split; [lia|]. split; [intros m -> H; cbn [nullish]; lia|].
  split; [intros ->; reflexivity|].
  split; intros m -> H; cbn [nullish]; lia.
Qed.

Lemma result_count_is_clamped_witness :
  maxResultCount (request_of forbidden "cafe" (Some 7) None) = 7 /\
  maxResultCount (request_of forbidden "cafe" (Some 0) None) = 1 /\
  maxResultCount (request_of forbidden "cafe" (Some 50) None) = 20.
Proof.
  split; [|split].
  - apply (proj1 (proj2 (result_count_is_clamped forbidden "cafe" (Some 7) None)) 7);
      [reflexivity | lia].
  - destruct (result_count_is_clamped forbidden "cafe" (Some 0) None)
      as (_ & _ & _ & Hlow & _).
    apply (Hlow 0); [reflexivity | lia].
  - destruct (result_count_is_clamped forbidden "cafe" (Some 50) None)
      as (_ & _ & _ & _ & Hhigh).
    apply (Hhigh 50); [reflexivity | lia].
Defined.

(** X14: the viewport test at its edges.  Swapping the two corners changes
    nothing; a viewport that lacks a corner counts like no viewport; and a
    viewport whose two corners are the same point, whatever its
    coordinates, does not make an area of a place whose types name none. *)
Theorem viewport_edge_cases (types : list string) (lo hi : Coordinates) :
  isArea types (Some (mkViewport (Some lo) (Some hi)))
  = isArea types (Some (mkViewport (Some hi) (Some lo))) /\
  (forall vp, low vp = None \/ high vp = None ->
              isArea types (Some vp) = isArea types None) /\
  (~ area_type types ->
   isArea types (Some (mkViewport (Some lo) (Some lo))) = false).
Proof.
  split; [|split].
  - unfold isArea.
    now rewrite (span_exceeds_comm (nullish (latitude hi) 0%float)),
                (span_exceeds_comm (nullish (longitude hi) 0%float)).
  - intros [l h] [H|H]; simpl in H; subst; unfold isArea;
      destruct (existsb _ types); try reflexivity.
    now destruct l.
  - intro Htype. unfold isArea.
    destruct (existsb _ types) eqn:E;
      [apply matchesType_spec in E; contradiction|].
    now rewrite !span_exceeds_diag.
Qed.

Lemma viewport_edge_cases_witness :
  isArea ["establishment"]
    (Some (mkViewport (Some (mkCoordinates (Some 2%float) None))
                      (Some (mkCoordinates (Some 2%float) None))))
  = false /\
  isArea ["establishment"]
    (Some (mkViewport (Some (mkCoordinates (Some 2%float) None)) None))
  = isArea ["establishment"] None.
Proof.
  destruct (viewport_edge_cases ["establishment"]
              (mkCoordinates (Some 2%float) None)
              (mkCoordinates (Some 2.5%float) (Some 3%float)))
    as (_ & Hmissing & Hsame).
  split.
  - apply Hsame. intro H. apply matchesType_spec in H. discriminate.
  - apply Hmissing. now right.
Defined.

(** X15: an HTTP-ok response gives one candidate for each place of the
    body, in the order of the body and whatever number was asked for: the
    candidate at position [k] is made of the place at position [k]. *)
Theorem one_candidate_per_place (env : Env) (query : string)
  (maxResults : option Z) (languageCode : option string)
  (resp : Response PlacesPayload) (payload : option PlacesPayload) :
  endpoint env (request_of env query maxResults languageCode) = Responded resp ->
  ok resp = true ->
  body resp = JsonValue payload ->
  exists r,
    outcome (search env query maxResults languageCode) = inr r /\
    length (candidates r) = length (places_sent payload) /\
    forall k,
      nth_error (candidates r) k
      = option_map (fun place => transformCandidate place (Z.of_nat k))
          (nth_error (places_sent payload) k).
Proof.
  intros Hresp Hok Hbody.
  rewrite (search_ok _ _ _ _ _ _ Hresp Hok Hbody).
  eexists. split; [reflexivity|]. cbn [candidates]. split.
  - generalize 0. induction (places_sent payload) as [|p r IH]; intro i;
      [reflexivity|]. cbn [transformAll length]. now rewrite IH.
  - intro k. now rewrite transformAll_nth.
Qed.

Lemma one_candidate_per_place_witness :
  exists r,
    outcome (search (finds (Some [cafe; nameless; cafe])) "cafe" (Some 1) None)
    = inr r /\
    length (candidates r) = 3%nat.
Proof.
  destruct (one_candidate_per_place (finds (Some [cafe; nameless; cafe])) "cafe"
              (Some 1) None _ _ eq_refl eq_refl eq_refl) as (r & Hr & Hlen & _).
  exists r. split; [exact Hr | exact Hlen].
Defined.

End PlacesExtras.

(* ------------------------------------------------------------------ *)
(** ** Construction and the tool actions *)

Module ToolsExtras.
Import Tools Vocabulary PlacesVocabulary ToolVocabulary.
Import PlaceScenarios RouteScenarios MoreScenarios.
Import PlacesFacts.

Lemma resolveApiKey_blank (apiKey envKey : option string) :
  blank apiKey -> blank envKey -> resolveApiKey apiKey envKey = EmptyString.
Proof. now intros [-> | ->] [-> | ->]. Qed.

Lemma newTextSearchService_blank (apiKey envKey : option string) :
  blank apiKey -> blank envKey ->
  newTextSearchService apiKey envKey
  = inl (JsError "Google Maps API Key is required for text search").
Proof.
  intros Ha He. unfold newTextSearchService.
  now rewrite (resolveApiKey_blank _ _ Ha He).
Qed.

Lemma newRoutesService_blank (apiKey envKey : option string) :
  blank apiKey -> blank envKey ->
  newRoutesService apiKey envKey
  = inl (JsError "Google Maps API Key is required for route optimization").
Proof.
  intros Ha He. unfold newRoutesService.
  now rewrite (resolveApiKey_blank _ _ Ha He).
Qed.

(** X16: which key a service is made with.  A non-empty key given to the
    constructor is the one kept; without one, a non-empty
    [GOOGLE_MAPS_API_KEY] of the environment is kept; with neither, the
    constructor throws, each service with its own message.  An empty key
    counts as none. *)
Theorem api_key_resolution (apiKey envKey : option string) :
  (forall key, apiKey = Some key -> key <> EmptyString ->
               newRoutesService apiKey envKey = inr key /\
               newTextSearchService apiKey envKey = inr key) /\
  (forall key, blank apiKey -> envKey = Some key -> key <> EmptyString ->
               newRoutesService apiKey envKey = inr key /\
               newTextSearchService apiKey envKey = inr key) /\
  (blank apiKey -> blank envKey ->
   newRoutesService apiKey envKey
   = inl (JsError "Google Maps API Key is required for route optimization") /\
   newTextSearchService apiKey envKey
   = inl (JsError "Google Maps API Key is required for text search")) /\
  (forall key, newRoutesService apiKey envKey = inr key -> key <> EmptyString) /\
  (forall key, newTextSearchService apiKey envKey = inr key -> key <> EmptyString).
Proof.
  unfold newRoutesService, newTextSearchService, resolveApiKey.
  split; [|split; [|split; [|split]]].
  - intros key -> Hne. destruct key; [now destruct Hne | split; reflexivity].
  - intros key [-> | ->] -> Hne;
      (destruct key; [now destruct Hne | split; reflexivity]).
  - intros [-> | ->] [-> | ->]; split; reflexivity.
  - intros key. destruct (or_string apiKey (or_string envKey EmptyString));
      [discriminate|]. intros [= <-]. discriminate.
  - intros key. destruct (or_string apiKey (or_string envKey EmptyString));
      [discriminate|]. intros [= <-]. discriminate.
Qed.

Lemma api_key_resolution_witness :
  newRoutesService (Some "explicit") (Some "from-env") = inr "explicit" /\
  newTextSearchService (Some EmptyString) (Some "from-env") = inr "from-env" /\
  newRoutesService None (Some EmptyString)
  = inl (JsError "Google Maps API Key is required for route optimization").
Proof.
  destruct (api_key_resolution (Some "explicit") (Some "from-env")) as (Hgiven & _).
  destruct (api_key_resolution (Some EmptyString) (Some "from-env"))
    as (_ & Henv & _).
  destruct (api_key_resolution None (Some EmptyString)) as (_ & _ & Hnone & _).
  split; [exact (proj1 (Hgiven "explicit" eq_refl ltac:(discriminate)))|].
  split.
  - apply (Henv "from-env"); [now right | reflexivity | discriminate].
  - apply Hnone; [now left | now right].
Defined.

(** X17: the [places_text_search] action.  It never throws.  Without a
    key it sends nothing and answers with the error of the constructor.
    With a key, the first thing it does is to send the expected request
    (the caller's query, the count brought into 1..20, the language or
    ["en"]); if the backend answers with a non-success status the answer
    is an error whose text quotes the provider's message or the status
    text, and the status code; if [search] returns, the answer carries its
    result and is no error. *)
Theorem text_search_action (host : Host TextSearchService.Env)
  (params : TextSearch.TextSearchParams) :
  (exists answer, outcome (TextSearch.ACTION host params) = inr answer) /\
  (blank (currentApiKey host) -> blank (envApiKey host) ->
   TextSearch.ACTION host params
   = ([], inr (failure ("places_text_search failed: "
                        ++ "Google Maps API Key is required for text search")))) /\
  (forall key,
      newTextSearchService (currentApiKey host) (envApiKey host) = inr key ->
      (exists rest,
          trace (TextSearch.ACTION host params)
          = TextSearchService.FetchPlaces (expected_search_request params key) :: rest) /\
      (forall resp,
          TextSearchService.endpoint (Tools.world host) (expected_search_request params key)
          = Responded resp ->
          ok resp = false ->
          outcome (TextSearch.ACTION host params)
          = inr (failure ("places_text_search failed: "
                          ++ "Places text search failed: "
                          ++ upstream_message TextSearchService.error_message resp
                          ++ " (HTTP " ++ string_of_nat (status resp) ++ ")"))) /\
      (forall resp payload,
          TextSearchService.endpoint (Tools.world host) (expected_search_request params key)
          = Responded resp ->
          ok resp = true ->
          body resp = JsonValue payload ->
          exists r,
            outcome (TextSearch.ACTION host params) = inr (success r) /\
            TextSearchService.candidates r
            = TextSearchService.transformAll (places_sent payload) 0)).
Proof.
  split; [|split].
  - unfold TextSearch.ACTION, try_catch, bind, lift, ret.
    destruct (newTextSearchService _ _) as [e|key]; [eexists; reflexivity|].
    destruct (TextSearchService.search _ _ _ _) as [tr [e|r]];
      eexists; reflexivity.
  - intros Hk He. unfold TextSearch.ACTION.
    now rewrite (newTextSearchService_blank _ _ Hk He).
  - intros key Hkey.
    set (language := match TextSearch.languageCode params with
                     | Some (String c r) => Some (String c r)
                     | _ => None
                     end).
    assert (request_of (TextSearch.service (Tools.world host) key) (TextSearch.query params)
              (Some (nullish (TextSearch.maxResults params) 5)) language
            = expected_search_request params key) as Hreq.
    { unfold request_of, TextSearchService.searchRequest, expected_search_request,
        language. cbn [TextSearch.service TextSearchService.apiKey nullish].
      f_equal; try (now destruct (TextSearch.maxResults params)).
      now destruct (TextSearch.languageCode params) as [[|c r]|]. }
    assert (TextSearch.ACTION host params
            = match TextSearchService.search (TextSearch.service (Tools.world host) key)
                      (TextSearch.query params)
                      (Some (nullish (TextSearch.maxResults params) 5)) language with
              | (tr, inl e) =>
                  (tr, inr (failure ("places_text_search failed: " ++ errorMessage e)))
              | (tr, inr r) => (tr, inr (success r))
              end) as Hrun.
    { unfold TextSearch.ACTION, try_catch, bind, lift, ret. rewrite Hkey.
      fold language.
      destruct (TextSearchService.search _ _ _ _) as [tr [e|r]]; cbn;
        now rewrite ?app_nil_r. }
    split; [|split].
    + rewrite Hrun.
      destruct (SearchShape.search_shape (TextSearch.service (Tools.world host) key)
                  (TextSearch.query params)
                  (Some (nullish (TextSearch.maxResults params) 5)) language)
        as [(r & ->) | (t & ->)]; rewrite Hreq; eexists; reflexivity.
    + intros resp Hresp Hok. rewrite Hrun.
      rewrite <- Hreq in Hresp.
      pose proof (search_http_error (TextSearch.service (Tools.world host) key) _ _ _ resp
                    Hresp Hok) as Herr.
      destruct (TextSearchService.search _ _ _ _) as [tr [e|r]];
        cbn [outcome snd] in *; [|discriminate].
      inversion Herr; subst e. reflexivity.
    + intros resp payload Hresp Hok Hbody. rewrite Hrun.
      rewrite <- Hreq in Hresp.
      rewrite (search_ok (TextSearch.service (Tools.world host) key) _ _ _ resp payload
                 Hresp Hok Hbody).
      eexists. split; reflexivity.
Qed.

Lemma text_search_action_witness :
  TextSearch.ACTION (places_host None (Some EmptyString) forbidden)
    (TextSearch.mkTextSearchParams "bad" None None)
  = ([], inr (failure ("places_text_search failed: "
                       ++ "Google Maps API Key is required for text search"))) /\
  outcome (TextSearch.ACTION (places_host (Some "test-key") None forbidden)
             (TextSearch.mkTextSearchParams "bad" None (Some EmptyString)))
  = inr (failure ("places_text_search failed: "
                  ++ "Places text search failed: API key invalid (HTTP 403)")) /\
  exists r,
    outcome (TextSearch.ACTION (places_host None (Some "test-key") (finds (Some [cafe])))
               (TextSearch.mkTextSearchParams "Cafe 123" (Some 50) None))
    = inr (success r) /\
    TextSearchService.resolved r = true.
Proof.
  split; [|split].
  - apply (proj1 (proj2 (text_search_action
                           (places_host None (Some EmptyString) forbidden)
                           (TextSearch.mkTextSearchParams "bad" None None))));
      [now left | now right].
  - destruct (text_search_action (places_host (Some "test-key") None forbidden)
                (TextSearch.mkTextSearchParams "bad" None (Some EmptyString)))
      as (_ & _ & Hkey).
    destruct (Hkey "test-key" eq_refl) as (_ & Herr & _).
    exact (Herr _ eq_refl eq_refl).
  - destruct (text_search_action
                (places_host None (Some "test-key") (finds (Some [cafe])))
                (TextSearch.mkTextSearchParams "Cafe 123" (Some 50) None))
      as (_ & _ & Hkey).
    destruct (Hkey "test-key" eq_refl) as (_ & _ & Hok).
    destruct (Hok _ _ eq_refl eq_refl eq_refl) as (r & Hr & _).
    eexists. split; reflexivity.
Defined.

Lemma fallback_http_error (env : RoutesService.Env)
  (params : RoutesService.OptimizeRouteParams)
  (resp : Response RoutesService.DirectionsPayload) :
  RoutesService.directions_endpoint env (RoutesService.directionsRequest env params)
  = Responded resp ->
  ok resp = false ->
  outcome (RoutesService.computeDirectionsFallback env params)
  = inl (JsError ("Directions API HTTP error " ++ string_of_nat (status resp)
                  ++ ": " ++ statusText resp)).
Proof.
  intros Hresp Hok.
  unfold RoutesService.computeDirectionsFallback, RoutesService.fetch_directions.
  rewrite Hresp. destruct resp as [k st txt b]. simpl in Hok. subst k.
  reflexivity.
Qed.

(** X18: the [routes_optimize] action.  It never throws.  Without a key it
    sends nothing and answers with the error of the constructor.  With a
    key it does what [optimizeRoute] does, with that key, on the caller's
    origin, destination, waypoints (none when the caller gave none),
    criterion and departure time: a result becomes a success answer, a
    thrown error an error answer with its message; so when the preferred
    path has failed and the fallback backend answers with a non-success
    status, the answer names that status code and text. *)
Theorem routes_optimize_action (host : Host RoutesService.Env)
  (params : RoutesOptimize.RoutesOptimizeParams) :
  (exists answer, outcome (RoutesOptimize.ACTION host params) = inr answer) /\
  (blank (currentApiKey host) -> blank (envApiKey host) ->
   RoutesOptimize.ACTION host params
   = ([], inr (failure ("routes_optimize failed: "
                        ++ "Google Maps API Key is required for route optimization")))) /\
  (forall key,
      newRoutesService (currentApiKey host) (envApiKey host) = inr key ->
      trace (RoutesOptimize.ACTION host params)
      = trace (RoutesService.optimizeRoute
                 (expected_route_service (Tools.world host) key)
                 (expected_route_params params)) /\
      (forall r,
          outcome (RoutesService.optimizeRoute
                     (expected_route_service (Tools.world host) key)
                     (expected_route_params params)) = inr r ->
          outcome (RoutesOptimize.ACTION host params) = inr (success r)) /\
      (forall e,
          outcome (RoutesService.optimizeRoute
                     (expected_route_service (Tools.world host) key)
                     (expected_route_params params)) = inl e ->
          outcome (RoutesOptimize.ACTION host params)
          = inr (failure ("routes_optimize failed: " ++ errorMessage e))) /\
      (forall e resp,
          outcome (RoutesService.computeRoutesPreferred
                     (expected_route_service (Tools.world host) key)
                     (expected_route_params params)) = inl e ->
          RoutesService.directions_endpoint (Tools.world host)
            (RoutesService.directionsRequest
               (expected_route_service (Tools.world host) key)
               (expected_route_params params)) = Responded resp ->
          ok resp = false ->
          outcome (RoutesOptimize.ACTION host params)
          = inr (failure ("routes_optimize failed: "
                          ++ "Directions API HTTP error "
                          ++ string_of_nat (status resp)
                          ++ ": " ++ statusText resp)))).
Proof.
  split; [|split].
  - unfold RoutesOptimize.ACTION, try_catch, bind, lift, ret.
    destruct (newRoutesService _ _) as [e|key]; [eexists; reflexivity|].
    destruct (RoutesService.optimizeRoute _ _) as [tr [e|r]]; eexists; reflexivity.
  - intros Hk He. unfold RoutesOptimize.ACTION.
    now rewrite (newRoutesService_blank _ _ Hk He).
  - intros key Hkey.
    assert (RoutesOptimize.serviceParams params = expected_route_params params)
      as Hparams by reflexivity.
    assert (RoutesOptimize.service (Tools.world host) key
            = expected_route_service (Tools.world host) key)
      as Hservice by reflexivity.
    assert (RoutesOptimize.ACTION host params
            = match RoutesService.optimizeRoute
                      (expected_route_service (Tools.world host) key)
                      (expected_route_params params) with
              | (tr, inl e) =>
                  (tr, inr (failure ("routes_optimize failed: " ++ errorMessage e)))
              | (tr, inr r) => (tr, inr (success r))
              end) as Hrun.
    { rewrite <- Hparams, <- Hservice.
      unfold RoutesOptimize.ACTION, try_catch, bind, lift, ret. rewrite Hkey.
      destruct (RoutesService.optimizeRoute _ _) as [tr [e|r]]; cbn;
        now rewrite ?app_nil_r. }
    assert (forall e,
               outcome (RoutesService.optimizeRoute
                          (expected_route_service (Tools.world host) key)
                          (expected_route_params params)) = inl e ->
               outcome (RoutesOptimize.ACTION host params)
               = inr (failure ("routes_optimize failed: " ++ errorMessage e)))
      as Hthrown.
    { intros e He. rewrite Hrun.
      destruct (RoutesService.optimizeRoute _ _) as [tr [e'|r]];
        cbn [outcome snd] in *; [|discriminate]. now inversion He. }
    split; [|split; [|split]].
    + rewrite Hrun.
      now destruct (RoutesService.optimizeRoute _ _) as [tr [e|r]].
    + intros r Hr. rewrite Hrun.
      destruct (RoutesService.optimizeRoute _ _) as [tr [e|r']];
        cbn [outcome snd] in *; [discriminate|]. now inversion Hr.
    + exact Hthrown.
    + intros e resp He Hresp Hok.
      apply (Hthrown (JsError ("Directions API HTTP error "
                               ++ string_of_nat (status resp)
                               ++ ": " ++ statusText resp))).
      rewrite (RoutesFacts.optimizeRoute_falls_back _ _ e He).
      unfold outcome at 1. cbn [snd].
      now apply fallback_http_error.
Qed.

Lemma routes_optimize_action_witness :
  RoutesOptimize.ACTION (routes_host None None both_refuse)
    (RoutesOptimize.mkRoutesOptimizeParams trip_origin trip_destination None
       RoutesService.time None)
  = ([], inr (failure ("routes_optimize failed: "
                       ++ "Google Maps API Key is required for route optimization"))) /\
  outcome (RoutesOptimize.ACTION (routes_host (Some "test-key") None both_refuse)
             (RoutesOptimize.mkRoutesOptimizeParams trip_origin trip_destination None
                RoutesService.time None))
  = inr (failure "routes_optimize failed: Directions API HTTP error 403: Forbidden") /\
  exists r,
    outcome (RoutesOptimize.ACTION (routes_host (Some "test-key") None preferred_up)
               (RoutesOptimize.mkRoutesOptimizeParams trip_origin trip_destination
                  (Some [stop_a; stop_b]) RoutesService.time (Some "now")))
    = inr (success r) /\
    RoutesService.source r = RoutesService.routes_preferred.
Proof.
  split; [|split].
  - apply (proj1 (proj2 (routes_optimize_action (routes_host None None both_refuse)
                           (RoutesOptimize.mkRoutesOptimizeParams trip_origin
                              trip_destination None RoutesService.time None))));
      now left.
  - destruct (routes_optimize_action (routes_host (Some "test-key") None both_refuse)
                (RoutesOptimize.mkRoutesOptimizeParams trip_origin trip_destination
                   None RoutesService.time None)) as (_ & _ & Hkey).
    destruct (Hkey "test-key" eq_refl) as (_ & _ & _ & Hboth).
    exact (Hboth (JsError "Routes Preferred API error: API key invalid (HTTP 403)")
             _ eq_refl eq_refl eq_refl).
  - destruct (routes_optimize_action (routes_host (Some "test-key") None preferred_up)
                (RoutesOptimize.mkRoutesOptimizeParams trip_origin trip_destination
                   (Some [stop_a; stop_b]) RoutesService.time (Some "now")))
      as (_ & _ & Hkey).
    destruct (Hkey "test-key" eq_refl) as (_ & Hok & _).
    eexists. split; [apply Hok; reflexivity | reflexivity].
Defined.

End ToolsExtras.
